(** * rinq-go: session catalogs, attribute rendering and command dispatch

    A shallow embedding of the session-catalog core of rinq-go:

    - [ident]       : structured identifiers (peer, session, ref, message);
    - [rinq]        : application-level attributes and the domain errors;
    - [attrmeta]    : attributes with revision meta-data, their tables and
                      their textual rendering (repr.go);
    - [localsession]: the authoritative catalog of a session
                      (localsession/catalog.go);
    - [remotesession]: the caching catalog of a non-local session
                      (remotesession/catalog.go);
    - [commandamqp] : the dispatch path of the command server.

    Go maps are reference objects.  Attribute tables, which the local
    catalog clones and then writes in place while snapshots of the
    original are shared, live in an explicit heap.  The other maps are
    read, replaced as a whole, or written through the one reference the
    owner holds; they are represented by [gmap] values, with [None]
    standing for Go's nil map. *)

From Stdlib Require Import ZArith String List Lia Bool.
From stdpp Require Import gmap strings list fin_maps.

Local Open Scope Z_scope.

(** Unsigned 32-bit arithmetic of Go: results wrap around modulo 2^32. *)
Definition u32_max : Z := 4294967295.
Definition u32 (z : Z) : Z := z mod 4294967296.

(* ------------------------------------------------------------------------- *)
Module ident.

(** Modelled from the spec: the [ident] package is not part of the
    sources at hand.  A PeerID is a pair (clock, rand), a SessionID a
    PeerID with a 32-bit sequence number, a Ref a SessionID with a 32-bit
    revision and a MessageID a Ref with a 32-bit sequence number. *)
Record PeerID := mkPeerID { Clock : Z; Rand : Z }.
Record SessionID := mkSessionID { Peer : PeerID; SessSeq : Z }.
Record Ref := mkRef { ID : SessionID; Rev : Z }.
Record MessageID := mkMessageID { MsgRef : Ref; MsgSeq : Z }.

#[global] Instance PeerID_eq_dec : EqDecision PeerID.
Proof. solve_decision. Defined.
#[global] Instance SessionID_eq_dec : EqDecision SessionID.
Proof. solve_decision. Defined.
#[global] Instance Ref_eq_dec : EqDecision Ref.
Proof. solve_decision. Defined.
#[global] Instance MessageID_eq_dec : EqDecision MessageID.
Proof. solve_decision. Defined.

(** [id.At(rev)] *)
Definition At (id : SessionID) (rev : Z) : Ref := mkRef id rev.

(** [ref.Message(seq)] *)
Definition Message (r : Ref) (seq : Z) : MessageID := mkMessageID r seq.

End ident.

(* ------------------------------------------------------------------------- *)
Module rinq.

(** [rinq.Attr{Key, Value, IsFrozen}] (see attr_test.go). *)
Record Attr := mkAttr { Key : string; Value : string; IsFrozen : bool }.

#[global] Instance Attr_eq_dec : EqDecision Attr.
Proof. solve_decision. Defined.

Definition Set_ (k v : string) : Attr := mkAttr k v false.
Definition Freeze (k v : string) : Attr := mkAttr k v true.

(** The domain errors returned by the catalogs, and any other error
    handed back by a collaborator (transport, decoding, ...). *)
Inductive error :=
| NotFoundError (id : ident.SessionID)
| StaleUpdateError (r : ident.Ref)
| StaleFetchError (r : ident.Ref)
| FrozenAttributesError (r : ident.Ref)
| OtherError (msg : string).

#[global] Instance error_eq_dec : EqDecision error.
Proof. solve_decision. Defined.

(** Modelled from the spec: [rinq.IsNotFound] is not part of the sources
    at hand; it recognises the errors that map to NotFound. *)
Definition IsNotFound (e : error) : bool :=
  match e with NotFoundError _ => true | _ => false end.

End rinq.

(* ------------------------------------------------------------------------- *)
Module attrmeta.

(** [attrmeta.Attr]: a [rinq.Attr] (embedded) with the revisions at which
    it was created and last updated. *)
Record Attr := mkAttr { attr : rinq.Attr; CreatedAt : Z; UpdatedAt : Z }.

#[global] Instance Attr_eq_dec : EqDecision Attr.
Proof. solve_decision. Defined.

Definition Key (a : Attr) : string := rinq.Key (attr a).
Definition Value (a : Attr) : string := rinq.Value (attr a).
Definition IsFrozen (a : Attr) : bool := rinq.IsFrozen (attr a).

(** Go's zero value, obtained when a key is looked up in a map that does
    not hold it. *)
Definition zero : Attr := mkAttr (rinq.mkAttr "" "" false) 0 0.

(** The contents of a [Table] object, [map[string]Attr]. *)
Abbreviation Table := (gmap string Attr).

(** Locations of [Table] objects, and the heap that holds them.  A value
    of Go type [Table] is a reference: [None] is the nil map. *)
Abbreviation loc := positive.
Abbreviation heap := (gmap loc (gmap string Attr)).
Abbreviation TableRef := (option loc).

(** The contents read through a reference; reading a nil map yields
    nothing. *)
Definition deref (h : heap) (t : TableRef) : Table :=
  default ∅ (t ≫= (h !!.)).

(** [t.Clone()]: a fresh map object with the entries of [t]. *)
Definition Clone (h : heap) (t : TableRef) : heap * loc :=
  let l := fresh (dom h) in
  (<[l := deref h t]> h, l).

(** [t[k] = v] on the map object at [l]. *)
Definition store (h : heap) (l : loc) (k : string) (v : Attr) : heap :=
  <[l := <[k := v]> (deref h (Some l))]> h.

(** Modelled from the spec: [NamespacedTable], which is not part of the
    sources at hand, maps a namespace to a [Table] (a reference).  The
    outer map is never written in place (see [CloneAndReplace]), so it is
    represented by its value. *)
Abbreviation NamespacedTable := (gmap string loc).

(** Modelled from the spec: [t.CloneAndReplace(ns, table)], which is not
    part of the sources at hand, is the copy-on-write update at namespace
    granularity: a new outer map that agrees with [t] except that [ns]
    refers to [table]; the receiver is left as it is. *)
Definition CloneAndReplace (t : NamespacedTable) (ns : string) (l : loc)
  : NamespacedTable :=
  <[ns := l]> t.

(** A [bytes.Buffer] is represented by its contents;
    [buffer.WriteString(s)] appends. *)
Definition WriteString (buffer s : string) : string := buffer +:+ s.

(** [Write(buffer, attr)] *)
Definition Write (buffer : string) (a : Attr) : string :=
  if decide (Value a = "") then
    let buffer :=
      if IsFrozen a then WriteString buffer "!"
      else WriteString buffer "-" in
    WriteString buffer (Key a)
  else
    let buffer := WriteString buffer (Key a) in
    let buffer :=
      if IsFrozen a then WriteString buffer "@"
      else WriteString buffer "=" in
    WriteString buffer (Value a).

(** [WriteDiff(buffer, attr)] *)
Definition WriteDiff (buffer : string) (a : Attr) : string :=
  if decide (Value a = "") then Write buffer a
  else
    let buffer :=
      if decide (CreatedAt a = UpdatedAt a) then WriteString buffer "+"
      else buffer in
    let buffer := WriteString buffer (Key a) in
    let buffer :=
      if IsFrozen a then WriteString buffer "@"
      else WriteString buffer "=" in
    WriteString buffer (Value a).

(** The textual form of an attribute as the documentation words it:
    [key=value], [key@value] when frozen, [!key] when frozen and empty,
    [-key] when unset. *)
Definition textual_form (a : Attr) : string :=
  match IsFrozen a, bool_decide (Value a = "") with
  | false, false => Key a +:+ "=" +:+ Value a
  | true, false => Key a +:+ "@" +:+ Value a
  | true, true => "!" +:+ Key a
  | false, true => "-" +:+ Key a
  end.

(** The loop shared by [WriteSlice] and [WriteDiffSlice]: each element is
    written with [write], preceded by a separator unless its index is 0. *)
Fixpoint write_from (write : string → Attr → string) (index : nat)
  (buffer : string) (attrs : list Attr) : string :=
  match attrs with
  | [] => buffer
  | a :: attrs =>
      let buffer :=
        if bool_decide (index ≠ 0%nat) then WriteString buffer ", "
        else buffer in
      write_from write (S index) (write buffer a) attrs
  end.

(** [WriteDiffSlice(buffer, attrs)] *)
Definition WriteDiffSlice (buffer : string) (attrs : list Attr) : string :=
  write_from WriteDiff 0 buffer attrs.

(** [WriteSlice(buffer, attrs)] *)
Definition WriteSlice (buffer : string) (attrs : list Attr) : string :=
  write_from Write 0 buffer attrs.

(** [WriteTable(buffer, attrs)].  Go ranges over a map in an order of its
    own choosing: the function takes the order of one run, [visited], which
    is some arrangement of the entries of the table (see [ranges_over]). *)
Fixpoint WriteTable (buffer : string) (visited : list Attr) : string :=
  match visited with
  | [] => buffer
  | a :: visited =>
      if negb (IsFrozen a) && bool_decide (Value a = "")
      then WriteTable buffer visited
      else
        let buffer :=
          if bool_decide (String.length buffer ≠ 0%nat)
          then WriteString buffer ", " else buffer in
        WriteTable (Write buffer a) visited
  end.

(** The attributes [WriteTable] does not skip: those that are frozen or
    have a value. *)
Definition shown (a : Attr) : bool :=
  negb (negb (IsFrozen a) && bool_decide (Value a = "")).

Definition ranges_over (visited : list Attr) (t : gmap string Attr) : Prop :=
  visited ≡ₚ (map_to_list t).*2.

(** [t.MatchConstraint(constraint)], on the contents of the table.  A
    constraint is a map from keys to the values they must have; the loop
    returns false at the first key that does not match, so the order in
    which the constraint is ranged over does not show in the result. *)
Definition MatchConstraint (t : gmap string Attr)
  (constraint : gmap string string) : bool :=
  forallb
    (λ kv, bool_decide (Value (default zero (t !! kv.1)) = kv.2))
    (map_to_list constraint).

End attrmeta.

(** The result of a call: a value, an error, or a run-time panic. *)
Inductive result (A : Type) :=
| Ok (a : A)
| Err (e : rinq.error)
| Panic (msg : string).
Arguments Ok {A} a.
Arguments Err {A} e.
Arguments Panic {A} msg.

Definition is_ok {A} (r : result A) : bool :=
  match r with Ok _ => true | _ => false end.

(* ------------------------------------------------------------------------- *)
Module localsession.

Import attrmeta.

(** The [revision] handle of localsession: the ref it was taken at and
    the attribute snapshot it closes over. *)
Record revision := mkRevision {
  rev_ref : ident.Ref;
  rev_attrs : gmap string loc
}.

(** The [catalog] struct.  [done] is true once the done channel has been
    closed.  The mutex serialises the methods, each of which is modelled
    as one atomic transition; the logger plays no part. *)
Record catalog := mkCatalog {
  ref : ident.Ref;
  attrs : gmap string loc;
  seq : Z;
  done : bool
}.

Definition NewCatalog (id : ident.SessionID) : catalog :=
  mkCatalog (ident.At id 0) ∅ 0 false.

Definition Ref (c : catalog) : ident.Ref := ref c.

Definition NextMessageID (c : catalog)
  : catalog * (ident.MessageID * gmap string loc) :=
  let c := mkCatalog (ref c) (attrs c) (u32 (seq c + 1)) (done c) in
  (c, (ident.Message (ref c) (seq c), attrs c)).

Definition Head (c : catalog) : revision :=
  mkRevision (ref c) (attrs c).

Definition At (c : catalog) (rev : Z) : result revision :=
  if ident.Rev (ref c) <? rev
  then Err (rinq.OtherError "revision is from the future")
  else Ok (mkRevision (ident.At (ident.ID (ref c)) rev) (attrs c)).

Definition Attrs (c : catalog) : ident.Ref * gmap string loc :=
  (ref c, attrs c).

Definition AttrsIn (c : catalog) (ns : string) : ident.Ref * option loc :=
  (ref c, attrs c !! ns).

(** The variables the loop of [TryUpdate] works on: the heap (through
    which [nextAttrs] is written), [hasChanged] and the diff buffer
    ([None] when the caller passed nil). *)
Record loop_state := mkLoop {
  loop_heap : gmap loc (gmap string Attr);
  hasChanged : bool;
  loop_diff : option string
}.

(** One iteration of the loop over [attrs]; [inl] is the early return. *)
Definition update_attr (r : ident.Ref) (nextRev : Z) (nextAttrs : loc)
  (st : loop_state) (a : rinq.Attr) : rinq.error + loop_state :=
  let found := deref (loop_heap st) (Some nextAttrs) !! rinq.Key a in
  let entry := default zero found in
  if bool_decide (rinq.Value a = Value entry)
     && bool_decide (rinq.IsFrozen a = IsFrozen entry)
  then inr st
  else if IsFrozen entry then inl (rinq.FrozenAttributesError r)
  else
    let entry :=
      mkAttr a (match found with
                | Some _ => CreatedAt entry
                | None => nextRev
                end) nextRev in
    let h := store (loop_heap st) nextAttrs (rinq.Key a) entry in
    let diff :=
      match loop_diff st with
      | None => None
      | Some buffer =>
          let buffer :=
            if bool_decide (String.length buffer ≠ 0%nat)
            then WriteString buffer ", " else buffer in
          Some (WriteDiff buffer entry)
      end in
    inr (mkLoop h true diff).

(** The loop itself: the state it stopped in, and the error of an early
    return if there was one. *)
Fixpoint update_loop (r : ident.Ref) (nextRev : Z) (nextAttrs : loc)
  (st : loop_state) (l : list rinq.Attr) : loop_state * option rinq.error :=
  match l with
  | [] => (st, None)
  | a :: l =>
      match update_attr r nextRev nextAttrs st a with
      | inl e => (st, Some e)
      | inr st => update_loop r nextRev nextAttrs st l
      end
  end.

(** What a call of [TryUpdate] leaves behind: the heap, the catalog, the
    diff buffer and the returned values. *)
Record update_result := mkUpdateResult {
  res_heap : gmap loc (gmap string Attr);
  res_catalog : catalog;
  res_diff : option string;
  res_out : result revision
}.

Definition TryUpdate (h : gmap loc (gmap string Attr)) (c : catalog)
  (r : ident.Ref) (ns : string) (l : list rinq.Attr) (diff : option string)
  : update_result :=
  if done c then
    mkUpdateResult h c diff (Err (rinq.NotFoundError (ident.ID (ref c))))
  else if bool_decide (r ≠ ref c) then
    mkUpdateResult h c diff (Err (rinq.StaleUpdateError r))
  else
    let nextRev := u32 (ident.Rev r + 1) in
    let '(h, nextAttrs) := Clone h (attrs c !! ns) in
    match update_loop r nextRev nextAttrs (mkLoop h false diff) l with
    | (st, Some e) =>
        mkUpdateResult (loop_heap st) c (loop_diff st) (Err e)
    | (st, None) =>
        let c :=
          mkCatalog (ident.mkRef (ident.ID (ref c)) nextRev)
                    (attrs c) 0 (done c) in
        let c :=
          if hasChanged st
          then mkCatalog (ref c) (CloneAndReplace (attrs c) ns nextAttrs)
                         (seq c) (done c)
          else c in
        mkUpdateResult (loop_heap st) c (loop_diff st)
                       (Ok (mkRevision (ref c) (attrs c)))
    end.

Definition TryDestroy (c : catalog) (r : ident.Ref)
  : catalog * option rinq.error :=
  if bool_decide (r ≠ ref c) then (c, Some (rinq.StaleUpdateError r))
  else (mkCatalog (ref c) (attrs c) (seq c) true, None).

Definition Close (c : catalog) : catalog :=
  mkCatalog (ref c) (attrs c) (seq c) true.

Definition Done (c : catalog) : bool := done c.

(** The attributes a catalog holds in namespace [ns], read through the
    heap: what [AttrsIn] hands out. *)
Definition table_in (h : gmap loc (gmap string Attr)) (c : catalog)
  (ns : string) : gmap string Attr :=
  deref h (attrs c !! ns).

(** Sequential histories of calls on one catalog. *)
Inductive call :=
| CallNextMessageID
| CallTryUpdate (r : ident.Ref) (ns : string) (l : list rinq.Attr)
    (diff : option string)
| CallTryDestroy (r : ident.Ref)
| CallClose.

Definition state : Type := gmap loc (gmap string Attr) * catalog.

Definition perform (k : call) (s : state) : state :=
  match k with
  | CallNextMessageID => (s.1, (NextMessageID s.2).1)
  | CallTryUpdate r ns l diff =>
      let res := TryUpdate s.1 s.2 r ns l diff in
      (res_heap res, res_catalog res)
  | CallTryDestroy r => (s.1, (TryDestroy s.2 r).1)
  | CallClose => (s.1, Close s.2)
  end.

Definition run (ks : list call) (s : state) : state :=
  foldl (λ s k, perform k s) s ks.

(** A call that neither allocates a message ID nor is a [TryUpdate]
    returning a revision. *)
Definition quiet (k : call) (s : state) : bool :=
  match k with
  | CallNextMessageID => false
  | CallTryUpdate r ns l diff =>
      negb (is_ok (res_out (TryUpdate s.1 s.2 r ns l diff)))
  | _ => true
  end.

Fixpoint all_quiet (ks : list call) (s : state) : bool :=
  match ks with
  | [] => true
  | k :: ks => quiet k s && all_quiet ks (perform k s)
  end.

(** Every table the catalog refers to is an object of the heap: Go has no
    dangling references. *)
Definition wf_state (s : state) : Prop :=
  ∀ ns l0, attrs s.2 !! ns = Some l0 → l0 ∈ dom s.1.

(** The attribute as the loop of [TryUpdate] compares it with what is
    stored: equal value and equal frozen flag. *)
Definition same_as_stored (t : gmap string Attr) (a : rinq.Attr) : Prop :=
  let entry := default zero (t !! rinq.Key a) in
  rinq.Value a = Value entry ∧ rinq.IsFrozen a = IsFrozen entry.

(** ** Sessions

    The [session] struct and its methods.  A session refers to its catalog,
    which is kept here beside it; [sess_done] is true once the session's
    done channel has been closed.  Tracing and logging play no part in what
    the methods return or send and are left out, as is the mutex. *)
Record session := mkSession {
  sess_id : ident.SessionID;
  sess_catalog : catalog;
  sess_done : bool
}.

Section Session.

(** The type of notification constraints, and the collaborators that are
    declared outside the sources at hand: the validation of namespaces
    ([nsutil.Validate]) and of session IDs ([target.Validate]), and the
    text of a session ID. *)
Variable Constraint : Type.
Variable Validate : string → option rinq.error.
Variable ValidateSessionID : ident.SessionID → option rinq.error.
Variable SessionIDString : ident.SessionID → string.

(** What the invoker, the notifier and the listener answer to one request
    of a session.  Each answers with a trace ID or a flag, and an error
    ([None] for nil); payloads are byte strings, [None] for a nil
    payload. *)
Record services := mkServices {
  CallBalanced : ident.MessageID → string → string → option string
                 → string * option string * option rinq.error;
  CallBalancedAsync : ident.MessageID → string → string → option string
                      → string * option rinq.error;
  ExecuteBalanced : ident.MessageID → string → string → option string
                    → string * option rinq.error;
  NotifyUnicast : ident.MessageID → ident.SessionID → string → string
                  → option string → string * option rinq.error;
  NotifyMulticast : ident.MessageID → Constraint → string → string
                    → option string → string * option rinq.error;
  ListenerListen : ident.SessionID → string → bool * option rinq.error;
  ListenerUnlisten : ident.SessionID → string → bool * option rinq.error
}.

(** The requests a method has handed to the collaborators. *)
Inductive request :=
| ReqCallBalanced (m : ident.MessageID) (ns cmd : string) (p : option string)
| ReqCallBalancedAsync (m : ident.MessageID) (ns cmd : string)
    (p : option string)
| ReqExecuteBalanced (m : ident.MessageID) (ns cmd : string)
    (p : option string)
| ReqNotifyUnicast (m : ident.MessageID) (target : ident.SessionID)
    (ns t : string) (p : option string)
| ReqNotifyMulticast (m : ident.MessageID) (con : Constraint)
    (ns t : string) (p : option string)
| ReqSetAsyncHandler (i : ident.SessionID) (installed : bool)
| ReqListen (i : ident.SessionID) (ns : string)
| ReqUnlisten (i : ident.SessionID) (ns : string)
| ReqUnlistenAll (i : ident.SessionID).

(** [s.catalog.NextMessageID()], on the catalog of the session. *)
Definition allocate (s : session) : session * ident.MessageID :=
  let '(c, (msgID, _)) := NextMessageID (sess_catalog s) in
  (mkSession (sess_id s) c (sess_done s), msgID).

Definition CurrentRevision (s : session) : result revision :=
  if sess_done s then Err (rinq.NotFoundError (sess_id s))
  else Ok (Head (sess_catalog s)).

Definition Call (sv : services) (s : session) (ns cmd : string)
  (out : option string)
  : session * list request * (option string * option rinq.error) :=
  match Validate ns with
  | Some err => (s, [], (None, Some err))
  | None =>
      if sess_done s
      then (s, [], (None, Some (rinq.NotFoundError (sess_id s))))
      else
        let '(s, msgID) := allocate s in
        let '(_, in_, err) := CallBalanced sv msgID ns cmd out in
        (s, [ReqCallBalanced msgID ns cmd out], (in_, err))
  end.

(** The zero [MessageID], returned when no ID was allocated. *)
Definition zeroMessageID : ident.MessageID :=
  ident.mkMessageID
    (ident.mkRef (ident.mkSessionID (ident.mkPeerID 0 0) 0) 0) 0.

Definition CallAsync (sv : services) (s : session) (ns cmd : string)
  (out : option string)
  : session * list request * (ident.MessageID * option rinq.error) :=
  match Validate ns with
  | Some err => (s, [], (zeroMessageID, Some err))
  | None =>
      if sess_done s
      then (s, [], (zeroMessageID, Some (rinq.NotFoundError (sess_id s))))
      else
        let '(s, msgID) := allocate s in
        let '(_, err) := CallBalancedAsync sv msgID ns cmd out in
        (s, [ReqCallBalancedAsync msgID ns cmd out], (msgID, err))
  end.

(** [h] is the handler the caller passes; what is installed is a wrapper
    around it, never nil. *)
Definition SetAsyncHandler (s : session)
  : session * list request * option rinq.error :=
  if sess_done s then (s, [], Some (rinq.NotFoundError (sess_id s)))
  else (s, [ReqSetAsyncHandler (sess_id s) true], None).

Definition Execute (sv : services) (s : session) (ns cmd : string)
  (p : option string) : session * list request * option rinq.error :=
  match Validate ns with
  | Some err => (s, [], Some err)
  | None =>
      if sess_done s then (s, [], Some (rinq.NotFoundError (sess_id s)))
      else
        let '(s, msgID) := allocate s in
        let '(_, err) := ExecuteBalanced sv msgID ns cmd p in
        (s, [ReqExecuteBalanced msgID ns cmd p], err)
  end.

Definition Notify (sv : services) (s : session) (ns t : string)
  (target : ident.SessionID) (p : option string)
  : session * list request * option rinq.error :=
  if bool_decide (ValidateSessionID target ≠ None)
     || bool_decide (ident.SessSeq target = 0)
  then
    (s, [],
     Some (rinq.OtherError
             ("session ID " +:+ SessionIDString target +:+ " is invalid")))
  else
    match Validate ns with
    | Some err => (s, [], Some err)
    | None =>
        if sess_done s then (s, [], Some (rinq.NotFoundError (sess_id s)))
        else
          let '(s, msgID) := allocate s in
          let '(_, err) := NotifyUnicast sv msgID target ns t p in
          (s, [ReqNotifyUnicast msgID target ns t p], err)
    end.

Definition NotifyMany (sv : services) (s : session) (ns t : string)
  (con : Constraint) (p : option string)
  : session * list request * option rinq.error :=
  match Validate ns with
  | Some err => (s, [], Some err)
  | None =>
      if sess_done s then (s, [], Some (rinq.NotFoundError (sess_id s)))
      else
        let '(s, msgID) := allocate s in
        let '(_, err) := NotifyMulticast sv msgID con ns t p in
        (s, [ReqNotifyMulticast msgID con ns t p], err)
  end.

(** [hasHandler] is false when the caller passes a nil handler, which
    panics. *)
Definition Listen (sv : services) (s : session) (ns : string)
  (hasHandler : bool) : session * list request * result unit :=
  match Validate ns with
  | Some err => (s, [], Err err)
  | None =>
      if negb hasHandler then (s, [], Panic "handler must not be nil")
      else if sess_done s
      then (s, [], Err (rinq.NotFoundError (sess_id s)))
      else
        match ListenerListen sv (sess_id s) ns with
        | (_, Some err) => (s, [ReqListen (sess_id s) ns], Err err)
        | (_, None) => (s, [ReqListen (sess_id s) ns], Ok tt)
        end
  end.

Definition Unlisten (sv : services) (s : session) (ns : string)
  : session * list request * option rinq.error :=
  match Validate ns with
  | Some err => (s, [], Some err)
  | None =>
      if sess_done s then (s, [], Some (rinq.NotFoundError (sess_id s)))
      else
        match ListenerUnlisten sv (sess_id s) ns with
        | (_, err) => (s, [ReqUnlisten (sess_id s) ns], err)
        end
  end.

(** [s.destroy()]; [Destroy] adds a log line when it returns true. *)
Definition destroy (s : session) : session * list request * bool :=
  if sess_done s then (s, [], false)
  else
    (mkSession (sess_id s) (Close (sess_catalog s)) true,
     [ReqSetAsyncHandler (sess_id s) false; ReqUnlistenAll (sess_id s)],
     true).

End Session.

Arguments ReqCallBalanced {Constraint} m ns cmd p.
Arguments ReqCallBalancedAsync {Constraint} m ns cmd p.
Arguments ReqExecuteBalanced {Constraint} m ns cmd p.
Arguments ReqNotifyUnicast {Constraint} m target ns t p.
Arguments ReqNotifyMulticast {Constraint} m con ns t p.
Arguments ReqSetAsyncHandler {Constraint} i installed.
Arguments ReqListen {Constraint} i ns.
Arguments ReqUnlisten {Constraint} i ns.
Arguments ReqUnlistenAll {Constraint} i.

(** ** Invariants of the attribute tables *)

(** Every entry of a table is stored under its own key, and was created no
    later than it was last updated, which was no later than revision
    [rev]. *)
Definition table_ok (rev : Z) (t : gmap string Attr) : Prop :=
  ∀ k e, t !! k = Some e →
         Key e = k ∧ CreatedAt e ≤ UpdatedAt e ∧ UpdatedAt e ≤ rev.

Definition tables_ok (s : state) : Prop :=
  ∀ ns, table_ok (ident.Rev (ref s.2)) (table_in s.1 s.2 ns).

(** How an update to revision [nextRev] may turn table [t] into [t']:
    under every key the entry is as it was, or it was written by that
    update, which stamps it as updated at [nextRev] and as created when the
    key first got an entry. *)
Definition updated_at (nextRev : Z) (t t' : gmap string Attr) : Prop :=
  ∀ k, t' !! k = t !! k
       ∨ ∃ e', t' !! k = Some e' ∧ Key e' = k ∧ UpdatedAt e' = nextRev
               ∧ CreatedAt e' = from_option CreatedAt nextRev (t !! k).

End localsession.

(* ------------------------------------------------------------------------- *)
Module remotesession.

(** [cachedAttr{Attr, FetchedAt}]: the attribute as it was observed at
    revision [FetchedAt]. *)
Record cachedAttr := mkCachedAttr {
  Attr : attrmeta.Attr;
  FetchedAt : Z
}.

Definition zeroCached : cachedAttr := mkCachedAttr attrmeta.zero 0.

(** The remote procedure calls of the [client], which is not part of the
    sources at hand: each is a function of its arguments that yields the
    returned values, the error being [None] for Go's nil. *)
Record client := mkClient {
  client_Fetch : ident.SessionID → string → list string
                 → Z * list attrmeta.Attr * option rinq.error;
  client_Update : ident.Ref → string → list rinq.Attr
                  → Z * list attrmeta.Attr * option rinq.error;
  client_Close : ident.Ref → option rinq.error
}.

(** The requests a call has put on the wire. *)
Inductive rpc :=
| RpcFetch (id : ident.SessionID) (ns : string) (keys : list string)
| RpcUpdate (r : ident.Ref) (ns : string) (l : list rinq.Attr)
| RpcClose (r : ident.Ref).

(** The [catalog] struct.  [cache] is the [attrTableCache], a map from
    namespace to [attrNamespaceCache]; a namespace without an entry reads
    as the nil map.  The calls are modelled without interleaving: nothing
    else runs between the release of the read lock and the merge. *)
Record catalog := mkCatalog {
  id : ident.SessionID;
  highestRev : Z;
  cache : gmap string (gmap string cachedAttr);
  isClosed : bool
}.

Record revision := mkRevision { rev_ref : ident.Ref }.

Definition newCatalog (i : ident.SessionID) : catalog :=
  mkCatalog i 0 ∅ false.

Definition updateState (c : catalog) (rev : Z) (err : option rinq.error)
  : catalog :=
  match err with
  | Some e =>
      if rinq.IsNotFound e
      then mkCatalog (id c) (highestRev c) (cache c) true
      else c
  | None =>
      if highestRev c <? rev
      then mkCatalog (id c) rev (cache c) (isClosed c)
      else c
  end.

(** [cache[key]] with the comma-ok form, on a possibly nil map. *)
Definition lookup_ns (nsc : option (gmap string cachedAttr)) (key : string)
  : option cachedAttr :=
  nsc ≫= (.!! key).

(** The loop of [fetchLocal] over [keys]; the error is the early return
    on a stale key. *)
Fixpoint fetchLocal_loop (c : catalog) (rev : Z)
  (nsc : option (gmap string cachedAttr)) (keys : list string)
  (solved : list rinq.Attr) (unsolved : list string)
  : list rinq.Attr * list string * option rinq.error :=
  match keys with
  | [] => (solved, unsolved, None)
  | key :: keys =>
      match lookup_ns nsc key with
      | Some entry =>
          if rev <? attrmeta.CreatedAt (Attr entry) then
            fetchLocal_loop c rev nsc keys solved unsolved
          else if rev <? attrmeta.UpdatedAt (Attr entry) then
            (solved, unsolved,
             Some (rinq.StaleFetchError (ident.At (id c) rev)))
          else if attrmeta.IsFrozen (Attr entry) || (rev <=? FetchedAt entry)
          then
            fetchLocal_loop c rev nsc keys
              (solved ++ [attrmeta.attr (Attr entry)]) unsolved
          else
            fetchLocal_loop c rev nsc keys solved (unsolved ++ [key])
      | None =>
          fetchLocal_loop c rev nsc keys solved (unsolved ++ [key])
      end
  end.

Definition fetchLocal (c : catalog) (rev : Z) (ns : string)
  (keys : list string)
  : list rinq.Attr * list string * option rinq.error :=
  match fetchLocal_loop c rev (cache c !! ns) keys [] [] with
  | (solved, unsolved, Some e) => (solved, unsolved, Some e)
  | (solved, unsolved, None) =>
      if bool_decide (length unsolved ≠ 0%nat) && isClosed c
      then (solved, unsolved, Some (rinq.NotFoundError (id c)))
      else (solved, unsolved, None)
  end.

(** The variables of the merge loop of [Fetch]. *)
Record merge_state := mkMerge {
  merge_cache : option (gmap string cachedAttr);
  isStaleFetch : bool;
  solvedAttrs : list rinq.Attr
}.

Definition merge_attr (rev fetchedRev : Z) (st : merge_state)
  (a : attrmeta.Attr) : merge_state :=
  let entry := default zeroCached (lookup_ns (merge_cache st) (attrmeta.Key a)) in
  let nsc :=
    if FetchedAt entry <? fetchedRev
    then Some (<[attrmeta.Key a := mkCachedAttr a fetchedRev]>
                 (default ∅ (merge_cache st)))
    else merge_cache st in
  if isStaleFetch st then mkMerge nsc true (solvedAttrs st)
  else if rev <? attrmeta.CreatedAt a then
    mkMerge nsc false (solvedAttrs st)
  else if rev <? attrmeta.UpdatedAt a then
    mkMerge nsc true (solvedAttrs st)
  else mkMerge nsc false (solvedAttrs st ++ [attrmeta.attr a]).

Definition merge_loop (rev fetchedRev : Z) (st : merge_state)
  (l : list attrmeta.Attr) : merge_state :=
  foldl (merge_attr rev fetchedRev) st l.

Record fetch_result := mkFetchResult {
  fetch_catalog : catalog;
  fetch_rpcs : list rpc;
  fetch_out : result (list rinq.Attr)
}.

Definition Fetch (cl : client) (c : catalog) (rev : Z) (ns : string)
  (keys : list string) : fetch_result :=
  match fetchLocal c rev ns keys with
  | (_, _, Some e) => mkFetchResult c [] (Err e)
  | (solved, unsolved, None) =>
      if bool_decide (length unsolved = 0%nat)
      then mkFetchResult c [] (Ok solved)
      else
        let '(fetchedRev, fetchedAttrs, err) :=
          client_Fetch cl (id c) ns unsolved in
        let rpcs := [RpcFetch (id c) ns unsolved] in
        let c := updateState c fetchedRev err in
        match err with
        | Some e => mkFetchResult c rpcs (Err e)
        | None =>
            if bool_decide (length fetchedAttrs = 0%nat)
            then mkFetchResult c rpcs (Ok solved)
            else
              let st :=
                merge_loop rev fetchedRev
                  (mkMerge (cache c !! ns) false solved) fetchedAttrs in
              (* An existing namespace map was written in place; a map
                 allocated by the loop is installed. *)
              let c :=
                match merge_cache st with
                | Some nsc =>
                    mkCatalog (id c) (highestRev c)
                              (<[ns := nsc]> (cache c)) (isClosed c)
                | None => c
                end in
              if isStaleFetch st
              then mkFetchResult c rpcs
                     (Err (rinq.StaleFetchError (ident.At (id c) rev)))
              else mkFetchResult c rpcs (Ok (solvedAttrs st))
        end
  end.

(** The filtering loop of [TryUpdate]: the attributes to send, or the
    early return on a frozen attribute. *)
Fixpoint filter_loop (r : ident.Ref) (rev : Z)
  (nsc : option (gmap string cachedAttr)) (l : list rinq.Attr)
  (updateAttrs : list rinq.Attr) : rinq.error + list rinq.Attr :=
  match l with
  | [] => inr updateAttrs
  | a :: l =>
      match lookup_ns nsc (rinq.Key a) with
      | Some entry =>
          if attrmeta.IsFrozen (Attr entry) then
            if bool_decide (a = attrmeta.attr (Attr entry))
            then filter_loop r rev nsc l updateAttrs
            else inl (rinq.FrozenAttributesError r)
          else if bool_decide (FetchedAt entry = rev)
                  && bool_decide (a = attrmeta.attr (Attr entry))
          then filter_loop r rev nsc l updateAttrs
          else filter_loop r rev nsc l (updateAttrs ++ [a])
      | None => filter_loop r rev nsc l (updateAttrs ++ [a])
      end
  end.

(** The merge loop of [TryUpdate], on the map captured before the call:
    [None] is returned when an entry is assigned in the nil map, which
    panics. *)
Fixpoint update_merge_loop (updatedRev : Z)
  (nsc : option (gmap string cachedAttr)) (l : list attrmeta.Attr)
  : option (option (gmap string cachedAttr)) :=
  match l with
  | [] => Some nsc
  | a :: l =>
      let entry := default zeroCached (lookup_ns nsc (attrmeta.Key a)) in
      if FetchedAt entry <? updatedRev then
        match nsc with
        | None => None
        | Some m =>
            update_merge_loop updatedRev
              (Some (<[attrmeta.Key a := mkCachedAttr a updatedRev]> m)) l
        end
      else update_merge_loop updatedRev nsc l
  end.

Record update_result := mkUpdateResult {
  update_catalog : catalog;
  update_rpcs : list rpc;
  update_out : result revision
}.

Definition TryUpdate (cl : client) (c : catalog) (rev : Z) (ns : string)
  (l : list rinq.Attr) : update_result :=
  if isClosed c then
    mkUpdateResult c [] (Err (rinq.NotFoundError (id c)))
  else
    let r := ident.At (id c) rev in
    if rev <? highestRev c then
      mkUpdateResult c [] (Err (rinq.StaleUpdateError r))
    else
      let nsc := cache c !! ns in
      match filter_loop r rev nsc l [] with
      | inl e => mkUpdateResult c [] (Err e)
      | inr updateAttrs =>
          let '(updatedRev, returnedAttrs, err) :=
            client_Update cl r ns updateAttrs in
          let rpcs := [RpcUpdate r ns updateAttrs] in
          let c := updateState c updatedRev err in
          match err with
          | Some e => mkUpdateResult c rpcs (Err e)
          | None =>
              match update_merge_loop updatedRev nsc returnedAttrs with
              | None =>
                  mkUpdateResult c rpcs
                    (Panic "assignment to entry in nil map")
              | Some None =>
                  mkUpdateResult c rpcs
                    (Ok (mkRevision (ident.At (id c) (highestRev c))))
              | Some (Some m) =>
                  let c :=
                    mkCatalog (id c) (highestRev c)
                              (<[ns := m]> (cache c)) (isClosed c) in
                  mkUpdateResult c rpcs
                    (Ok (mkRevision (ident.At (id c) (highestRev c))))
              end
          end
      end.

(** The cache holds, for [key] in [ns], an entry that was created after
    revision [rev]. *)
Definition created_after (c : catalog) (rev : Z) (ns key : string) : bool :=
  match lookup_ns (cache c !! ns) key with
  | Some entry => rev <? attrmeta.CreatedAt (Attr entry)
  | None => false
  end.

Definition TryDestroy (cl : client) (c : catalog) (rev : Z)
  : catalog * list rpc * option rinq.error :=
  if isClosed c then (c, [], Some (rinq.NotFoundError (id c)))
  else
    let r := ident.At (id c) rev in
    if rev <? highestRev c then (c, [], Some (rinq.StaleUpdateError r))
    else
      match client_Close cl r with
      | Some e => (c, [RpcClose r], Some e)
      | None =>
          (mkCatalog (id c) (highestRev c) (cache c) true,
           [RpcClose r], None)
      end.

Record head_result := mkHeadResult {
  head_catalog : catalog;
  head_rpcs : list rpc;
  head_out : result revision
}.

Definition Head (cl : client) (c : catalog) : head_result :=
  if isClosed c then mkHeadResult c [] (Err (rinq.NotFoundError (id c)))
  else
    let '(rev, _, err) := client_Fetch cl (id c) "" [] in
    let rpcs := [RpcFetch (id c) "" []] in
    let c := updateState c rev err in
    match err with
    | Some e => mkHeadResult c rpcs (Err e)
    | None =>
        mkHeadResult c rpcs
          (Ok (mkRevision (ident.At (id c) (highestRev c))))
    end.

(** What [At] returns: a revision of this catalog, or the sentinel.
    Modelled from the spec: [revisionpkg.Closed(ref)], which is not part of
    the sources at hand, is the handle of a closed revision at [ref]. *)
Inductive handle :=
| Live (r : revision)
| ClosedRevision (r : ident.Ref).

Definition At (c : catalog) (rev : Z) : catalog * handle :=
  let r := ident.At (id c) rev in
  if isClosed c then (c, ClosedRevision r)
  else (updateState c rev None, Live (mkRevision r)).

(** Histories of calls on one remote catalog; every call comes with the
    answers the remote peer gives at that moment. *)
Inductive call :=
| CallHead
| CallAt (rev : Z)
| CallFetch (rev : Z) (ns : string) (keys : list string)
| CallTryUpdate (rev : Z) (ns : string) (l : list rinq.Attr)
| CallTryDestroy (rev : Z).

Definition perform (c : catalog) (k : client * call) : catalog :=
  match k.2 with
  | CallHead => head_catalog (Head k.1 c)
  | CallAt rev => (At c rev).1
  | CallFetch rev ns keys => fetch_catalog (Fetch k.1 c rev ns keys)
  | CallTryUpdate rev ns l => update_catalog (TryUpdate k.1 c rev ns l)
  | CallTryDestroy rev => (TryDestroy k.1 c rev).1.1
  end.

Definition run (ks : list (client * call)) (c : catalog) : catalog :=
  foldl perform c ks.

(** Every entry of the cache of [c] is still cached in [c'], either as it
    was or as fetched at a strictly later revision. *)
Definition cache_grows (c c' : catalog) : Prop :=
  ∀ ns key entry,
    lookup_ns (cache c !! ns) key = Some entry →
    ∃ entry',
      lookup_ns (cache c' !! ns) key = Some entry'
      ∧ (entry' = entry ∨ FetchedAt entry < FetchedAt entry').

(** ** The session server: the close command

    [server.close] of server.go, the receiving end of [client.Close].
    [args] is the outcome of decoding the payload; [sessions] is the
    store's [Get], which is not part of the sources at hand; the catalog
    found, as the call leaves it, is returned beside the response. *)
Record closeRequest := mkCloseRequest { close_Seq : Z; close_Rev : Z }.

Inductive response :=
| ResError (e : rinq.error)
| ResFail (failureType message : string)
| ResClose.

Definition server_close (notFoundFailure staleUpdateFailure : string)
  (peerID : ident.PeerID)
  (sessions : ident.SessionID → option localsession.catalog)
  (args : rinq.error + closeRequest)
  : option localsession.catalog * response :=
  match args with
  | inl err => (None, ResError err)
  | inr args =>
      let sessID := ident.mkSessionID peerID (close_Seq args) in
      match sessions sessID with
      | None => (None, ResFail notFoundFailure "")
      | Some cat =>
          let r := ident.At sessID (close_Rev args) in
          match localsession.TryDestroy cat r with
          | (cat, Some err) =>
              (Some cat,
               match err with
               | rinq.NotFoundError _ => ResFail notFoundFailure ""
               | rinq.StaleUpdateError _ => ResFail staleUpdateFailure ""
               | _ => ResError err
               end)
          | (cat, None) => (Some cat, ResClose)
          end
      end
  end.

End remotesession.

(* ------------------------------------------------------------------------- *)
Module commandamqp.

(** The fields of an [amqp.Delivery] that the server reads.
    [NamespaceHeader] is the outcome of the type assertion
    [msg.Headers[namespaceHeader].(string)]. *)
Record Delivery := mkDelivery {
  MessageId : string;
  Exchange : string;
  RoutingKey : string;
  NamespaceHeader : option string;
  Type_ : string;
  Body : string;
  ReplyTo : string
}.

(** What the server tells the broker about a delivery:
    [msg.Ack(multiple)] or [msg.Reject(requeue)]. *)
Inductive verdict :=
| Ack (multiple : bool)
| Reject (requeue : bool).

#[global] Instance verdict_eq_dec : EqDecision verdict.
Proof. solve_decision. Defined.

Section Server.

(** The revision handle of the sender, which the server only passes
    on. *)
Variable Revision : Type.

(** Collaborators and constants that are declared outside the sources
    at hand: the parser of message IDs, the revision store and the
    names of the three exchanges. *)
Variable ParseMessageID : string → option ident.MessageID.
Variable GetRevision : ident.Ref → rinq.error + Revision.
Variables balancedExchange multicastExchange unicastExchange : string.

Record Command := mkCommand {
  Source : Revision;
  Namespace : string;
  Command_ : string;
  Payload : string;
  IsMulticast : bool
}.

(** A command handler is run to completion; what the server looks at
    afterwards is whether the responder (created with [isRequired])
    has been closed. *)
Definition CommandHandler : Type := Command → bool → bool.

(** [s.handle(msgID, namespace, msg)]: the verdicts issued and the
    returned error.  A namespace without an entry in [handlers] reads
    as the nil handler. *)
Definition handle (handlers : gmap string CommandHandler)
  (msgID : ident.MessageID) (namespace : string) (msg : Delivery)
  : list verdict * option rinq.error :=
  match (handlers !! namespace : option CommandHandler) with
  | None => ([Reject true], None)
  | Some handler =>
      match GetRevision (ident.MsgRef msgID) with
      | inl err => ([], Some err)
      | inr source =>
          let cmd :=
            mkCommand source (RoutingKey msg) (Type_ msg) (Body msg)
              (bool_decide (Exchange msg = multicastExchange)) in
          let isRequired := bool_decide (ReplyTo msg ≠ "") in
          if handler cmd isRequired then ([Ack true], None)
          else if bool_decide (Exchange msg = balancedExchange)
          then ([Reject true], None)
          else ([Reject false], None)
      end
  end.

(** The namespace a delivery is resolved to by the switch of
    [dispatch], when there is one. *)
Definition resolve (msg : Delivery) : option string :=
  if bool_decide (Exchange msg = balancedExchange
                  ∨ Exchange msg = multicastExchange)
  then Some (RoutingKey msg)
  else if bool_decide (Exchange msg = unicastExchange)
  then NamespaceHeader msg
  else None.

(** [s.dispatch(msg)]: the verdicts issued for the delivery. *)
Definition dispatch (handlers : gmap string CommandHandler)
  (msg : Delivery) : list verdict :=
  match ParseMessageID (MessageId msg) with
  | None => [Reject false]
  | Some msgID =>
      let '(verdicts, err) :=
        if bool_decide (Exchange msg = balancedExchange
                        ∨ Exchange msg = multicastExchange)
        then handle handlers msgID (RoutingKey msg) msg
        else if bool_decide (Exchange msg = unicastExchange) then
          match NamespaceHeader msg with
          | Some namespace => handle handlers msgID namespace msg
          | None =>
              ([], Some (rinq.OtherError
                           "malformed request, namespace is not a string"))
          end
        else
          ([], Some (rinq.OtherError
                       "delivery via exchange is not expected")) in
      match err with
      | Some _ => verdicts ++ [Reject false]
      | None => verdicts
      end
  end.

End Server.

Arguments handle {Revision} GetRevision balancedExchange multicastExchange
  handlers msgID namespace msg.
Arguments dispatch {Revision} ParseMessageID GetRevision balancedExchange
  multicastExchange unicastExchange handlers msg.

(** ** Listening

    [Listen] and [Unlisten] change the handler map and talk to the broker
    through the server's channel. *)
Inductive channel_op :=
| OpQueueBind (queue key exchange : string)
| OpQueueUnbind (queue key exchange : string)
| OpQueuesGet (namespace : string)
| OpConsume (queue tag : string)
| OpCancel (tag : string).

(** What the channel (and the queue set) answer to the operations of one
    call; the error is [None] for nil. *)
Record channel := mkChannel {
  QueueBind : string → string → string → option rinq.error;
  QueueUnbind : string → string → string → option rinq.error;
  QueuesGet : string → rinq.error + string;
  Consume : string → string → option rinq.error;
  Cancel : string → option rinq.error
}.

Section Listening.

Variable Revision : Type.

(** Declared outside the sources at hand: the names of the queues and of
    the multicast exchange. *)
Variable requestQueue : ident.PeerID → string.
Variable balancedRequestQueue : string → string.
Variable multicastExchange : string.

(** [s.Listen(namespace, handler)], for a handler that is not nil: the
    handler map afterwards, the operations performed on the channel and
    the returned values. *)
Definition Listen (ch : channel) (peerID : ident.PeerID)
  (handlers : gmap string (CommandHandler Revision)) (namespace : string)
  (handler : CommandHandler Revision)
  : gmap string (CommandHandler Revision) * list channel_op
    * (bool * option rinq.error) :=
  match (handlers !! namespace : option (CommandHandler Revision)) with
  | Some _ => (<[namespace := handler]> handlers, [], (false, None))
  | None =>
      let bind :=
        OpQueueBind (requestQueue peerID) namespace multicastExchange in
      match QueueBind ch (requestQueue peerID) namespace multicastExchange with
      | Some err => (handlers, [bind], (false, Some err))
      | None =>
          match QueuesGet ch namespace with
          | inl err =>
              (handlers, [bind; OpQueuesGet namespace], (false, Some err))
          | inr queue =>
              let ops := [bind; OpQueuesGet namespace; OpConsume queue queue] in
              match Consume ch queue queue with
              | Some err => (handlers, ops, (false, Some err))
              | None => (<[namespace := handler]> handlers, ops, (true, None))
              end
          end
      end
  end.

(** [s.Unlisten(namespace)] *)
Definition Unlisten (ch : channel) (peerID : ident.PeerID)
  (handlers : gmap string (CommandHandler Revision)) (namespace : string)
  : gmap string (CommandHandler Revision) * list channel_op
    * (bool * option rinq.error) :=
  match (handlers !! namespace : option (CommandHandler Revision)) with
  | None => (handlers, [], (false, None))
  | Some _ =>
      let unbind :=
        OpQueueUnbind (requestQueue peerID) namespace multicastExchange in
      match QueueUnbind ch (requestQueue peerID) namespace multicastExchange
      with
      | Some err => (handlers, [unbind], (false, Some err))
      | None =>
          let ops := [unbind; OpCancel (balancedRequestQueue namespace)] in
          match Cancel ch (balancedRequestQueue namespace) with
          | Some err => (handlers, ops, (false, Some err))
          | None => (delete namespace handlers, ops, (true, None))
          end
      end
  end.

End Listening.

Arguments Listen {Revision} requestQueue multicastExchange ch peerID handlers
  namespace handler.
Arguments Unlisten {Revision} requestQueue balancedRequestQueue
  multicastExchange ch peerID handlers namespace.

End commandamqp.

(* ------------------------------------------------------------------------- *)
(** Concrete identifiers, catalogs and requests on which the results below
    are exercised.  The peer and session are those of the message-ID tests. *)
Module samples.

Import attrmeta.

Definition peer : ident.PeerID := ident.mkPeerID 81985529216486895 2989.
Definition sess : ident.SessionID := ident.mkSessionID peer 123.

(** A local catalog in which [k] has been frozen at revision 1. *)
Definition fresh_local : localsession.state :=
  (∅, localsession.NewCatalog sess).
Definition frozen_local : localsession.state :=
  localsession.run
    [localsession.CallTryUpdate (ident.At sess 0) "ns"
       [rinq.Freeze "k" "v1"; rinq.Set_ "b" "x"] None]
    fresh_local.

(** Local catalogs whose 32-bit counters are about to wrap. *)
Definition last_rev_local : localsession.catalog :=
  localsession.mkCatalog (ident.At sess u32_max) ∅ 0 false.
Definition last_seq_local : localsession.catalog :=
  localsession.mkCatalog (ident.At sess 0) ∅ (u32_max - 1) false.

(** A remote peer that answers every fetch at revision 1 with the
    attribute [key=v], created at revision 1, for each requested key, and
    accepts every update, reporting the attributes back as written at the
    new revision. *)
Definition remote_peer : remotesession.client :=
  remotesession.mkClient
    (λ _ _ keys, (1, map (λ key, mkAttr (rinq.Set_ key "v") 1 1) keys, None))
    (λ r _ l,
       (ident.Rev r + 1,
        map (λ a, mkAttr a (ident.Rev r + 1) (ident.Rev r + 1)) l, None))
    (λ _, None).

(** A remote peer on which the session no longer exists. *)
Definition gone_peer : remotesession.client :=
  remotesession.mkClient
    (λ i _ _, (0, [], Some (rinq.NotFoundError i)))
    (λ r _ _, (0, [], Some (rinq.NotFoundError (ident.ID r))))
    (λ r, Some (rinq.NotFoundError (ident.ID r))).

(** A remote catalog that has cached, in namespace [ns] and as of
    revision 10: [k], created at 3 and last updated at 10; [n], created at
    10; and the frozen [f], created at 2. *)
Definition cached_remote : remotesession.catalog :=
  remotesession.mkCatalog sess 10
    {[ "ns"%string :=
         {[ "k"%string :=
              remotesession.mkCachedAttr (mkAttr (rinq.Set_ "k" "v") 3 10) 10;
            "n"%string :=
              remotesession.mkCachedAttr (mkAttr (rinq.Set_ "n" "w") 10 10) 10;
            "f"%string :=
              remotesession.mkCachedAttr (mkAttr (rinq.Freeze "f" "x") 2 2) 10
         ]} ]}
    false.

(** The command server of a peer: the message ID of the message-ID tests
    is the one that parses, every session has a revision, and the three
    exchanges go by distinct names (the names themselves are declared
    outside the sources at hand and do not matter). *)
Definition message_id : ident.MessageID :=
  ident.Message (ident.At sess 456) 789.
Definition ParseMessageID (text : string) : option ident.MessageID :=
  if decide (text = "123456789ABCDEF-0BAD.123@456#789") then Some message_id
  else None.
Definition GetRevision (r : ident.Ref) : rinq.error + ident.Ref := inr r.
Definition balancedExchange : string := "balanced".
Definition multicastExchange : string := "multicast".
Definition unicastExchange : string := "unicast".

Definition server_dispatch
  (handlers : gmap string (commandamqp.CommandHandler ident.Ref))
  (msg : commandamqp.Delivery) : list commandamqp.verdict :=
  commandamqp.dispatch ParseMessageID GetRevision balancedExchange
    multicastExchange unicastExchange handlers msg.

(** A request for command [add] of namespace [math] that expects a reply,
    as delivered through the given exchange. *)
Definition request (exchange : string) : commandamqp.Delivery :=
  commandamqp.mkDelivery "123456789ABCDEF-0BAD.123@456#789" exchange "math"
    (if decide (exchange = unicastExchange) then Some "math"%string else None)
    "add" "1,2" "reply".

(** The queues of the command server (named outside the sources at hand),
    a broker that accepts every operation, and a handler that answers
    every request. *)
Definition requestQueue (_ : ident.PeerID) : string := "requests".
Definition balancedRequestQueue (ns : string) : string := "balanced." +:+ ns.
Definition broker : commandamqp.channel :=
  commandamqp.mkChannel (λ _ _ _, None) (λ _ _ _, None)
    (λ ns, inr (balancedRequestQueue ns)) (λ _ _, None) (λ _, None).
Definition answering : commandamqp.CommandHandler ident.Ref := λ _ _, true.

(** A table with a frozen attribute, a plain one and one that has been
    unset. *)
Definition table : gmap string Attr :=
  {[ "k"%string := mkAttr (rinq.Freeze "k" "v1") 1 1;
     "b"%string := mkAttr (rinq.Set_ "b" "x") 1 2;
     "u"%string := mkAttr (rinq.Set_ "u" "") 1 3 ]}.

(** A live session on the catalog above, a namespace rule that refuses the
    empty namespace, a session-ID rule that refuses a zero peer, and
    collaborators that accept every request. *)
Definition live_session : localsession.session :=
  localsession.mkSession sess frozen_local.2 false.
Definition validate_namespace (ns : string) : option rinq.error :=
  if decide (ns = "") then Some (rinq.OtherError "namespace must not be empty")
  else None.
Definition validate_session (i : ident.SessionID) : option rinq.error :=
  if decide (ident.Clock (ident.Peer i) = 0 ∨ ident.Rand (ident.Peer i) = 0)
  then Some (rinq.OtherError "peer ID is invalid")
  else None.
Definition accepting : localsession.services unit :=
  localsession.mkServices unit
    (λ _ _ _ _, ("trace"%string, Some "3"%string, None))
    (λ _ _ _ _, ("trace"%string, None))
    (λ _ _ _ _, ("trace"%string, None))
    (λ _ _ _ _ _, ("trace"%string, None))
    (λ _ _ _ _ _, ("trace"%string, None))
    (λ _ _, (true, None))
    (λ _ _, (true, None)).

End samples.

(* ========================================================================= *)
(** * Attribute rendering *)

Section Repr.

Import attrmeta.

Lemma append_assoc (s1 s2 s3 : string) :
  (s1 +:+ s2) +:+ s3 = s1 +:+ (s2 +:+ s3).
Proof.
  induction s1 as [| ch s1 IH]; [reflexivity |].
  change (String ch ((s1 +:+ s2) +:+ s3) = String ch (s1 +:+ (s2 +:+ s3))).
  now rewrite IH.
Qed.

Lemma Write_textual_form (buffer : string) (a : Attr) :
  Write buffer a = buffer +:+ textual_form a.
Proof.
  unfold Write, textual_form, WriteString.
  destruct (decide (Value a = "")) as [Hv | Hv].
  - rewrite bool_decide_eq_true_2 by exact Hv.
    destruct (IsFrozen a); now rewrite append_assoc.
  - rewrite bool_decide_eq_false_2 by exact Hv.
    destruct (IsFrozen a); now rewrite !append_assoc.
Qed.

Lemma WriteDiff_nonempty (buffer : string) (a : Attr) :
  Value a ≠ "" →
  WriteDiff buffer a =
    Write (if decide (CreatedAt a = UpdatedAt a)
           then buffer +:+ "+" else buffer) a.
Proof.
  intros Hv. unfold WriteDiff, Write, WriteString.
  destruct (decide (Value a = "")); [contradiction | reflexivity].
Qed.

Lemma textual_form_cases (a : Attr) :
  (Value a ≠ "" → IsFrozen a = false →
   textual_form a = Key a +:+ "=" +:+ Value a)
  ∧ (Value a ≠ "" → IsFrozen a = true →
     textual_form a = Key a +:+ "@" +:+ Value a)
  ∧ (Value a = "" → IsFrozen a = true → textual_form a = "!" +:+ Key a)
  ∧ (Value a = "" → IsFrozen a = false → textual_form a = "-" +:+ Key a).
Proof.
  unfold textual_form.
  repeat split; intros Hv ->;
    (rewrite bool_decide_eq_true_2 by exact Hv)
    || (rewrite bool_decide_eq_false_2 by exact Hv);
    reflexivity.
Qed.

(** C8, as the claim words it, fails for an attribute without a value:
    WriteDiff hands such an attribute to Write and returns, so nothing is
    prefixed even when createdAt = updatedAt. *)
Lemma WriteDiff_unset_without_plus :
  let a := mkAttr (rinq.Set_ "k" "") 1 1 in
  CreatedAt a = UpdatedAt a
  ∧ Write "" a = "-k"
  ∧ WriteDiff "" a = "-k"
  ∧ WriteDiff "" a ≠ "+" +:+ Write "" a.
Proof. repeat split; vm_compute; congruence. Qed.

(** C8 (amended): Write appends [key=value] for a non-frozen attribute
    with a value, [key@value] for a frozen one with a value, [!key] for a
    frozen one without a value and [-key] for a non-frozen one without a
    value.  For an attribute with a value and createdAt = updatedAt,
    WriteDiff appends [+] followed by that textual form; for an attribute
    without a value WriteDiff appends the textual form alone. *)
Theorem Write_and_WriteDiff_forms (buffer : string) (a : Attr) :
  (Value a ≠ "" → IsFrozen a = false →
   Write buffer a = buffer +:+ Key a +:+ "=" +:+ Value a)
  ∧ (Value a ≠ "" → IsFrozen a = true →
     Write buffer a = buffer +:+ Key a +:+ "@" +:+ Value a)
  ∧ (Value a = "" → IsFrozen a = true →
     Write buffer a = buffer +:+ "!" +:+ Key a)
  ∧ (Value a = "" → IsFrozen a = false →
     Write buffer a = buffer +:+ "-" +:+ Key a)
  ∧ (Value a ≠ "" → CreatedAt a = UpdatedAt a →
     WriteDiff buffer a = Write (buffer +:+ "+") a)
  ∧ (Value a = "" → WriteDiff buffer a = Write buffer a).
Proof.
  destruct (textual_form_cases a) as (Hset & Hfrozen & Hbang & Hunset).
  repeat split.
  - intros Hv Hf. now rewrite Write_textual_form, Hset.
  - intros Hv Hf. now rewrite Write_textual_form, Hfrozen.
  - intros Hv Hf. now rewrite Write_textual_form, Hbang.
  - intros Hv Hf. now rewrite Write_textual_form, Hunset.
  - intros Hv Heq. rewrite WriteDiff_nonempty by exact Hv.
    now destruct (decide (CreatedAt a = UpdatedAt a)).
  - intros Hv. unfold WriteDiff.
    now destruct (decide (Value a = "")).
Qed.

Lemma Write_and_WriteDiff_forms_witness :
  Write "" (mkAttr (rinq.Set_ "foo" "bar") 1 2) = "foo=bar"
  ∧ Write "" (mkAttr (rinq.Freeze "foo" "bar") 1 2) = "foo@bar"
  ∧ Write "" (mkAttr (rinq.Freeze "foo" "") 1 2) = "!foo"
  ∧ Write "" (mkAttr (rinq.Set_ "foo" "") 1 2) = "-foo"
  ∧ WriteDiff "b=y, " (mkAttr (rinq.Freeze "foo" "bar") 2 2)
    = Write "b=y, +" (mkAttr (rinq.Freeze "foo" "bar") 2 2)
  ∧ WriteDiff "b=y, " (mkAttr (rinq.Set_ "foo" "") 2 2) = "b=y, -foo".
Proof.
  assert (∀ v : string, v = "bar" → v ≠ "") as Hbar
    by (intros v -> Heq; discriminate Heq).
  destruct (Write_and_WriteDiff_forms ""
              (mkAttr (rinq.Set_ "foo" "bar") 1 2)) as (Hset & _).
  destruct (Write_and_WriteDiff_forms ""
              (mkAttr (rinq.Freeze "foo" "bar") 1 2)) as (_ & Hfrozen & _).
  destruct (Write_and_WriteDiff_forms ""
              (mkAttr (rinq.Freeze "foo" "") 1 2)) as (_ & _ & Hbang & _).
  destruct (Write_and_WriteDiff_forms ""
              (mkAttr (rinq.Set_ "foo" "") 1 2)) as (_ & _ & _ & Hunset & _).
  destruct (Write_and_WriteDiff_forms "b=y, "
              (mkAttr (rinq.Freeze "foo" "bar") 2 2))
    as (_ & _ & _ & _ & Hplus & _).
  destruct (Write_and_WriteDiff_forms "b=y, "
              (mkAttr (rinq.Set_ "foo" "") 2 2))
    as (_ & _ & _ & _ & _ & Hplain).
  split; [exact (Hset (Hbar _ eq_refl) eq_refl) |].
  split; [exact (Hfrozen (Hbar _ eq_refl) eq_refl) |].
  split; [exact (Hbang eq_refl eq_refl) |].
  split; [exact (Hunset eq_refl eq_refl) |].
  split; [exact (Hplus (Hbar _ eq_refl) eq_refl) |].
  exact (Hplain eq_refl).
Defined.

End Repr.

(* ========================================================================= *)
(** * The local catalog *)

Section LocalCatalog.

Import attrmeta localsession.

Implicit Types (h : gmap loc (gmap string Attr)) (c : catalog)
  (st : loop_state) (a : rinq.Attr) (r : ident.Ref).

(** ** Reading and writing table objects *)

Lemma deref_store h la k v :
  deref (store h la k v) (Some la) = <[k := v]> (deref h (Some la)).
Proof. unfold store, deref. simpl. now rewrite lookup_insert_eq. Qed.

Lemma lookup_store_ne h la k v l0 :
  l0 ≠ la → store h la k v !! l0 = h !! l0.
Proof. intros Hne. unfold store. now rewrite lookup_insert_ne. Qed.

Lemma Clone_fresh h t : (Clone h t).2 ∉ dom h.
Proof. unfold Clone. simpl. apply is_fresh. Qed.

Lemma deref_Clone h t : deref (Clone h t).1 (Some (Clone h t).2) = deref h t.
Proof. unfold Clone, deref. simpl. now rewrite lookup_insert_eq. Qed.

Lemma lookup_Clone_old h t l0 :
  l0 ∈ dom h → (Clone h t).1 !! l0 = h !! l0.
Proof.
  intros Hin. unfold Clone. simpl. apply lookup_insert_ne.
  intros <-. now apply (is_fresh (dom h)).
Qed.

(** ** One iteration of the update loop *)

Lemma update_attr_error r nextRev la st a e :
  update_attr r nextRev la st a = inl e →
  e = rinq.FrozenAttributesError r.
Proof.
  unfold update_attr.
  repeat case_match; intros Heq; now inversion Heq.
Qed.

Lemma update_attr_frame r nextRev la st a st' l0 :
  update_attr r nextRev la st a = inr st' →
  l0 ≠ la → loop_heap st' !! l0 = loop_heap st !! l0.
Proof.
  unfold update_attr. intros Heq Hne.
  repeat case_match; inversion Heq; subst; simpl;
    rewrite ?lookup_store_ne by assumption; reflexivity.
Qed.

Lemma update_attr_frozen_kept r nextRev la st a st' k e :
  update_attr r nextRev la st a = inr st' →
  deref (loop_heap st) (Some la) !! k = Some e →
  IsFrozen e = true →
  deref (loop_heap st') (Some la) !! k = Some e.
Proof.
  unfold update_attr. intros Heq Hk Hfrozen.
  destruct (decide (rinq.Key a = k)) as [<- | Hne].
  - rewrite Hk in Heq. simpl in Heq. rewrite Hfrozen in Heq.
    case_match; inversion Heq; now subst.
  - repeat case_match; inversion Heq; subst; simpl; try assumption;
      rewrite deref_store, lookup_insert_ne by assumption; assumption.
Qed.

Lemma update_attr_conflict r nextRev la st a e :
  deref (loop_heap st) (Some la) !! rinq.Key a = Some e →
  IsFrozen e = true →
  rinq.Value a ≠ Value e ∨ rinq.IsFrozen a = false →
  update_attr r nextRev la st a = inl (rinq.FrozenAttributesError r).
Proof.
  intros Hk Hfrozen Hdiff. unfold update_attr.
  rewrite Hk. simpl. rewrite Hfrozen.
  case_match eqn:Hsame; [| reflexivity].
  apply andb_true_iff in Hsame as [Hv Hf].
  apply bool_decide_eq_true in Hv. apply bool_decide_eq_true in Hf.
  destruct Hdiff; congruence.
Qed.

(** An iteration that finds the stored entry equal to the incoming
    attribute changes nothing. *)
Lemma update_attr_same r nextRev la st a e :
  deref (loop_heap st) (Some la) !! rinq.Key a = Some e →
  attr e = a →
  update_attr r nextRev la st a = inr st.
Proof.
  intros Hk <-. unfold update_attr. rewrite Hk. simpl.
  unfold Value, IsFrozen. now rewrite !bool_decide_eq_true_2.
Qed.

(** ** The update loop *)

Lemma update_loop_error r nextRev la st l st' e :
  update_loop r nextRev la st l = (st', Some e) →
  e = rinq.FrozenAttributesError r.
Proof.
  revert st. induction l as [| a l IH]; intros st; simpl.
  - intros Heq. inversion Heq.
  - destruct (update_attr r nextRev la st a) as [e0 | st0] eqn:Hstep.
    + intros Heq. inversion Heq; subst.
      eapply update_attr_error; eassumption.
    + apply IH.
Qed.

Lemma update_loop_frame r nextRev la st l st' oe l0 :
  update_loop r nextRev la st l = (st', oe) →
  l0 ≠ la → loop_heap st' !! l0 = loop_heap st !! l0.
Proof.
  revert st. induction l as [| a l IH]; intros st; simpl.
  - intros Heq _. now inversion Heq.
  - destruct (update_attr r nextRev la st a) as [e0 | st0] eqn:Hstep.
    + intros Heq _. now inversion Heq.
    + intros Heq Hne. rewrite (IH _ Heq Hne).
      eapply update_attr_frame; eassumption.
Qed.

Lemma update_loop_frozen_kept r nextRev la st l st' oe k e :
  update_loop r nextRev la st l = (st', oe) →
  deref (loop_heap st) (Some la) !! k = Some e →
  IsFrozen e = true →
  deref (loop_heap st') (Some la) !! k = Some e.
Proof.
  revert st. induction l as [| a l IH]; intros st; simpl.
  - intros Heq. now inversion Heq.
  - destruct (update_attr r nextRev la st a) as [e0 | st0] eqn:Hstep.
    + intros Heq. now inversion Heq.
    + intros Heq Hk Hfrozen. apply (IH _ Heq); [| assumption].
      eapply update_attr_frozen_kept; eassumption.
Qed.

Lemma update_loop_conflict r nextRev la st l a e :
  a ∈ l →
  deref (loop_heap st) (Some la) !! rinq.Key a = Some e →
  IsFrozen e = true →
  rinq.Value a ≠ Value e ∨ rinq.IsFrozen a = false →
  (update_loop r nextRev la st l).2 = Some (rinq.FrozenAttributesError r).
Proof.
  intros Hin Hk Hfrozen Hdiff. revert st Hk.
  induction l as [| a0 l IH]; intros st Hk; simpl.
  - now apply elem_of_nil in Hin.
  - destruct (update_attr r nextRev la st a0) as [e0 | st0] eqn:Hstep.
    + simpl. f_equal. eapply update_attr_error; eassumption.
    + apply elem_of_cons in Hin as [-> | Hin].
      * rewrite (update_attr_conflict r nextRev la st a0 e) in Hstep
          by assumption.
        discriminate.
      * apply IH; [assumption |].
        eapply update_attr_frozen_kept; eassumption.
Qed.

(** A loop that reports no change has not written to the heap. *)
Lemma update_loop_unchanged r nextRev la st l st' oe :
  update_loop r nextRev la st l = (st', oe) →
  hasChanged st' = false → st' = st.
Proof.
  revert st. induction l as [| a l IH]; intros st; simpl.
  - intros Heq _. now inversion Heq.
  - destruct (update_attr r nextRev la st a) as [e0 | st0] eqn:Hstep.
    + intros Heq _. now inversion Heq.
    + intros Heq Hunchanged.
      assert (st' = st0) as -> by (eapply IH; eassumption).
      revert Hstep. unfold update_attr.
      repeat case_match; intros Hstep; inversion Hstep; subst;
        (reflexivity || discriminate).
Qed.

(** The object the loop writes to stays allocated. *)
Lemma update_loop_alloc r nextRev la st l st' oe :
  update_loop r nextRev la st l = (st', oe) →
  is_Some (loop_heap st !! la) → is_Some (loop_heap st' !! la).
Proof.
  revert st. induction l as [| a l IH]; intros st; simpl.
  - intros Heq. now inversion Heq.
  - destruct (update_attr r nextRev la st a) as [e0 | st0] eqn:Hstep.
    + intros Heq. now inversion Heq.
    + intros Heq Hsome. apply (IH _ Heq).
      revert Hstep. unfold update_attr.
      repeat case_match; intros Hstep; inversion Hstep; subst;
        try assumption;
        simpl; unfold store; rewrite lookup_insert_eq; eauto.
Qed.

Lemma update_loop_noop r nextRev la st l :
  (∀ a, a ∈ l → same_as_stored (deref (loop_heap st) (Some la)) a) →
  update_loop r nextRev la st l = (st, None).
Proof.
  induction l as [| a l IH]; intros Hsame; simpl; [reflexivity |].
  assert (update_attr r nextRev la st a = inr st) as ->.
  { destruct (Hsame a) as [Hv Hf]; [apply elem_of_cons; now left |].
    unfold update_attr.
    now rewrite (bool_decide_eq_true_2 _ Hv), (bool_decide_eq_true_2 _ Hf). }
  apply IH. intros a' Hin. apply Hsame, elem_of_cons. now right.
Qed.

(** ** The shape of a call of TryUpdate *)

Lemma TryUpdate_cases h c r ns l diff :
  let res := TryUpdate h c r ns l diff in
  let la := (Clone h (attrs c !! ns)).2 in
  let h1 := (Clone h (attrs c !! ns)).1 in
  let nextRev := u32 (ident.Rev r + 1) in
  (done c = true ∧
   res = mkUpdateResult h c diff
           (Err (rinq.NotFoundError (ident.ID (ref c)))))
  ∨ (done c = false ∧ r ≠ ref c ∧
     res = mkUpdateResult h c diff (Err (rinq.StaleUpdateError r)))
  ∨ (done c = false ∧ r = ref c ∧ ∃ st,
       update_loop r nextRev la (mkLoop h1 false diff) l
         = (st, Some (rinq.FrozenAttributesError r)) ∧
       res = mkUpdateResult (loop_heap st) c (loop_diff st)
               (Err (rinq.FrozenAttributesError r)))
  ∨ (done c = false ∧ r = ref c ∧ ∃ st,
       update_loop r nextRev la (mkLoop h1 false diff) l = (st, None) ∧
       let c' :=
         mkCatalog (ident.mkRef (ident.ID (ref c)) nextRev)
           (if hasChanged st then CloneAndReplace (attrs c) ns la
            else attrs c)
           0 (done c) in
       res = mkUpdateResult (loop_heap st) c' (loop_diff st)
               (Ok (mkRevision (ref c') (attrs c')))).
Proof.
  intros res la h1 nextRev. subst res la h1 nextRev.
  unfold TryUpdate, Clone. cbn [fst snd].
  destruct (done c) eqn:Hdone; [left; split; reflexivity |].
  right. case_bool_decide as Href; [left; repeat split; assumption |].
  right.
  destruct (update_loop _ _ _ _ l) as [st [e |]] eqn:Hloop.
  - left. repeat split; [assumption |].
    pose proof (update_loop_error _ _ _ _ _ _ _ Hloop) as ->.
    exists st; split; reflexivity.
  - right. repeat split; [assumption |].
    exists st. split; [reflexivity |].
    simpl. now destruct (hasChanged st).
Qed.

(** What a call that returns a revision has done to the catalog. *)
Lemma TryUpdate_ok_inv h c r ns l diff rv :
  res_out (TryUpdate h c r ns l diff) = Ok rv →
  r = ref c
  ∧ rev_ref rv = ident.mkRef (ident.ID r) (u32 (ident.Rev r + 1))
  ∧ ref (res_catalog (TryUpdate h c r ns l diff)) = rev_ref rv
  ∧ seq (res_catalog (TryUpdate h c r ns l diff)) = 0.
Proof.
  intros Hok.
  destruct (TryUpdate_cases h c r ns l diff)
    as [[_ Hres] | [(_ & _ & Hres) | [(_ & _ & st & _ & Hres)
                                     | (_ & Href & st & _ & Hres)]]];
    rewrite Hres in Hok |- *; simpl in Hok; try discriminate.
  inversion Hok; subst rv; clear Hok. simpl.
  rewrite <- Href. repeat split; reflexivity.
Qed.

(** Table objects that exist before a call are not written by it. *)
Lemma TryUpdate_heap_old h c r ns l diff l0 :
  l0 ∈ dom h → res_heap (TryUpdate h c r ns l diff) !! l0 = h !! l0.
Proof.
  intros Hin.
  assert (l0 ≠ (Clone h (attrs c !! ns)).2) as Hne.
  { intros ->. now apply (Clone_fresh h (attrs c !! ns)). }
  destruct (TryUpdate_cases h c r ns l diff)
    as [[_ ->] | [(_ & _ & ->) | [(_ & _ & st & Hloop & ->)
                                 | (_ & _ & st & Hloop & ->)]]];
    simpl; try reflexivity;
    rewrite (update_loop_frame _ _ _ _ _ _ _ _ Hloop Hne); simpl;
    now apply lookup_Clone_old.
Qed.

Lemma TryUpdate_heap_dom h c r ns l diff l0 :
  l0 ∈ dom h → l0 ∈ dom (res_heap (TryUpdate h c r ns l diff)).
Proof.
  intros Hin. apply elem_of_dom.
  rewrite TryUpdate_heap_old by assumption. now apply elem_of_dom.
Qed.

(** A failing call returns one of the three domain errors and leaves the
    catalog as it was. *)
Lemma TryUpdate_failure h c r ns l diff :
  ¬ (∃ rv, res_out (TryUpdate h c r ns l diff) = Ok rv) →
  res_catalog (TryUpdate h c r ns l diff) = c ∧
  (res_out (TryUpdate h c r ns l diff)
     = Err (rinq.NotFoundError (ident.ID (ref c)))
   ∨ res_out (TryUpdate h c r ns l diff) = Err (rinq.StaleUpdateError r)
   ∨ res_out (TryUpdate h c r ns l diff)
       = Err (rinq.FrozenAttributesError r)).
Proof.
  intros Hfail.
  destruct (TryUpdate_cases h c r ns l diff)
    as [[_ Hres] | [(_ & _ & Hres) | [(_ & _ & st & _ & Hres)
                                     | (_ & _ & st & _ & Hres)]]];
    rewrite Hres in *; simpl in *; auto.
  exfalso. apply Hfail. eexists. reflexivity.
Qed.

End LocalCatalog.

(** ** Revisions and message IDs *)

Section LocalRevisions.

Import attrmeta localsession.

Implicit Types (h : gmap loc (gmap string Attr)) (c : catalog)
  (r : ident.Ref).

Lemma u32_succ (z : Z) : 0 ≤ z < u32_max → u32 (z + 1) = z + 1.
Proof. unfold u32, u32_max. intros Hz. apply Z.mod_small. lia. Qed.

(** C1, as the claim words it, fails where the 32-bit revision wraps: the
    update of a catalog at revision 2^32 - 1 succeeds and returns
    revision 0, which is neither rev + 1 nor greater than rev. *)
Lemma local_TryUpdate_rev_wraps :
  let c := samples.last_rev_local in
  ∃ rv,
    res_out (TryUpdate ∅ c (ref c) "ns" [] None) = Ok rv
    ∧ ident.Rev (rev_ref rv) = 0
    ∧ ident.Rev (rev_ref rv) ≠ ident.Rev (ref c) + 1
    ∧ ¬ ident.Rev (ref c) < ident.Rev (rev_ref rv).
Proof.
  exists (mkRevision (ident.At samples.sess 0) ∅).
  repeat split; vm_compute; congruence.
Qed.

(** C1 (amended): every call of TryUpdate that returns a revision was made
    with the current ref and returns that ref with its revision
    incremented modulo 2^32, hence strictly greater than the revision
    passed in unless that was 2^32 - 1; the catalog is left at the
    returned ref with seq = 0.  A call on an open catalog with the current
    ref in which no attribute differs from what is stored returns such a
    revision too, and leaves the attribute table in place. *)
Theorem local_TryUpdate_next_revision h c ns (l : list rinq.Attr) diff :
  (∀ r rv,
     res_out (TryUpdate h c r ns l diff) = Ok rv →
     r = ref c
     ∧ rev_ref rv = ident.mkRef (ident.ID r) (u32 (ident.Rev r + 1))
     ∧ (0 ≤ ident.Rev r < u32_max →
        ident.Rev (rev_ref rv) = ident.Rev r + 1
        ∧ ident.Rev r < ident.Rev (rev_ref rv))
     ∧ ref (res_catalog (TryUpdate h c r ns l diff)) = rev_ref rv
     ∧ seq (res_catalog (TryUpdate h c r ns l diff)) = 0)
  ∧ (done c = false →
     (∀ a, a ∈ l → same_as_stored (table_in h c ns) a) →
     let next := ident.mkRef (ident.ID (ref c))
                   (u32 (ident.Rev (ref c) + 1)) in
     res_out (TryUpdate h c (ref c) ns l diff)
       = Ok (mkRevision next (attrs c))
     ∧ res_catalog (TryUpdate h c (ref c) ns l diff)
       = mkCatalog next (attrs c) 0 false).
Proof.
  split.
  - intros r rv Hok.
    destruct (TryUpdate_ok_inv _ _ _ _ _ _ _ Hok) as (Hr & Hrv & Href & Hseq).
    repeat split; try assumption; rewrite Hrv; simpl.
    + now apply u32_succ.
    + rewrite u32_succ by assumption. lia.
  - intros Hopen Hsame next.
    destruct (TryUpdate_cases h c (ref c) ns l diff)
      as [[Hdone _] | [(_ & Hne & _) | [(_ & _ & st & Hloop & _)
                                       | (_ & _ & st & Hloop & Hres)]]];
      try congruence;
      rewrite update_loop_noop in Hloop
        by (cbn [loop_heap]; rewrite deref_Clone; exact Hsame);
      inversion Hloop; subst st; clear Hloop.
    rewrite Hres. simpl. rewrite Hopen. split; reflexivity.
Qed.

Lemma local_TryUpdate_next_revision_witness :
  let s := samples.frozen_local in
  let res := TryUpdate s.1 s.2 (ident.At samples.sess 1) "ns"
               [rinq.Set_ "b" "x"] None in
  ref (res_catalog res) = ident.At samples.sess 2
  ∧ seq (res_catalog res) = 0
  ∧ attrs (res_catalog res) = attrs s.2.
Proof.
  intros s res.
  pose proof (local_TryUpdate_next_revision s.1 s.2 "ns"
                [rinq.Set_ "b" "x"] None) as [Hany Hnoop].
  assert (done s.2 = false) as Hopen by (vm_compute; reflexivity).
  assert (∀ a, a ∈ [rinq.Set_ "b" "x"] →
               same_as_stored (table_in s.1 s.2 "ns") a) as Hsame.
  { intros a Hin. apply list_elem_of_singleton in Hin as ->.
    vm_compute. split; reflexivity. }
  destruct (Hnoop Hopen Hsame) as [Hout Hcat].
  destruct (Hany (ident.At samples.sess 1) _ Hout) as (_ & _ & _ & Href & Hseq).
  split; [exact Href |]. split; [exact Hseq |].
  change (attrs (res_catalog (TryUpdate s.1 s.2 (ref s.2) "ns"
                                [rinq.Set_ "b" "x"] None)) = attrs s.2).
  now rewrite Hcat.
Defined.

(** C5: TryUpdate on a closed catalog fails with NotFound whatever the
    ref; on an open catalog it fails with StaleUpdate whenever the ref
    differs from the current one; and a call that fails, with any error,
    returns no revision and leaves the catalog, its ref included, as it
    was. *)
Theorem local_TryUpdate_rejects h c r ns (l : list rinq.Attr) diff :
  let res := TryUpdate h c r ns l diff in
  (done c = true →
   res_out res = Err (rinq.NotFoundError (ident.ID (ref c))))
  ∧ (done c = false → r ≠ ref c →
     res_out res = Err (rinq.StaleUpdateError r))
  ∧ (∀ e, res_out res = Err e →
     res_catalog res = c ∧ ref (res_catalog res) = ref c).
Proof.
  intros res. subst res.
  destruct (TryUpdate_cases h c r ns l diff)
    as [[Hdone Hres] | [(Hdone & Hne & Hres)
                       | [(Hdone & Href & st & _ & Hres)
                         | (Hdone & Href & st & _ & Hres)]]];
    rewrite Hres; simpl; repeat split;
    try congruence; try reflexivity;
    intros; congruence.
Qed.

Lemma local_TryUpdate_rejects_witness :
  let s := samples.frozen_local in
  res_out (TryUpdate s.1 (Close s.2) (ident.At samples.sess 0) "ns" [] None)
    = Err (rinq.NotFoundError samples.sess)
  ∧ res_out (TryUpdate s.1 s.2 (ident.At samples.sess 0) "ns" [] None)
    = Err (rinq.StaleUpdateError (ident.At samples.sess 0))
  ∧ res_catalog (TryUpdate s.1 s.2 (ident.At samples.sess 0) "ns" [] None)
    = s.2.
Proof.
  intros s.
  destruct (local_TryUpdate_rejects s.1 (Close s.2)
              (ident.At samples.sess 0) "ns" [] None) as (Hclosed & _ & _).
  destruct (local_TryUpdate_rejects s.1 s.2
              (ident.At samples.sess 0) "ns" [] None) as (_ & Hstale & Hsame).
  split; [apply Hclosed; vm_compute; reflexivity |].
  assert (res_out (TryUpdate s.1 s.2 (ident.At samples.sess 0) "ns" [] None)
          = Err (rinq.StaleUpdateError (ident.At samples.sess 0))) as Herr.
  { apply Hstale; [vm_compute; reflexivity |].
    vm_compute. intros Heq. discriminate Heq. }
  split; [exact Herr |]. exact (proj1 (Hsame _ Herr)).
Defined.

End LocalRevisions.

(** ** Failed updates and frozen attributes *)

Section LocalAtomicity.

Import attrmeta localsession.

Implicit Types (h : gmap loc (gmap string Attr)) (c : catalog)
  (r : ident.Ref) (s : state).

(** A table reached through an unchanged reference to an existing object
    reads the same after a call. *)
Lemma TryUpdate_table_old h c r ns (l : list rinq.Attr) diff ns' l0 :
  attrs c !! ns' = Some l0 → l0 ∈ dom h →
  attrs (res_catalog (TryUpdate h c r ns l diff)) !! ns' = Some l0 →
  table_in (res_heap (TryUpdate h c r ns l diff))
           (res_catalog (TryUpdate h c r ns l diff)) ns'
  = table_in h c ns'.
Proof.
  intros Hold Hin Hnew. unfold table_in, deref.
  rewrite Hold, Hnew. simpl.
  now rewrite TryUpdate_heap_old.
Qed.

(** Well-formedness is an invariant of every call. *)
Lemma wf_state_initial (i : ident.SessionID) : wf_state (∅, NewCatalog i).
Proof. intros ns l0. simpl. now rewrite lookup_empty. Qed.

Lemma wf_state_TryUpdate h c r ns (l : list rinq.Attr) diff :
  wf_state (h, c) →
  wf_state (res_heap (TryUpdate h c r ns l diff),
            res_catalog (TryUpdate h c r ns l diff)).
Proof.
  intros Hwf ns' l0. simpl.
  destruct (TryUpdate_cases h c r ns l diff)
    as [[_ Hres] | [(_ & _ & Hres) | [(_ & _ & st & Hloop & Hres)
                                     | (_ & _ & st & Hloop & Hres)]]].
  - rewrite Hres. simpl. apply (Hwf ns' l0).
  - rewrite Hres. simpl. apply (Hwf ns' l0).
  - intros Hl0. apply TryUpdate_heap_dom. apply (Hwf ns' l0).
    rewrite Hres in Hl0. exact Hl0.
  - intros Hl0.
    assert (attrs c !! ns' = Some l0
            ∨ l0 = (Clone h (attrs c !! ns)).2) as [Hold | ->].
    { rewrite Hres in Hl0. simpl in Hl0.
      destruct (hasChanged st); [| now left].
      unfold CloneAndReplace in Hl0.
      apply lookup_insert_Some in Hl0 as [[_ <-] | [_ Hold]]; auto. }
    + apply TryUpdate_heap_dom. apply (Hwf ns' l0 Hold).
    + rewrite Hres. simpl. apply elem_of_dom.
      apply (update_loop_alloc _ _ _ _ _ _ _ Hloop). simpl.
      unfold Clone. simpl. rewrite lookup_insert_eq. eauto.
Qed.

Lemma wf_state_perform (k : call) s : wf_state s → wf_state (perform k s).
Proof.
  destruct s as [h c]. intros Hwf.
  destruct k as [| r ns l diff | r |]; simpl.
  - exact Hwf.
  - now apply wf_state_TryUpdate.
  - unfold TryDestroy. case_bool_decide; exact Hwf.
  - exact Hwf.
Qed.

Lemma wf_state_run (ks : list call) s : wf_state s → wf_state (run ks s).
Proof.
  revert s. induction ks as [| k ks IH]; intros s Hwf; [exact Hwf |].
  apply IH, wf_state_perform, Hwf.
Qed.

(** Snapshots are immutable: a table object, once it exists, reads the
    same after every history of calls. *)
Lemma snapshot_stable (ks : list call) s l0 :
  l0 ∈ dom s.1 → (run ks s).1 !! l0 = s.1 !! l0.
Proof.
  revert s. induction ks as [| k ks IH]; intros s Hin; [reflexivity |].
  assert ((perform k s).1 !! l0 = s.1 !! l0) as Hstep.
  { destruct s as [h c]. destruct k as [| r ns l diff | r |]; simpl;
      try reflexivity.
    now apply TryUpdate_heap_old. }
  simpl. rewrite IH; [exact Hstep |].
  apply elem_of_dom. rewrite Hstep. now apply elem_of_dom.
Qed.

(** C9: whenever TryUpdate returns an error, which is then NotFound,
    StaleUpdate or FrozenAttributes, the catalog (its ref, seq and
    closed flag, and the references to its tables) is exactly as before,
    no table object that existed before the call has been written, and
    every namespace reads as before: the loop only ever writes to the
    clone. *)
Theorem local_TryUpdate_failure_atomic h c r ns (l : list rinq.Attr) diff e :
  wf_state (h, c) →
  res_out (TryUpdate h c r ns l diff) = Err e →
  let res := TryUpdate h c r ns l diff in
  (e = rinq.NotFoundError (ident.ID (ref c))
   ∨ e = rinq.StaleUpdateError r
   ∨ e = rinq.FrozenAttributesError r)
  ∧ res_catalog res = c
  ∧ (∀ l0, l0 ∈ dom h → res_heap res !! l0 = h !! l0)
  ∧ (∀ ns', table_in (res_heap res) (res_catalog res) ns'
            = table_in h c ns').
Proof.
  intros Hwf Herr res. subst res.
  destruct (TryUpdate_failure h c r ns l diff) as [Hcat Hkind].
  { intros [rv Hok]. congruence. }
  split; [rewrite Herr in Hkind; intuition congruence |].
  split; [exact Hcat |].
  split; [intros l0 Hin; now apply TryUpdate_heap_old |].
  intros ns'. destruct (attrs c !! ns') as [l0 |] eqn:Hl0.
  - apply (TryUpdate_table_old _ _ _ _ _ _ _ l0);
      [assumption | eapply (Hwf ns' l0); eassumption
      | rewrite Hcat; assumption].
  - unfold table_in. rewrite Hcat, Hl0. reflexivity.
Qed.

Lemma local_TryUpdate_failure_atomic_witness :
  let s := samples.frozen_local in
  let res := TryUpdate s.1 s.2 (ident.At samples.sess 1) "ns"
               [rinq.Set_ "b" "y"; rinq.Set_ "k" "v2"] (Some ""%string) in
  res_out res = Err (rinq.FrozenAttributesError (ident.At samples.sess 1))
  ∧ res_diff res = Some "b=y"%string
  ∧ res_catalog res = s.2
  ∧ table_in (res_heap res) (res_catalog res) "ns" = table_in s.1 s.2 "ns".
Proof.
  intros s res.
  assert (res_out res
          = Err (rinq.FrozenAttributesError (ident.At samples.sess 1)))
    as Herr by (vm_compute; reflexivity).
  assert (wf_state (s.1, s.2)) as Hwf.
  { apply (wf_state_run _ samples.fresh_local), wf_state_initial. }
  destruct (local_TryUpdate_failure_atomic s.1 s.2 (ident.At samples.sess 1)
              "ns" [rinq.Set_ "b" "y"; rinq.Set_ "k" "v2"] (Some ""%string)
              _ Hwf Herr) as (_ & Hcat & _ & Htable).
  split; [exact Herr |]. split; [vm_compute; reflexivity |].
  split; [exact Hcat | exact (Htable "ns")].
Defined.

End LocalAtomicity.

Section LocalFrozen.

Import attrmeta localsession.

Implicit Types (h : gmap loc (gmap string Attr)) (c : catalog)
  (r : ident.Ref) (s : state).

(** A frozen entry is still stored, unchanged, after any call of
    TryUpdate, whether it fails or returns a revision. *)
Lemma TryUpdate_frozen_kept h c r ns' (l : list rinq.Attr) diff ns k e :
  table_in h c ns !! k = Some e →
  IsFrozen e = true →
  table_in (res_heap (TryUpdate h c r ns' l diff))
           (res_catalog (TryUpdate h c r ns' l diff)) ns !! k = Some e.
Proof.
  intros Hk Hfrozen.
  destruct (attrs c !! ns) as [l0 |] eqn:Hl0;
    [| unfold table_in, deref in Hk; rewrite Hl0 in Hk; simpl in Hk;
       now rewrite lookup_empty in Hk].
  assert (l0 ∈ dom h) as Hin.
  { apply elem_of_dom. unfold table_in, deref in Hk. rewrite Hl0 in Hk.
    simpl in Hk. destruct (h !! l0); [eauto |].
    simpl in Hk. now rewrite lookup_empty in Hk. }
  destruct (decide (attrs (res_catalog (TryUpdate h c r ns' l diff)) !! ns
                    = Some l0)) as [Hsame | Hdiff].
  { now rewrite (TryUpdate_table_old _ _ _ _ _ _ _ l0). }
  destruct (TryUpdate_cases h c r ns' l diff)
    as [[_ Hres] | [(_ & _ & Hres) | [(_ & _ & st & Hloop & Hres)
                                     | (_ & _ & st & Hloop & Hres)]]];
    rewrite Hres in Hdiff |- *; simpl in Hdiff; try contradiction.
  destruct (hasChanged st); [| contradiction].
  unfold CloneAndReplace in Hdiff.
  destruct (decide (ns' = ns)) as [-> | Hne];
    [| now rewrite lookup_insert_ne in Hdiff by assumption].
  unfold table_in. simpl. unfold CloneAndReplace.
  rewrite lookup_insert_eq.
  apply (update_loop_frozen_kept _ _ _ _ _ _ _ _ _ Hloop);
    [| assumption].
  cbn [loop_heap]. rewrite deref_Clone. exact Hk.
Qed.

Lemma perform_frozen_kept (k0 : call) s ns k e :
  table_in s.1 s.2 ns !! k = Some e →
  IsFrozen e = true →
  table_in (perform k0 s).1 (perform k0 s).2 ns !! k = Some e.
Proof.
  destruct s as [h c]. intros Hk Hfrozen.
  destruct k0 as [| r ns' l diff | r |]; simpl.
  - exact Hk.
  - now apply TryUpdate_frozen_kept.
  - unfold TryDestroy. case_bool_decide; exact Hk.
  - exact Hk.
Qed.

(** C2: once a frozen entry is stored for a key of a namespace, it is
    stored unchanged (same value, still frozen, same revisions) after
    every history of calls on the catalog; and a TryUpdate in that
    namespace whose attributes include one for that key with another
    value or without the frozen flag never returns a revision: made on
    the open catalog with the current ref, it fails with
    FrozenAttributes. *)
Theorem local_frozen_immutable s ns k e :
  table_in s.1 s.2 ns !! k = Some e →
  IsFrozen e = true →
  (∀ ks, table_in (run ks s).1 (run ks s).2 ns !! k = Some e)
  ∧ (∀ r (l : list rinq.Attr) diff a,
       a ∈ l → rinq.Key a = k →
       rinq.Value a ≠ Value e ∨ rinq.IsFrozen a = false →
       is_ok (res_out (TryUpdate s.1 s.2 r ns l diff)) = false
       ∧ (done s.2 = false → r = ref s.2 →
          res_out (TryUpdate s.1 s.2 r ns l diff)
            = Err (rinq.FrozenAttributesError r))).
Proof.
  intros Hk Hfrozen. split.
  - intros ks. revert s Hk.
    induction ks as [| k0 ks IH]; intros s Hk; [exact Hk |].
    apply IH. now apply perform_frozen_kept.
  - intros r l diff a Hin <- Hdiff. destruct s as [h c]. simpl in *.
    pose proof (update_loop_conflict r (u32 (ident.Rev r + 1))
                  (Clone h (attrs c !! ns)).2
                  (mkLoop (Clone h (attrs c !! ns)).1 false diff)
                  l a e Hin) as Hconflict.
    cbn [loop_heap] in Hconflict. rewrite deref_Clone in Hconflict.
    specialize (Hconflict Hk Hfrozen Hdiff).
    destruct (TryUpdate_cases h c r ns l diff)
      as [[Hdone Hres] | [(Hdone & Hne & Hres)
                         | [(Hdone & Href & st & Hloop & Hres)
                           | (Hdone & Href & st & Hloop & Hres)]]];
      rewrite Hres; simpl; split; try reflexivity; try congruence.
    + rewrite Hloop in Hconflict. discriminate.
    + rewrite Hloop in Hconflict. discriminate.
Qed.

Lemma local_frozen_immutable_witness :
  let s := samples.frozen_local in
  let e := mkAttr (rinq.Freeze "k" "v1") 1 1 in
  let ks := [CallTryUpdate (ident.At samples.sess 1) "ns"
               [rinq.Set_ "b" "y"] None;
             CallNextMessageID;
             CallTryUpdate (ident.At samples.sess 2) "ns"
               [rinq.Set_ "k" "v2"] None;
             CallTryUpdate (ident.At samples.sess 2) "other"
               [rinq.Set_ "k" "v2"] None] in
  ident.Rev (ref (run ks s).2) = 3
  ∧ table_in (run ks s).1 (run ks s).2 "ns" !! "k" = Some e
  ∧ res_out (TryUpdate s.1 s.2 (ident.At samples.sess 1) "ns"
               [rinq.Set_ "b" "y"; rinq.Set_ "k" "v2"] None)
    = Err (rinq.FrozenAttributesError (ident.At samples.sess 1)).
Proof.
  intros s e ks.
  assert (table_in s.1 s.2 "ns" !! "k" = Some e) as Hk
    by (vm_compute; reflexivity).
  destruct (local_frozen_immutable s "ns" "k" e Hk eq_refl)
    as [Hkept Hfails].
  split; [vm_compute; reflexivity |]. split; [exact (Hkept ks) |].
  apply (Hfails (ident.At samples.sess 1)
           [rinq.Set_ "b" "y"; rinq.Set_ "k" "v2"] None
           (rinq.Set_ "k" "v2")).
  - apply elem_of_cons. right. apply elem_of_cons. now left.
  - reflexivity.
  - left. vm_compute. intros Heq. discriminate Heq.
  - vm_compute. reflexivity.
  - vm_compute. reflexivity.
Defined.

End LocalFrozen.

Section LocalFencing.

Import attrmeta localsession.

Implicit Types (h : gmap loc (gmap string Attr)) (c : catalog)
  (r : ident.Ref) (s : state).

Lemma quiet_perform (k : call) s :
  quiet k s = true →
  ref (perform k s).2 = ref s.2 ∧ seq (perform k s).2 = seq s.2.
Proof.
  destruct s as [h c].
  destruct k as [| r ns l diff | r |]; simpl; intros Hq.
  - discriminate.
  - destruct (TryUpdate_failure h c r ns l diff) as [-> _]; [| auto].
    intros [rv Hok]. rewrite Hok in Hq. discriminate.
  - unfold TryDestroy. case_bool_decide; auto.
  - auto.
Qed.

Lemma all_quiet_run (ks : list call) s :
  all_quiet ks s = true →
  ref (run ks s).2 = ref s.2 ∧ seq (run ks s).2 = seq s.2.
Proof.
  revert s. induction ks as [| k ks IH]; intros s; simpl; [auto |].
  intros [Hq Hqs]%andb_true_iff.
  destruct (IH _ Hqs) as [-> ->]. now apply quiet_perform.
Qed.

(** C7, as the claim words it, fails where the 32-bit message counter
    wraps: from seq = 2^32 - 2 two consecutive calls of NextMessageID
    return seq 2^32 - 1 and then seq 0, which is neither greater than
    its predecessor nor at least 1. *)
Lemma NextMessageID_seq_wraps :
  let c := samples.last_seq_local in
  let m1 := (NextMessageID c).2.1 in
  let m2 := (NextMessageID (NextMessageID c).1).2.1 in
  ident.MsgSeq m1 = 4294967295
  ∧ ident.MsgSeq m2 = 0
  ∧ ¬ ident.MsgSeq m1 < ident.MsgSeq m2
  ∧ ¬ 1 ≤ ident.MsgSeq m2.
Proof. repeat split; vm_compute; congruence. Qed.

(** C7 (amended): two message IDs returned by consecutive calls of
    NextMessageID, with in between only failed updates, TryDestroy and
    Close, carry the same ref, and the seq of the second is the seq of
    the first incremented modulo 2^32; while the 32-bit counter does not
    wrap (seq at most 2^32 - 3 before the first call) each seq is at
    least 1 and the second is strictly greater.  After a TryUpdate that
    returns a revision, the next message ID has seq = 1 and carries the
    returned ref, whose revision is the incremented one (modulo
    2^32). *)
Theorem NextMessageID_fencing s :
  let c1 := (NextMessageID s.2).1 in
  let m1 := (NextMessageID s.2).2.1 in
  (∀ ks, all_quiet ks (s.1, c1) = true →
     let m2 := (NextMessageID (run ks (s.1, c1)).2).2.1 in
     ident.MsgRef m1 = ref s.2
     ∧ ident.MsgRef m2 = ident.MsgRef m1
     ∧ ident.MsgSeq m1 = u32 (seq s.2 + 1)
     ∧ ident.MsgSeq m2 = u32 (ident.MsgSeq m1 + 1)
     ∧ (0 ≤ seq s.2 < u32_max - 1 →
        1 ≤ ident.MsgSeq m1 ∧ ident.MsgSeq m1 < ident.MsgSeq m2))
  ∧ (∀ r ns (l : list rinq.Attr) diff rv,
       res_out (TryUpdate s.1 c1 r ns l diff) = Ok rv →
       let m2 :=
         (NextMessageID (res_catalog (TryUpdate s.1 c1 r ns l diff))).2.1 in
       ident.MsgSeq m2 = 1
       ∧ ident.MsgRef m2 = rev_ref rv
       ∧ ident.MsgRef m2
         = ident.mkRef (ident.ID (ident.MsgRef m1))
                       (u32 (ident.Rev (ident.MsgRef m1) + 1))).
Proof.
  intros c1 m1. split.
  - intros ks Hq m2. subst m2 m1.
    destruct (all_quiet_run ks (s.1, c1) Hq) as [Href Hseq].
    subst c1. simpl in *. rewrite Href, Hseq.
    repeat split; try reflexivity.
    + rewrite u32_succ by (unfold u32_max in *; lia). lia.
    + rewrite !u32_succ;
        rewrite ?u32_succ; unfold u32_max in *; lia.
  - intros r ns l diff rv Hok m2. subst m2 m1.
    destruct (TryUpdate_ok_inv _ _ _ _ _ _ _ Hok) as (Hr & Hrv & Href & Hseq).
    simpl. rewrite Hseq, Href, Hrv, Hr. subst c1. simpl.
    repeat split; reflexivity.
Qed.

Lemma NextMessageID_fencing_witness :
  let s := samples.frozen_local in
  let c1 := (NextMessageID s.2).1 in
  let m1 := (NextMessageID s.2).2.1 in
  let ks := [CallTryUpdate (ident.At samples.sess 0) "ns" [] None;
             CallTryUpdate (ident.At samples.sess 1) "ns"
               [rinq.Set_ "k" "v2"] None] in
  let m2 := (NextMessageID (run ks (s.1, c1)).2).2.1 in
  let res := TryUpdate s.1 c1 (ident.At samples.sess 1) "ns"
               [rinq.Set_ "b" "y"] None in
  (1 ≤ ident.MsgSeq m1 ∧ ident.MsgSeq m1 < ident.MsgSeq m2)
  ∧ ident.MsgSeq (NextMessageID (res_catalog res)).2.1 = 1.
Proof.
  intros s c1 m1 ks m2 res.
  destruct (NextMessageID_fencing s) as [Hquiet Hupdate].
  assert (all_quiet ks (s.1, c1) = true) as Hq by (vm_compute; reflexivity).
  assert (res_out res = Ok (mkRevision (ident.At samples.sess 2)
                              (attrs (res_catalog res)))) as Hok
    by (vm_compute; reflexivity).
  split.
  - destruct (Hquiet ks Hq) as (_ & _ & _ & _ & Hmono).
    apply Hmono. split; now vm_compute.
  - exact (proj1 (Hupdate _ _ _ _ _ Hok)).
Defined.

End LocalFencing.

(* ========================================================================= *)
(** * The remote catalog *)

Section RemoteFetch.

Import remotesession.

Implicit Types (c : catalog) (cl : client)
  (nsc : option (gmap string cachedAttr)).

(** ** The local pass of Fetch *)

(** Whatever the loop adds to [solved] is a cached attribute that was
    created and last updated at or before the requested revision. *)
Lemma fetchLocal_loop_solved c rev nsc keys solved unsolved solved' unsolved'
  oe a :
  fetchLocal_loop c rev nsc keys solved unsolved = (solved', unsolved', oe) →
  a ∈ solved' →
  a ∈ solved
  ∨ ∃ key entry,
      key ∈ keys ∧ lookup_ns nsc key = Some entry
      ∧ attrmeta.attr (Attr entry) = a
      ∧ attrmeta.CreatedAt (Attr entry) ≤ rev
      ∧ attrmeta.UpdatedAt (Attr entry) ≤ rev.
Proof.
  revert solved unsolved.
  induction keys as [| key keys IH]; intros solved unsolved; simpl.
  - intros Heq Hin. inversion Heq; subst. now left.
  - assert (∀ s u,
              fetchLocal_loop c rev nsc keys s u = (solved', unsolved', oe) →
              a ∈ solved' →
              a ∈ s
              ∨ ∃ key' entry,
                  key' ∈ key :: keys ∧ lookup_ns nsc key' = Some entry
                  ∧ attrmeta.attr (Attr entry) = a
                  ∧ attrmeta.CreatedAt (Attr entry) ≤ rev
                  ∧ attrmeta.UpdatedAt (Attr entry) ≤ rev) as Hrest.
    { intros s u Heq Hin.
      destruct (IH s u Heq Hin) as [? | (key' & entry & Hk & Hrest)];
        [now left |].
      right. exists key', entry. split; [apply elem_of_cons; now right |].
      exact Hrest. }
    destruct (lookup_ns nsc key) as [entry |] eqn:Hlookup; [| apply Hrest].
    destruct (rev <? attrmeta.CreatedAt (Attr entry)) eqn:Hcreated;
      [apply Hrest |].
    destruct (rev <? attrmeta.UpdatedAt (Attr entry)) eqn:Hupdated.
    { intros Heq Hin. inversion Heq; subst. now left. }
    destruct (attrmeta.IsFrozen (Attr entry) || (rev <=? FetchedAt entry));
      [| apply Hrest].
    intros Heq Hin.
    destruct (Hrest _ _ Heq Hin) as [Hacc | ?]; [| now right].
    apply elem_of_app in Hacc as [? | Hnew]; [now left |].
    apply list_elem_of_singleton in Hnew as ->.
    right. exists key, entry.
    split; [apply elem_of_cons; now left |].
    repeat split; try assumption; lia.
Qed.

(** A requested key whose cached entry was created at or before the
    requested revision and updated after it stops the loop. *)
Lemma fetchLocal_loop_stale c rev nsc keys solved unsolved key entry :
  key ∈ keys →
  lookup_ns nsc key = Some entry →
  attrmeta.CreatedAt (Attr entry) ≤ rev < attrmeta.UpdatedAt (Attr entry) →
  (fetchLocal_loop c rev nsc keys solved unsolved).2
  = Some (rinq.StaleFetchError (ident.At (id c) rev)).
Proof.
  intros Hin Hlookup [Hcreated Hupdated]. revert solved unsolved.
  induction keys as [| key0 keys IH]; intros solved unsolved; simpl.
  - now apply elem_of_nil in Hin.
  - destruct (decide (key0 = key)) as [-> | Hne].
    + rewrite Hlookup.
      rewrite (proj2 (Z.ltb_ge _ _) Hcreated).
      now rewrite (proj2 (Z.ltb_lt _ _) Hupdated).
    + apply elem_of_cons in Hin as [-> | Hin]; [contradiction |].
      specialize (IH Hin).
      repeat case_match; try apply IH; reflexivity.
Qed.

(** A key whose cached entry was created after the requested revision
    contributes nothing: neither an attribute nor a key to ask for. *)
Lemma fetchLocal_loop_created_after c rev ns keys solved unsolved :
  fetchLocal_loop c rev (cache c !! ns) keys solved unsolved
  = fetchLocal_loop c rev (cache c !! ns)
      (filter (λ key, created_after c rev ns key = false) keys)
      solved unsolved.
Proof.
  revert solved unsolved.
  induction keys as [| key keys IH]; intros solved unsolved; [reflexivity |].
  destruct (created_after c rev ns key) eqn:Hca.
  - rewrite filter_cons_False by (rewrite Hca; discriminate).
    unfold created_after in Hca. simpl.
    destruct (lookup_ns (cache c !! ns) key) as [entry |];
      [| discriminate].
    rewrite Hca. apply IH.
  - rewrite filter_cons_True by exact Hca.
    unfold created_after in Hca. simpl.
    destruct (lookup_ns (cache c !! ns) key) as [entry |]; [| apply IH].
    rewrite Hca. repeat case_match; try apply IH; reflexivity.
Qed.

(** ** The merge pass of Fetch *)

Lemma merge_loop_solved rev fetchedRev (st : merge_state)
  (l : list attrmeta.Attr) a :
  a ∈ solvedAttrs (merge_loop rev fetchedRev st l) →
  a ∈ solvedAttrs st
  ∨ ∃ m, m ∈ l ∧ attrmeta.attr m = a
         ∧ attrmeta.CreatedAt m ≤ rev ∧ attrmeta.UpdatedAt m ≤ rev.
Proof.
  revert st. induction l as [| m l IH]; intros st; simpl; [now left |].
  intros Hin. destruct (IH _ Hin) as [Hacc | (m' & Hm' & Hrest)].
  - unfold merge_attr in Hacc.
    destruct (isStaleFetch st); [now left |].
    destruct (rev <? attrmeta.CreatedAt m) eqn:Hcreated; [now left |].
    destruct (rev <? attrmeta.UpdatedAt m) eqn:Hupdated; [now left |].
    simpl in Hacc. apply elem_of_app in Hacc as [? | Hnew]; [now left |].
    apply list_elem_of_singleton in Hnew as ->.
    right. exists m. split; [apply elem_of_cons; now left |].
    repeat split; lia.
  - right. exists m'. split; [apply elem_of_cons; now right | exact Hrest].
Qed.

(** ** Fetch *)

Lemma fetchLocal_solved c rev ns keys solved unsolved oe a :
  fetchLocal c rev ns keys = (solved, unsolved, oe) →
  a ∈ solved →
  ∃ key entry,
    key ∈ keys ∧ lookup_ns (cache c !! ns) key = Some entry
    ∧ attrmeta.attr (Attr entry) = a
    ∧ attrmeta.CreatedAt (Attr entry) ≤ rev
    ∧ attrmeta.UpdatedAt (Attr entry) ≤ rev.
Proof.
  unfold fetchLocal. intros Heq Hin.
  destruct (fetchLocal_loop c rev (cache c !! ns) keys [] [])
    as [[solved0 unsolved0] oe0] eqn:Hloop.
  assert (solved0 = solved) as ->
    by (repeat case_match; now inversion Heq).
  destruct (fetchLocal_loop_solved _ _ _ _ _ _ _ _ _ a Hloop Hin)
    as [Hnil | Hcached]; [now apply elem_of_nil in Hnil | exact Hcached].
Qed.

(** C4, as the claim words it, fails for a cached entry that was created
    after the requested revision: its updatedAt is then greater than the
    revision too, yet Fetch does not return StaleFetch; it returns
    without the attribute and without an error. *)
Lemma remote_Fetch_created_after_not_stale :
  let c := samples.cached_remote in
  ∃ entry,
    lookup_ns (cache c !! "ns") "n" = Some entry
    ∧ 5 < attrmeta.UpdatedAt (Attr entry)
    ∧ Fetch samples.remote_peer c 5 "ns" ["n"%string]
      = mkFetchResult c [] (Ok []).
Proof.
  exists (mkCachedAttr (attrmeta.mkAttr (rinq.Set_ "n" "w") 10 10) 10).
  repeat split; vm_compute; reflexivity.
Qed.

(** C4 (amended): every attribute that Fetch returns is the attribute of a
    cached entry of a requested key, or of an attribute received from the
    remote peer in this call, whose createdAt and updatedAt are both at
    most the requested revision.  When the cache holds, for a requested
    key, an entry with createdAt at most the revision and updatedAt
    greater than it, Fetch returns StaleFetch without a remote call and
    without touching the catalog.  Keys whose cached entry has createdAt
    greater than the revision are solved as empty: the call behaves as if
    they had not been requested. *)
Theorem remote_Fetch_sound cl c rev ns (keys : list string) :
  let res := Fetch cl c rev ns keys in
  (∀ l a,
     fetch_out res = Ok l → a ∈ l →
     ∃ m, attrmeta.attr m = a
          ∧ attrmeta.CreatedAt m ≤ rev ∧ attrmeta.UpdatedAt m ≤ rev
          ∧ ((∃ key entry,
                key ∈ keys ∧ lookup_ns (cache c !! ns) key = Some entry
                ∧ Attr entry = m)
             ∨ (∃ unsolved,
                  fetch_rpcs res = [RpcFetch (id c) ns unsolved]
                  ∧ m ∈ (client_Fetch cl (id c) ns unsolved).1.2)))
  ∧ (∀ key entry,
       key ∈ keys → lookup_ns (cache c !! ns) key = Some entry →
       attrmeta.CreatedAt (Attr entry) ≤ rev < attrmeta.UpdatedAt (Attr entry) →
       res = mkFetchResult c []
               (Err (rinq.StaleFetchError (ident.At (id c) rev))))
  ∧ res = Fetch cl c rev ns
            (filter (λ key, created_after c rev ns key = false) keys).
Proof.
  intros res. subst res. split; [| split].
  - intros l a Hout Hin.
    assert (∀ solved unsolved oe,
              fetchLocal c rev ns keys = (solved, unsolved, oe) →
              a ∈ solved →
              ∃ m, attrmeta.attr m = a
                   ∧ attrmeta.CreatedAt m ≤ rev ∧ attrmeta.UpdatedAt m ≤ rev
                   ∧ ((∃ key entry,
                         key ∈ keys
                         ∧ lookup_ns (cache c !! ns) key = Some entry
                         ∧ Attr entry = m)
                      ∨ (∃ unsolved,
                           fetch_rpcs (Fetch cl c rev ns keys)
                             = [RpcFetch (id c) ns unsolved]
                           ∧ m ∈ (client_Fetch cl (id c) ns unsolved).1.2)))
      as Hcached.
    { intros solved unsolved oe Hlocal Ha.
      destruct (fetchLocal_solved _ _ _ _ _ _ _ _ Hlocal Ha)
        as (key & entry & Hkey & Hlookup & Hattr & Hcreated & Hupdated).
      exists (Attr entry). repeat split; try assumption.
      left. exists key, entry. auto. }
    revert Hout Hcached. unfold Fetch.
    destruct (fetchLocal c rev ns keys) as [[solved unsolved] [e |]]
      eqn:Hlocal; [discriminate |].
    case_bool_decide as Hnone.
    { simpl. intros Hout Hcached. inversion Hout; subst. eauto. }
    destruct (client_Fetch cl (id c) ns unsolved)
      as [[fetchedRev fetchedAttrs] [e |]] eqn:Hrpc; [discriminate |].
    case_bool_decide as Hempty.
    { simpl. intros Hout Hcached. inversion Hout; subst. eauto. }
    destruct (isStaleFetch _) eqn:Hstale; [discriminate |].
    simpl. intros Hout Hcached. inversion Hout; subst l; clear Hout.
    apply merge_loop_solved in Hin
      as [Hacc | (m & Hm & Hattr & Hcreated & Hupdated)].
    + simpl in Hacc. eauto.
    + exists m. repeat split; try assumption.
      right. exists unsolved. split; [reflexivity |].
      now rewrite Hrpc.
  - intros key entry Hkey Hlookup Hrange.
    pose proof (fetchLocal_loop_stale c rev (cache c !! ns) keys [] []
                  key entry Hkey Hlookup Hrange) as Hstale.
    unfold Fetch, fetchLocal.
    destruct (fetchLocal_loop c rev (cache c !! ns) keys [] [])
      as [[solved unsolved] oe].
    simpl in Hstale. subst oe. reflexivity.
  - unfold Fetch, fetchLocal.
    now rewrite fetchLocal_loop_created_after.
Qed.

Lemma remote_Fetch_sound_witness :
  let c := samples.cached_remote in
  Fetch samples.remote_peer c 5 "ns" ["n"%string; "k"%string]
  = mkFetchResult c []
      (Err (rinq.StaleFetchError (ident.At samples.sess 5)))
  ∧ ∃ m, attrmeta.attr m = rinq.Set_ "k" "v" ∧ attrmeta.UpdatedAt m ≤ 10.
Proof.
  intros c.
  destruct (remote_Fetch_sound samples.remote_peer c 5 "ns"
              ["n"%string; "k"%string]) as (_ & Hstale & _).
  destruct (remote_Fetch_sound samples.remote_peer c 10 "ns"
              ["n"%string; "k"%string; "f"%string]) as (Hsound & _ & _).
  split.
  - apply (Hstale "k"%string
             (mkCachedAttr (attrmeta.mkAttr (rinq.Set_ "k" "v") 3 10) 10)).
    + apply elem_of_cons. right. apply elem_of_cons. now left.
    + vm_compute. reflexivity.
    + split; now vm_compute.
  - destruct (Hsound [rinq.Set_ "n" "w"; rinq.Set_ "k" "v"; rinq.Freeze "f" "x"]
                (rinq.Set_ "k" "v"))
      as (m & Hattr & _ & Hupdated & _).
    + vm_compute. reflexivity.
    + apply elem_of_cons. right. apply elem_of_cons. now left.
    + exists m. split; assumption.
Defined.

End RemoteFetch.

Section RemoteUpdate.

Import remotesession.

Implicit Types (c : catalog) (cl : client)
  (nsc : option (gmap string cachedAttr)).

(** ** The filter of TryUpdate *)

Lemma filter_loop_error r rev nsc (l acc : list rinq.Attr) e :
  filter_loop r rev nsc l acc = inl e → e = rinq.FrozenAttributesError r.
Proof.
  revert acc. induction l as [| a l IH]; intros acc; simpl; [discriminate |].
  repeat case_match; try apply IH. intros Heq. now inversion Heq.
Qed.

(** An incoming attribute that differs from a frozen cached entry for its
    key stops the loop, wherever it stands in the list. *)
Lemma filter_loop_frozen r rev nsc (l acc : list rinq.Attr) a entry :
  a ∈ l →
  lookup_ns nsc (rinq.Key a) = Some entry →
  attrmeta.IsFrozen (Attr entry) = true →
  a ≠ attrmeta.attr (Attr entry) →
  filter_loop r rev nsc l acc = inl (rinq.FrozenAttributesError r).
Proof.
  intros Hin Hlookup Hfrozen Hne. revert acc.
  induction l as [| a0 l IH]; intros acc; [now apply elem_of_nil in Hin |].
  destruct (decide (a0 = a)) as [-> | Hother].
  - simpl. rewrite Hlookup, Hfrozen.
    now rewrite bool_decide_eq_false_2.
  - apply elem_of_cons in Hin as [-> | Hin]; [contradiction |].
    specialize (IH Hin). simpl.
    repeat case_match; try apply IH; reflexivity.
Qed.

(** An incoming attribute identical to a frozen cached entry is never put
    on the list to send. *)
Lemma filter_loop_sent r rev nsc (l acc out : list rinq.Attr) a :
  filter_loop r rev nsc l acc = inr out →
  a ∈ out →
  a ∈ acc
  ∨ (a ∈ l
     ∧ ¬ ∃ entry, lookup_ns nsc (rinq.Key a) = Some entry
                  ∧ attrmeta.IsFrozen (Attr entry) = true
                  ∧ a = attrmeta.attr (Attr entry)).
Proof.
  revert acc. induction l as [| a0 l IH]; intros acc; simpl.
  - intros Heq Hin. inversion Heq; subst. now left.
  - assert (∀ acc', filter_loop r rev nsc l acc' = inr out → a ∈ out →
              (a ∈ acc' → a ∈ acc
                 ∨ (a ∈ a0 :: l
                    ∧ ¬ ∃ entry, lookup_ns nsc (rinq.Key a) = Some entry
                                 ∧ attrmeta.IsFrozen (Attr entry) = true
                                 ∧ a = attrmeta.attr (Attr entry))) →
              a ∈ acc
              ∨ (a ∈ a0 :: l
                 ∧ ¬ ∃ entry, lookup_ns nsc (rinq.Key a) = Some entry
                              ∧ attrmeta.IsFrozen (Attr entry) = true
                              ∧ a = attrmeta.attr (Attr entry))) as Hrest.
    { intros acc' Heq Hin Hacc.
      destruct (IH _ Heq Hin) as [? | [Hl Hnot]]; [auto |].
      right. split; [apply elem_of_cons; now right | exact Hnot]. }
    destruct (lookup_ns nsc (rinq.Key a0)) as [entry |] eqn:Hlookup.
    + destruct (attrmeta.IsFrozen (Attr entry)) eqn:Hfrozen.
      * case_bool_decide; [| discriminate].
        intros Heq Hin. apply (Hrest _ Heq Hin). now left.
      * case_match.
        -- intros Heq Hin. apply (Hrest _ Heq Hin). now left.
        -- intros Heq Hin. apply (Hrest _ Heq Hin).
           intros [? | Hnew%list_elem_of_singleton]%elem_of_app;
             [now left |].
           subst a0. right. split; [apply elem_of_cons; now left |].
           intros (entry' & Hl' & Hf' & _). congruence.
    + intros Heq Hin. apply (Hrest _ Heq Hin).
      intros [? | Hnew%list_elem_of_singleton]%elem_of_app; [now left |].
      subst a0. right. split; [apply elem_of_cons; now left |].
      intros (entry' & Hl' & _). congruence.
Qed.

(** The requests of a call: none at all, or a single update that carries
    what the filter let through. *)
Lemma TryUpdate_rpcs cl c rev ns (l : list rinq.Attr) r ns' sent :
  RpcUpdate r ns' sent ∈ update_rpcs (TryUpdate cl c rev ns l) →
  filter_loop (ident.At (id c) rev) rev (cache c !! ns) l [] = inr sent.
Proof.
  unfold TryUpdate.
  destruct (isClosed c); [intros Hin; now apply elem_of_nil in Hin |].
  destruct (rev <? highestRev c);
    [intros Hin; now apply elem_of_nil in Hin |].
  destruct (filter_loop _ _ _ l []) as [e | updateAttrs];
    [intros Hin; now apply elem_of_nil in Hin |].
  destruct (client_Update cl _ ns updateAttrs)
    as [[updatedRev returnedAttrs] [e |]]; simpl.
  - intros Hin%list_elem_of_singleton. now inversion Hin.
  - repeat case_match; simpl;
      intros Hin%list_elem_of_singleton; now inversion Hin.
Qed.

(** C6: TryUpdate on a catalog marked closed fails with NotFound; on an
    open catalog with highestRev > rev it fails with StaleUpdate; on an
    open catalog with highestRev <= rev it fails with FrozenAttributes
    when the cache holds a frozen entry, for the key of some attribute of
    the request, whose value differs from that attribute's.  Whenever one
    of the three conditions holds the call fails with one of these errors,
    nothing is sent and the catalog is unchanged.  An attribute identical
    to a frozen cache entry for its key is not among the attributes of an
    update request that the call sends. *)
Theorem remote_TryUpdate_rejects cl c rev ns (l : list rinq.Attr) :
  let res := TryUpdate cl c rev ns l in
  (isClosed c = true →
   res = mkUpdateResult c [] (Err (rinq.NotFoundError (id c))))
  ∧ (isClosed c = false → rev < highestRev c →
     res = mkUpdateResult c []
             (Err (rinq.StaleUpdateError (ident.At (id c) rev))))
  ∧ (isClosed c = false → highestRev c ≤ rev →
     ∀ a entry,
       a ∈ l → lookup_ns (cache c !! ns) (rinq.Key a) = Some entry →
       attrmeta.IsFrozen (Attr entry) = true →
       rinq.Value a ≠ attrmeta.Value (Attr entry) →
       res = mkUpdateResult c []
               (Err (rinq.FrozenAttributesError (ident.At (id c) rev))))
  ∧ (isClosed c = true ∨ rev < highestRev c
     ∨ (∃ a entry,
          a ∈ l ∧ lookup_ns (cache c !! ns) (rinq.Key a) = Some entry
          ∧ attrmeta.IsFrozen (Attr entry) = true
          ∧ rinq.Value a ≠ attrmeta.Value (Attr entry)) →
     ∃ e, res = mkUpdateResult c [] (Err e)
          ∧ (e = rinq.NotFoundError (id c)
             ∨ e = rinq.StaleUpdateError (ident.At (id c) rev)
             ∨ e = rinq.FrozenAttributesError (ident.At (id c) rev)))
  ∧ (∀ a entry r ns' sent,
       lookup_ns (cache c !! ns) (rinq.Key a) = Some entry →
       attrmeta.IsFrozen (Attr entry) = true →
       a = attrmeta.attr (Attr entry) →
       RpcUpdate r ns' sent ∈ update_rpcs res → a ∉ sent).
Proof.
  intros res. subst res.
  assert (isClosed c = true →
          TryUpdate cl c rev ns l
          = mkUpdateResult c [] (Err (rinq.NotFoundError (id c))))
    as Hclosed.
  { intros Hclosed. unfold TryUpdate. now rewrite Hclosed. }
  assert (isClosed c = false → rev < highestRev c →
          TryUpdate cl c rev ns l
          = mkUpdateResult c []
              (Err (rinq.StaleUpdateError (ident.At (id c) rev))))
    as Hstale.
  { intros Hopen Hstale. unfold TryUpdate. rewrite Hopen.
    now rewrite (proj2 (Z.ltb_lt _ _) Hstale). }
  assert (isClosed c = false → highestRev c ≤ rev →
          ∀ a entry,
            a ∈ l → lookup_ns (cache c !! ns) (rinq.Key a) = Some entry →
            attrmeta.IsFrozen (Attr entry) = true →
            rinq.Value a ≠ attrmeta.Value (Attr entry) →
            TryUpdate cl c rev ns l
            = mkUpdateResult c []
                (Err (rinq.FrozenAttributesError (ident.At (id c) rev))))
    as Hfrozen.
  { intros Hopen Hfresh a entry Hin Hlookup Hfrozen Hvalue.
    unfold TryUpdate. rewrite Hopen.
    rewrite (proj2 (Z.ltb_ge _ _) Hfresh).
    rewrite (filter_loop_frozen _ _ _ _ _ a entry); try assumption;
      [reflexivity |].
    intros ->. now apply Hvalue. }
  split; [exact Hclosed |]. split; [exact Hstale |].
  split; [exact Hfrozen |]. split.
  - intros Hcond.
    destruct (isClosed c) eqn:Hopen; [eauto |].
    destruct (Z.lt_ge_cases rev (highestRev c)) as [Hlt | Hge]; [eauto 6 |].
    destruct Hcond as [? | [? | (a & entry & Hin & Hlookup & Hfr & Hvalue)]];
      [discriminate | lia |].
    eexists. split; [eapply Hfrozen; eauto | auto].
  - intros a entry r ns' sent Hlookup Hfrozen' Hsame Hrpc Hin.
    apply TryUpdate_rpcs in Hrpc.
    destruct (filter_loop_sent _ _ _ _ _ _ a Hrpc Hin) as [Hnil | [_ Hnot]].
    + now apply elem_of_nil in Hnil.
    + apply Hnot. exists entry. auto.
Qed.

Lemma remote_TryUpdate_rejects_witness :
  let c := samples.cached_remote in
  let closed := mkCatalog (id c) (highestRev c) (cache c) true in
  let frozen := mkCachedAttr (attrmeta.mkAttr (rinq.Freeze "f" "x") 2 2) 10 in
  update_out (TryUpdate samples.remote_peer closed 10 "ns" [])
  = Err (rinq.NotFoundError samples.sess)
  ∧ update_out (TryUpdate samples.remote_peer c 9 "ns" [])
    = Err (rinq.StaleUpdateError (ident.At samples.sess 9))
  ∧ update_out (TryUpdate samples.remote_peer c 10 "ns"
                  [rinq.Set_ "n" "z"; rinq.Freeze "f" "y"])
    = Err (rinq.FrozenAttributesError (ident.At samples.sess 10))
  ∧ rinq.Freeze "f" "x" ∉ [rinq.Set_ "n" "z"].
Proof.
  intros c closed frozen.
  destruct (remote_TryUpdate_rejects samples.remote_peer closed 10 "ns" [])
    as (Hclosed & _).
  destruct (remote_TryUpdate_rejects samples.remote_peer c 9 "ns" [])
    as (_ & Hstale & _).
  destruct (remote_TryUpdate_rejects samples.remote_peer c 10 "ns"
              [rinq.Set_ "n" "z"; rinq.Freeze "f" "y"])
    as (_ & _ & Hfrozen & _).
  destruct (remote_TryUpdate_rejects samples.remote_peer c 10 "ns"
              [rinq.Freeze "f" "x"; rinq.Set_ "n" "z"])
    as (_ & _ & _ & _ & Hskipped).
  split; [now rewrite (Hclosed eq_refl) |].
  split; [rewrite (Hstale eq_refl); [reflexivity | now vm_compute] |].
  split.
  - rewrite (Hfrozen eq_refl) with (a := rinq.Freeze "f" "y") (entry := frozen);
      [reflexivity | now vm_compute | | vm_compute; reflexivity
      | reflexivity | vm_compute; intros Heq; discriminate Heq].
    apply elem_of_cons. right. apply elem_of_cons. now left.
  - apply (Hskipped (rinq.Freeze "f" "x") frozen
             (ident.At samples.sess 10) "ns"%string);
      [vm_compute; reflexivity | reflexivity | reflexivity |].
    vm_compute. apply elem_of_cons. now left.
Defined.

(** ** The merge of TryUpdate *)

(** C10: on a catalog that holds no cache for the namespace, the merge
    loop of TryUpdate assigns the first attribute the server returns to
    the nil map it captured, and the call panics; Fetch, in the same
    situation, allocates a namespace map and installs it. *)
Lemma remote_TryUpdate_uncached_namespace_panics :
  let c := newCatalog samples.sess in
  cache c !! "ns" = None
  ∧ update_out (TryUpdate samples.remote_peer c 0 "ns" [rinq.Set_ "k" "v"])
    = Panic "assignment to entry in nil map"
  ∧ fetch_out (Fetch samples.remote_peer c 1 "ns" ["k"%string])
    = Ok [rinq.Set_ "k" "v"]
  ∧ cache (fetch_catalog (Fetch samples.remote_peer c 1 "ns" ["k"%string]))
      !! "ns"
    = Some {[ "k"%string :=
                mkCachedAttr (attrmeta.mkAttr (rinq.Set_ "k" "v") 1 1) 1 ]}.
Proof. repeat split; vm_compute; reflexivity. Qed.

(** The panic does not depend on the sample: it happens whenever the
    namespace has no cache, the update goes through and the server reports
    an attribute at a revision above 0. *)
Lemma remote_TryUpdate_nil_map cl c rev ns (l : list rinq.Attr)
  sent updatedRev a returnedAttrs :
  isClosed c = false → highestRev c ≤ rev →
  cache c !! ns = None →
  filter_loop (ident.At (id c) rev) rev None l [] = inr sent →
  client_Update cl (ident.At (id c) rev) ns sent
  = (updatedRev, a :: returnedAttrs, None) →
  0 < updatedRev →
  update_out (TryUpdate cl c rev ns l)
  = Panic "assignment to entry in nil map".
Proof.
  intros Hopen Hfresh Hnil Hfilter Hrpc Hrev. unfold TryUpdate.
  rewrite Hopen, (proj2 (Z.ltb_ge _ _) Hfresh), Hnil, Hfilter, Hrpc.
  simpl. now rewrite (proj2 (Z.ltb_lt _ _) Hrev).
Qed.

End RemoteUpdate.

(* ========================================================================= *)
(** * The command server *)

Section CommandServer.

Import commandamqp.

Context {Revision : Type}.
Variable ParseMessageID : string → option ident.MessageID.
Variable GetRevision : ident.Ref → rinq.error + Revision.
Variables balancedExchange multicastExchange unicastExchange : string.

Implicit Types (handlers : gmap string (CommandHandler Revision))
  (msg : Delivery).

#[local] Abbreviation dispatch :=
  (dispatch ParseMessageID GetRevision balancedExchange multicastExchange
     unicastExchange).
#[local] Abbreviation handle :=
  (handle GetRevision balancedExchange multicastExchange).
#[local] Abbreviation resolve :=
  (resolve balancedExchange multicastExchange unicastExchange).

Lemma handle_without_handler handlers msgID ns msg :
  handlers !! ns = None → handle handlers msgID ns msg = ([Reject true], None).
Proof. intros Hnone. unfold commandamqp.handle. now rewrite Hnone. Qed.

(** A well-formed delivery is handled in the namespace it resolves to. *)
Lemma dispatch_resolved handlers msg msgID ns :
  ParseMessageID (MessageId msg) = Some msgID →
  resolve msg = Some ns →
  dispatch handlers msg
  = match handle handlers msgID ns msg with
    | (verdicts, Some _) => verdicts ++ [Reject false]
    | (verdicts, None) => verdicts
    end.
Proof.
  intros Hparse. unfold commandamqp.resolve, commandamqp.dispatch.
  rewrite Hparse.
  case_bool_decide.
  - intros Heq. inversion Heq; subst. now destruct (handle _ _ _ _).
  - case_bool_decide; [| discriminate].
    intros ->. now destruct (handle _ _ _ _).
Qed.

(** C3 (amended): a delivery with a valid message ID, resolved to a
    namespace for which no handler is registered, is rejected with requeue,
    and that is the only verdict it gets.  This is so whichever exchange it
    came through: the balanced or the multicast exchange, where the
    namespace is the routing key, and the unicast exchange as well, where
    the namespace is the namespace header. *)
Theorem dispatch_without_handler handlers msg msgID ns :
  ParseMessageID (MessageId msg) = Some msgID →
  handlers !! ns = None →
  (resolve msg = Some ns → dispatch handlers msg = [Reject true])
  ∧ (Exchange msg = balancedExchange ∨ Exchange msg = multicastExchange →
     RoutingKey msg = ns → dispatch handlers msg = [Reject true])
  ∧ (unicastExchange ≠ balancedExchange →
     unicastExchange ≠ multicastExchange →
     Exchange msg = unicastExchange →
     NamespaceHeader msg = Some ns → dispatch handlers msg = [Reject true]).
Proof.
  intros Hparse Hnone.
  assert (resolve msg = Some ns → dispatch handlers msg = [Reject true])
    as Hresolved.
  { intros Hns. rewrite (dispatch_resolved _ _ _ _ Hparse Hns).
    now rewrite handle_without_handler. }
  split; [exact Hresolved |]. split.
  - intros Hexchange <-. apply Hresolved. unfold commandamqp.resolve.
    now rewrite bool_decide_eq_true_2.
  - intros Hbalanced Hmulticast Hexchange Hheader.
    apply Hresolved. unfold commandamqp.resolve.
    rewrite bool_decide_eq_false_2
      by (rewrite Hexchange; intros [? | ?]; contradiction).
    now rewrite bool_decide_eq_true_2.
Qed.

End CommandServer.

Section CommandServerSamples.

Import commandamqp.

(** C3, as the claim words it, fails for the unicast exchange: a unicast
    delivery for a namespace without a handler is rejected with requeue,
    like a balanced or a multicast one. *)
Lemma dispatch_unicast_requeued :
  let msg := samples.request samples.unicastExchange in
  Exchange msg = samples.unicastExchange
  ∧ Exchange msg ≠ samples.balancedExchange
  ∧ Exchange msg ≠ samples.multicastExchange
  ∧ samples.server_dispatch ∅ msg = [Reject true].
Proof.
  repeat split; try (vm_compute; reflexivity);
    vm_compute; intros Heq; discriminate Heq.
Qed.

Lemma dispatch_without_handler_witness :
  samples.server_dispatch ∅ (samples.request samples.balancedExchange)
  = [Reject true]
  ∧ samples.server_dispatch ∅ (samples.request samples.multicastExchange)
    = [Reject true]
  ∧ samples.server_dispatch ∅ (samples.request samples.unicastExchange)
    = [Reject true].
Proof.
  assert (∀ exchange,
            samples.ParseMessageID (MessageId (samples.request exchange))
            = Some samples.message_id) as Hparse by reflexivity.
  assert ((∅ : gmap string (CommandHandler ident.Ref)) !! "math" = None)
    as Hnone by apply lookup_empty.
  pose proof (λ exchange,
                dispatch_without_handler samples.ParseMessageID
                  samples.GetRevision samples.balancedExchange
                  samples.multicastExchange samples.unicastExchange
                  ∅ (samples.request exchange) _ "math"%string
                  (Hparse exchange) Hnone) as Hdispatch.
  destruct (Hdispatch samples.balancedExchange) as (_ & Hbalanced & _).
  destruct (Hdispatch samples.multicastExchange) as (_ & Hmulticast & _).
  destruct (Hdispatch samples.unicastExchange) as (_ & _ & Hunicast).
  split; [apply Hbalanced; [now left | reflexivity] |].
  split; [apply Hmulticast; [now right | reflexivity] |].
  apply Hunicast;
    [ intros Heq; discriminate Heq | intros Heq; discriminate Heq
    | reflexivity | reflexivity ].
Defined.

End CommandServerSamples.

(* ========================================================================= *)
(** * Rendering of attribute lists and tables *)

Section ReprLists.

Import attrmeta.

Lemma append_nil_r (s : string) : s +:+ "" = s.
Proof.
  induction s as [| ch s IH]; [reflexivity |].
  change (String ch (s +:+ "") = String ch s). now rewrite IH.
Qed.

Lemma length_append (s1 s2 : string) :
  String.length (s1 +:+ s2) = (String.length s1 + String.length s2)%nat.
Proof.
  induction s1 as [| ch s1 IH]; [reflexivity |].
  change (S (String.length (s1 +:+ s2))
          = S (String.length s1 + String.length s2)).
  now rewrite IH.
Qed.

Lemma Write_prefix (buffer : string) (a : Attr) :
  Write buffer a = buffer +:+ Write "" a.
Proof. now rewrite !Write_textual_form. Qed.

Lemma WriteDiff_prefix (buffer : string) (a : Attr) :
  WriteDiff buffer a = buffer +:+ WriteDiff "" a.
Proof.
  unfold WriteDiff. destruct (decide (Value a = "")); [apply Write_prefix |].
  unfold WriteString.
  destruct (decide (CreatedAt a = UpdatedAt a)), (IsFrozen a);
    now rewrite !append_assoc.
Qed.

(** Every rendering of an attribute has at least one character. *)
Lemma textual_form_nonempty (a : Attr) : textual_form a ≠ "".
Proof.
  intros Hempty. apply (f_equal String.length) in Hempty. revert Hempty.
  unfold textual_form.
  destruct (IsFrozen a), (bool_decide (Value a = ""));
    rewrite !length_append; simpl; lia.
Qed.

Lemma WriteDiff_nonempty_output (a : Attr) : WriteDiff "" a ≠ "".
Proof.
  unfold WriteDiff. destruct (decide (Value a = "")).
  - rewrite Write_textual_form. apply textual_form_nonempty.
  - intros Hempty. apply (f_equal String.length) in Hempty. revert Hempty.
    unfold WriteString.
    destruct (decide (CreatedAt a = UpdatedAt a)), (IsFrozen a);
      rewrite !length_append; simpl; lia.
Qed.

(** The loop of the slice writers, at an index other than 0. *)
Lemma write_from_succ (write : string → Attr → string) :
  (∀ buffer a, write buffer a = buffer +:+ write "" a) →
  ∀ (l : list Attr) index buffer,
    write_from write (S index) buffer l
    = match l with
      | [] => buffer
      | _ => buffer +:+ ", " +:+ String.concat ", " (map (write "") l)
      end.
Proof.
  intros Hprefix l. induction l as [| a l IH]; intros index buffer;
    [reflexivity |].
  cbn [write_from]. rewrite bool_decide_eq_true_2 by discriminate.
  rewrite IH. unfold WriteString. rewrite (Hprefix (buffer +:+ ", ") a).
  destruct l as [| a' l]; simpl; now rewrite ?append_assoc.
Qed.

Lemma write_from_zero (write : string → Attr → string) :
  (∀ buffer a, write buffer a = buffer +:+ write "" a) →
  ∀ (l : list Attr) buffer,
    write_from write 0 buffer l
    = buffer +:+ String.concat ", " (map (write "") l).
Proof.
  intros Hprefix [| a l] buffer; cbn [write_from].
  - simpl. now rewrite append_nil_r.
  - rewrite bool_decide_eq_false_2 by (intros Hne; now apply Hne).
    rewrite (write_from_succ write Hprefix). rewrite (Hprefix buffer a).
    destruct l as [| a' l]; simpl; now rewrite ?append_assoc.
Qed.

Lemma WriteSlice_concat (buffer : string) (l : list Attr) :
  WriteSlice buffer l = buffer +:+ String.concat ", " (map textual_form l).
Proof.
  unfold WriteSlice. rewrite (write_from_zero Write Write_prefix).
  f_equal. f_equal. apply map_ext. intros a.
  now rewrite Write_textual_form.
Qed.

Lemma WriteDiffSlice_concat (buffer : string) (l : list Attr) :
  WriteDiffSlice buffer l
  = buffer +:+ String.concat ", " (map (WriteDiff "") l).
Proof. apply (write_from_zero WriteDiff WriteDiff_prefix). Qed.

(** X1: WriteSlice appends to the buffer the textual forms of the
    attributes, in order, joined by [", "]; WriteDiffSlice does the same
    with their diff forms.  An empty slice leaves the buffer as it is. *)
Theorem WriteSlice_joins (buffer : string) (l : list Attr) :
  WriteSlice buffer l
  = buffer +:+ String.concat ", " (map textual_form l)
  ∧ WriteDiffSlice buffer l
    = buffer +:+ String.concat ", " (map (WriteDiff "") l)
  ∧ WriteSlice buffer [] = buffer
  ∧ WriteDiffSlice buffer [] = buffer.
Proof.
  split; [apply WriteSlice_concat |].
  split; [apply WriteDiffSlice_concat |]. split; reflexivity.
Qed.

(** ** Tables *)

Lemma concat_nonempty (ls : list string) :
  ls ≠ [] → (∀ s, s ∈ ls → s ≠ "") → String.concat ", " ls ≠ "".
Proof.
  destruct ls as [| s ls]; [congruence |]. intros _ Hne.
  assert (s ≠ "") as Hs by (apply Hne, elem_of_cons; now left).
  destruct s as [| ch s]; [congruence |].
  destruct ls; simpl; discriminate.
Qed.

Lemma length_nonempty (s : string) : s ≠ "" → String.length s ≠ 0%nat.
Proof. destruct s; [congruence | discriminate]. Qed.

(** WriteTable on a buffer that already holds text. *)
Lemma WriteTable_nonempty_buffer (visited : list Attr) (buffer : string) :
  buffer ≠ "" →
  WriteTable buffer visited
  = match filter (λ a, shown a = true) visited with
    | [] => buffer
    | l => buffer +:+ ", " +:+ String.concat ", " (map textual_form l)
    end.
Proof.
  revert buffer. induction visited as [| a visited IH]; intros buffer Hne;
    [reflexivity |].
  cbn [WriteTable]. unfold shown at 1.
  destruct (negb (IsFrozen a) && bool_decide (Value a = "")) eqn:Hunset.
  - rewrite filter_cons_False by (unfold shown; rewrite Hunset; discriminate).
    now apply IH.
  - rewrite filter_cons_True by (unfold shown; now rewrite Hunset).
    rewrite bool_decide_eq_true_2 by now apply length_nonempty.
    unfold WriteString. rewrite Write_textual_form.
    rewrite IH.
    + destruct (filter _ visited) as [| a' l]; simpl;
        now rewrite ?append_assoc.
    + rewrite append_assoc. destruct buffer; [congruence | discriminate].
Qed.

Lemma WriteTable_empty_buffer (visited : list Attr) :
  WriteTable "" visited
  = String.concat ", "
      (map textual_form (filter (λ a, shown a = true) visited)).
Proof.
  induction visited as [| a visited IH]; [reflexivity |].
  cbn [WriteTable]. unfold shown at 1.
  destruct (negb (IsFrozen a) && bool_decide (Value a = "")) eqn:Hunset.
  - rewrite filter_cons_False by (unfold shown; rewrite Hunset; discriminate).
    exact IH.
  - rewrite filter_cons_True by (unfold shown; now rewrite Hunset).
    rewrite bool_decide_eq_false_2 by (intros Hne; now apply Hne).
    rewrite Write_textual_form. simpl "+:+".
    rewrite WriteTable_nonempty_buffer by apply textual_form_nonempty.
    now destruct (filter _ visited).
Qed.

(** The number of characters of the textual forms joined by [", "] does
    not depend on their order. *)
Lemma length_concat_perm (l1 l2 : list string) :
  l1 ≡ₚ l2 →
  String.length (String.concat ", " l1)
  = String.length (String.concat ", " l2).
Proof.
  assert (∀ l : list string,
            String.length (String.concat ", " l)
            = (foldr (λ s n, String.length s + n) 0 l
               + 2 * (length l - 1))%nat) as Hlength.
  { induction l as [| s l IH]; [reflexivity |].
    destruct l as [| s' l]; [simpl; lia |].
    change (String.concat ", " (s :: s' :: l))
      with (s +:+ ", " +:+ String.concat ", " (s' :: l)).
    rewrite !length_append, IH. simpl. lia. }
  intros Hperm. rewrite !Hlength.
  rewrite (Permutation_length Hperm). f_equal.
  induction Hperm; simpl; lia.
Qed.

(** X2: on an empty buffer WriteTable writes what WriteSlice writes for the
    attributes it visits, without those that are neither frozen nor have a
    value; a table that holds only such attributes leaves any buffer as it
    is; and the order in which Go ranges over the table shows in the order
    of the output only, not in its length. *)
Theorem WriteTable_renders (t : gmap string Attr) (visited : list Attr) :
  ranges_over visited t →
  WriteTable "" visited
  = WriteSlice "" (filter (λ a, shown a = true) visited)
  ∧ ((∀ k e, t !! k = Some e → shown e = false) →
     ∀ buffer, WriteTable buffer visited = buffer)
  ∧ (∀ visited' buffer,
       ranges_over visited' t →
       String.length (WriteTable buffer visited')
       = String.length (WriteTable buffer visited)).
Proof.
  intros Hranges. split; [| split].
  - rewrite WriteTable_empty_buffer.
    now rewrite WriteSlice_concat.
  - intros Hhidden buffer.
    assert (filter (λ a, shown a = true) visited = []) as Hnone.
    { destruct (filter (λ a, shown a = true) visited) as [| a l] eqn:Hf;
        [reflexivity |].
      assert (a ∈ filter (λ a, shown a = true) visited) as Hin
        by (rewrite Hf; apply elem_of_cons; now left).
      apply list_elem_of_filter in Hin as [Hshown Hin].
      assert (a ∈ (map_to_list t).*2) as Helem by now rewrite <- Hranges.
      apply list_elem_of_fmap in Helem as ([k e] & -> & Hke).
      apply elem_of_map_to_list in Hke. simpl in Hshown.
      rewrite (Hhidden k e Hke) in Hshown. discriminate. }
    destruct (decide (buffer = "")) as [-> | Hne].
    + rewrite WriteTable_empty_buffer, Hnone. reflexivity.
    + rewrite WriteTable_nonempty_buffer, Hnone by assumption. reflexivity.
  - intros visited' buffer Hranges'.
    assert (map textual_form (filter (λ a, shown a = true) visited')
            ≡ₚ map textual_form (filter (λ a, shown a = true) visited))
      as Hperm.
    { apply Permutation_map. apply filter_Permutation.
      unfold ranges_over in *. now rewrite Hranges, Hranges'. }
    destruct (decide (buffer = "")) as [-> | Hne].
    + rewrite !WriteTable_empty_buffer. now apply length_concat_perm.
    + rewrite !WriteTable_nonempty_buffer by assumption.
      pose proof (Permutation_length Hperm) as Hlen.
      rewrite !length_map in Hlen.
      pose proof (length_concat_perm _ _ Hperm) as Hchars.
      destruct (filter _ visited') as [| a' l'],
               (filter _ visited) as [| a l];
        try discriminate; [reflexivity |].
      rewrite !length_append. now rewrite Hchars.
Qed.

End ReprLists.

Section ReprTables.

Import attrmeta.

Lemma WriteTable_renders_witness :
  let visited := (map_to_list samples.table).*2 in
  WriteTable "" visited
  = WriteSlice "" (filter (λ a, shown a = true) visited)
  ∧ String.length (WriteTable "" (reverse visited)) = 9%nat.
Proof.
  intros visited.
  assert (ranges_over visited samples.table) as Hranges
    by (unfold ranges_over; reflexivity).
  assert (ranges_over (reverse visited) samples.table) as Hreversed
    by (unfold ranges_over; now rewrite reverse_Permutation).
  destruct (WriteTable_renders samples.table visited Hranges)
    as (Hslice & _ & Hlength).
  split; [exact Hslice |].
  rewrite (Hlength (reverse visited) "" Hreversed).
  vm_compute. reflexivity.
Defined.

(** ** Constraints and clones *)

(** X3: a table matches a constraint exactly when, for every key of the
    constraint, the attribute stored under that key has the required
    value, an attribute that is not stored counting as one with the empty
    value.  So every table matches the empty constraint, and a key that is
    not stored matches the empty value and no other. *)
Theorem MatchConstraint_spec (t : gmap string Attr)
  (constraint : gmap string string) :
  (MatchConstraint t constraint = true
   ↔ ∀ k v, constraint !! k = Some v → Value (default zero (t !! k)) = v)
  ∧ MatchConstraint t ∅ = true
  ∧ (∀ k v, t !! k = None →
            MatchConstraint t {[ k := v ]} = bool_decide (v = "")).
Proof.
  assert (∀ c : gmap string string,
            MatchConstraint t c = true
            ↔ ∀ k v, c !! k = Some v → Value (default zero (t !! k)) = v)
    as Hspec.
  { intros c. unfold MatchConstraint. rewrite forallb_forall. split.
    - intros Hall k v Hkv.
      specialize (Hall (k, v)). simpl in Hall.
      eapply bool_decide_eq_true_1, Hall, list_elem_of_In.
      now apply elem_of_map_to_list.
    - intros Hall [k v] Hin. simpl. apply bool_decide_eq_true_2, Hall.
      now apply elem_of_map_to_list, list_elem_of_In. }
  split; [apply Hspec |]. split.
  - apply Hspec. intros k v Hkv. now rewrite lookup_empty in Hkv.
  - intros k v Hnone.
    destruct (MatchConstraint t {[k := v]}) eqn:Hmatch.
    + symmetry. apply bool_decide_eq_true_2.
      rewrite Hspec in Hmatch.
      specialize (Hmatch k v (lookup_singleton_eq k v)).
      rewrite Hnone in Hmatch. now symmetry.
    + symmetry. apply bool_decide_eq_false_2. intros ->.
      assert (MatchConstraint t {[k := ""%string]} = true) as Htrue;
        [| congruence].
      apply Hspec. intros k' v' [-> <-]%lookup_singleton_Some.
      now rewrite Hnone.
Qed.

(** X4: Clone returns a map object that did not exist before and holds the
    entries of the original; an assignment to the clone shows in the clone
    and leaves the original, and every other existing object, as they
    were. *)
Theorem Clone_independent (h : gmap positive (gmap string Attr))
  (t : option positive) (k : string) (v : Attr) :
  let clone := (Clone h t).2 in
  let h' := store (Clone h t).1 clone k v in
  (clone ∉ dom h)
  ∧ deref (Clone h t).1 (Some clone) = deref h t
  ∧ deref h' (Some clone) = <[k := v]> (deref h t)
  ∧ (∀ l0, l0 ∈ dom h → h' !! l0 = h !! l0)
  ∧ (from_option (λ l0, l0 ∈ dom h) True t → deref h' t = deref h t).
Proof.
  intros clone h'. subst clone h'.
  assert (∀ l0, l0 ∈ dom h →
                store (Clone h t).1 (Clone h t).2 k v !! l0 = h !! l0)
    as Hold.
  { intros l0 Hin. rewrite lookup_store_ne.
    - now apply lookup_Clone_old.
    - intros ->. now apply (Clone_fresh h t). }
  split; [apply Clone_fresh |]. split; [apply deref_Clone |].
  split; [now rewrite deref_store, deref_Clone |].
  split; [exact Hold |].
  destruct t as [l0 |]; [| reflexivity].
  simpl. intros Hin. unfold deref. simpl. now rewrite Hold.
Qed.

Lemma Clone_independent_witness :
  let s := samples.frozen_local in
  let t := localsession.attrs s.2 !! "ns" in
  let v := mkAttr (rinq.Set_ "k" "v2") 1 2 in
  deref (store (Clone s.1 t).1 (Clone s.1 t).2 "k" v) t !! "k"
  = Some (mkAttr (rinq.Freeze "k" "v1") 1 1).
Proof.
  intros s t v.
  destruct (Clone_independent s.1 t "k" v) as (_ & _ & _ & _ & Horiginal).
  rewrite Horiginal; [vm_compute; reflexivity |].
  vm_compute. reflexivity.
Defined.

Lemma MatchConstraint_spec_witness :
  MatchConstraint samples.table {[ "missing"%string := ""%string ]} = true
  ∧ MatchConstraint samples.table {[ "missing"%string := "x"%string ]} = false.
Proof.
  destruct (MatchConstraint_spec samples.table ∅) as (_ & _ & Hmissing).
  split.
  - exact (Hmissing "missing"%string ""%string eq_refl).
  - exact (Hmissing "missing"%string "x"%string eq_refl).
Defined.

End ReprTables.

(* ========================================================================= *)
(** * More on the local catalog *)

Section LocalUpdates.

Import attrmeta localsession.

Implicit Types (h : gmap loc (gmap string Attr)) (c : catalog)
  (st : loop_state) (a : rinq.Attr) (r : ident.Ref) (s : state).

(** The revision that follows is never the revision itself, wrap-around or
    not. *)
Lemma u32_succ_neq (z : Z) : u32 (z + 1) ≠ z.
Proof.
  unfold u32. intros Heq.
  pose proof (Z.mod_pos_bound (z + 1) 4294967296 eq_refl) as Hbound.
  destruct (decide (z + 1 < 4294967296)) as [Hlt | Hge].
  - rewrite Z.mod_small in Heq by lia. lia.
  - assert (z = 4294967295) as -> by lia. vm_compute in Heq. discriminate.
Qed.

(** ** What the loop stores *)

Lemma update_attr_stored r nextRev la st a st' :
  update_attr r nextRev la st a = inr st' →
  same_as_stored (deref (loop_heap st') (Some la)) a.
Proof.
  unfold update_attr, same_as_stored.
  destruct (bool_decide (rinq.Value a = _) && bool_decide _) eqn:Hsame.
  - intros Heq. inversion Heq; subst.
    apply andb_true_iff in Hsame as [Hv Hf].
    split; eapply bool_decide_eq_true_1; eassumption.
  - case_match; [discriminate |].
    intros Heq. inversion Heq; subst. cbn [loop_heap].
    rewrite deref_store, lookup_insert_eq. split; reflexivity.
Qed.

Lemma update_attr_other_key r nextRev la st a st' k :
  update_attr r nextRev la st a = inr st' →
  rinq.Key a ≠ k →
  deref (loop_heap st') (Some la) !! k = deref (loop_heap st) (Some la) !! k.
Proof.
  unfold update_attr. intros Heq Hne.
  repeat case_match; inversion Heq; subst; try reflexivity;
    cbn [loop_heap]; now rewrite deref_store, lookup_insert_ne.
Qed.

Lemma update_loop_other_keys r nextRev la st (l : list rinq.Attr) st' oe k :
  update_loop r nextRev la st l = (st', oe) →
  (∀ b, b ∈ l → rinq.Key b ≠ k) →
  deref (loop_heap st') (Some la) !! k = deref (loop_heap st) (Some la) !! k.
Proof.
  revert st. induction l as [| b l IH]; intros st; simpl.
  - intros Heq _. now inversion Heq.
  - destruct (update_attr r nextRev la st b) as [e0 | st0] eqn:Hstep.
    + intros Heq _. now inversion Heq.
    + intros Heq Hkeys. rewrite (IH _ Heq).
      * eapply update_attr_other_key; [eassumption |].
        apply Hkeys, elem_of_cons. now left.
      * intros b' Hin. apply Hkeys, elem_of_cons. now right.
Qed.

Lemma update_loop_stored r nextRev la st (l1 l2 : list rinq.Attr) a st' :
  update_loop r nextRev la st (l1 ++ a :: l2) = (st', None) →
  (∀ b, b ∈ l2 → rinq.Key b ≠ rinq.Key a) →
  same_as_stored (deref (loop_heap st') (Some la)) a.
Proof.
  revert st. induction l1 as [| b l1 IH]; intros st; simpl.
  - destruct (update_attr r nextRev la st a) as [e0 | st0] eqn:Hstep;
      [discriminate |].
    intros Hloop Hkeys. unfold same_as_stored.
    rewrite (update_loop_other_keys _ _ _ _ _ _ _ _ Hloop Hkeys).
    eapply update_attr_stored; eassumption.
  - destruct (update_attr r nextRev la st b) as [e0 | st0] eqn:Hstep;
      [discriminate |].
    apply IH.
Qed.

(** ** How the loop stamps what it stores *)

Lemma updated_at_refl nextRev (t : gmap string Attr) : updated_at nextRev t t.
Proof. intros k. now left. Qed.

Lemma updated_at_trans nextRev (t0 t1 t2 : gmap string Attr) :
  updated_at nextRev t0 t1 → updated_at nextRev t1 t2 →
  updated_at nextRev t0 t2.
Proof.
  intros H01 H12 k.
  destruct (H12 k) as [Hsame | (e2 & He2 & Hkey & Hupdated & Hcreated)].
  - rewrite Hsame. apply H01.
  - right. exists e2. repeat split; try assumption.
    destruct (H01 k) as [Hsame | (e1 & He1 & _ & _ & Hcreated1)].
    + now rewrite <- Hsame.
    + rewrite Hcreated, He1. exact Hcreated1.
Qed.

Lemma update_attr_updated_at r nextRev la st a st' :
  update_attr r nextRev la st a = inr st' →
  updated_at nextRev (deref (loop_heap st) (Some la))
                     (deref (loop_heap st') (Some la)).
Proof.
  unfold update_attr. intros Heq k.
  destruct (bool_decide (rinq.Value a = _) && bool_decide _);
    [inversion Heq; subst; now left |].
  case_match; [discriminate |].
  set (found := deref (loop_heap st) (Some la) !! rinq.Key a) in *.
  inversion Heq; subst. cbn [loop_heap]. rewrite deref_store.
  destruct (decide (rinq.Key a = k)) as [<- | Hne];
    [| left; now rewrite lookup_insert_ne].
  right. rewrite lookup_insert_eq. eexists. split; [reflexivity |].
  repeat split. fold found. now destruct found.
Qed.

Lemma update_loop_updated_at r nextRev la st (l : list rinq.Attr) st' oe :
  update_loop r nextRev la st l = (st', oe) →
  updated_at nextRev (deref (loop_heap st) (Some la))
                     (deref (loop_heap st') (Some la)).
Proof.
  revert st. induction l as [| a l IH]; intros st; simpl.
  - intros Heq. inversion Heq. apply updated_at_refl.
  - destruct (update_attr r nextRev la st a) as [e0 | st0] eqn:Hstep.
    + intros Heq. inversion Heq. apply updated_at_refl.
    + intros Heq. eapply updated_at_trans; [| apply (IH _ Heq)].
      eapply update_attr_updated_at; eassumption.
Qed.

(** ** The attribute tables after a call that returns a revision *)

Lemma TryUpdate_ok_tables h c r ns (l : list rinq.Attr) diff rv :
  wf_state (h, c) →
  res_out (TryUpdate h c r ns l diff) = Ok rv →
  let res := TryUpdate h c r ns l diff in
  ∃ st,
    update_loop r (u32 (ident.Rev r + 1)) (Clone h (attrs c !! ns)).2
      (mkLoop (Clone h (attrs c !! ns)).1 false diff) l = (st, None)
    ∧ table_in (res_heap res) (res_catalog res) ns
      = deref (loop_heap st) (Some (Clone h (attrs c !! ns)).2)
    ∧ res_diff res = loop_diff st
    ∧ (∀ ns', ns' ≠ ns →
              table_in (res_heap res) (res_catalog res) ns'
              = table_in h c ns').
Proof.
  intros Hwf Hok res. subst res.
  assert (∀ ns' l0, attrs c !! ns' = Some l0 →
            attrs (res_catalog (TryUpdate h c r ns l diff)) !! ns' = Some l0 →
            table_in (res_heap (TryUpdate h c r ns l diff))
                     (res_catalog (TryUpdate h c r ns l diff)) ns'
            = table_in h c ns') as Hold.
  { intros ns' l0 Hl0 Hl0'. apply (TryUpdate_table_old _ _ _ _ _ _ _ l0);
      [assumption | apply (Hwf ns' l0 Hl0) | assumption]. }
  revert Hok Hold.
  destruct (TryUpdate_cases h c r ns l diff)
    as [[_ Hres] | [(_ & _ & Hres) | [(_ & _ & st & _ & Hres)
                                     | (_ & _ & st & Hloop & Hres)]]];
    rewrite Hres; simpl; try discriminate.
  intros _ Hold. exists st. split; [exact Hloop |].
  destruct (hasChanged st) eqn:Hchanged.
  - split; [| split; [reflexivity |]].
    + unfold table_in. simpl. unfold CloneAndReplace.
      now rewrite lookup_insert_eq.
    + intros ns' Hne.
      destruct (attrs c !! ns') as [l0 |] eqn:Hl0.
      * apply (Hold ns' l0 Hl0). unfold CloneAndReplace.
        now rewrite lookup_insert_ne.
      * unfold table_in. simpl. unfold CloneAndReplace.
        rewrite lookup_insert_ne by congruence. now rewrite Hl0.
  - pose proof (update_loop_unchanged _ _ _ _ _ _ _ Hloop Hchanged) as ->.
    cbn [loop_heap loop_diff]. rewrite deref_Clone.
    assert (∀ ns',
              table_in (Clone h (attrs c !! ns)).1
                {| ref := {| ident.ID := ident.ID (ref c);
                             ident.Rev := u32 (ident.Rev r + 1) |};
                   attrs := attrs c; seq := 0; done := done c |} ns'
              = table_in h c ns') as Hsame.
    { intros ns'. destruct (attrs c !! ns') as [l0 |] eqn:Hl0.
      - now apply (Hold ns' l0 Hl0).
      - unfold table_in. simpl. now rewrite Hl0. }
    split; [apply Hsame |]. split; [reflexivity |].
    intros ns' _. apply Hsame.
Qed.

End LocalUpdates.

Section LocalExtras.

Import attrmeta localsession.

Implicit Types (h : gmap loc (gmap string Attr)) (c : catalog)
  (st : loop_state) (a : rinq.Attr) (r : ident.Ref) (s : state).

(** X5: a ref is good for one update.  Once TryUpdate has returned a
    revision for a ref, the catalog has moved to another ref, and every
    further TryUpdate and TryDestroy with the first ref fails with
    StaleUpdate: two updates made with the same ref never both succeed. *)
Theorem TryUpdate_consumes_ref h c r ns (l : list rinq.Attr) diff rv :
  res_out (TryUpdate h c r ns l diff) = Ok rv →
  let c' := res_catalog (TryUpdate h c r ns l diff) in
  ref c' ≠ r
  ∧ (∀ h' ns' (l' : list rinq.Attr) diff',
       res_out (TryUpdate h' c' r ns' l' diff')
       = Err (rinq.StaleUpdateError r))
  ∧ TryDestroy c' r = (c', Some (rinq.StaleUpdateError r)).
Proof.
  intros Hok c'. subst c'.
  destruct (TryUpdate_ok_inv _ _ _ _ _ _ _ Hok) as (Hr & Hrv & Href & _).
  assert (ref (res_catalog (TryUpdate h c r ns l diff)) ≠ r) as Hmoved.
  { rewrite Href, Hrv. destruct r as [i n]. simpl. intros Heq.
    inversion Heq as [Hn]. now apply (u32_succ_neq n). }
  assert (done (res_catalog (TryUpdate h c r ns l diff)) = false) as Hopen.
  { destruct (TryUpdate_cases h c r ns l diff)
      as [[_ Hres] | [(_ & _ & Hres) | [(_ & _ & st & _ & Hres)
                                       | (Hdone & _ & st & _ & Hres)]]];
      rewrite Hres in Hok |- *; simpl in Hok; try discriminate.
    simpl. exact Hdone. }
  split; [exact Hmoved |]. split.
  - intros h' ns' l' diff'.
    destruct (TryUpdate_cases h'
                (res_catalog (TryUpdate h c r ns l diff)) r ns' l' diff')
      as [[Hdone _] | [(_ & _ & ->) | [(_ & Heq & _) | (_ & Heq & _)]]];
      [congruence | reflexivity | now symmetry in Heq | now symmetry in Heq].
  - unfold TryDestroy. rewrite bool_decide_eq_true_2; [reflexivity |].
    intros Heq. now symmetry in Heq.
Qed.

Lemma TryUpdate_consumes_ref_witness :
  let s := samples.fresh_local in
  let r := ident.At samples.sess 0 in
  let c' := res_catalog (TryUpdate s.1 s.2 r "u" [rinq.Set_ "x" "1"] None) in
  res_out (TryUpdate s.1 c' r "u" [rinq.Set_ "x" "2"] None)
  = Err (rinq.StaleUpdateError r).
Proof.
  intros s r c'.
  destruct (TryUpdate_consumes_ref s.1 s.2 r "u" [rinq.Set_ "x" "1"] None
              (mkRevision (ident.At samples.sess 1) (attrs c')))
    as (_ & Hstale & _); [vm_compute; reflexivity |].
  apply Hstale.
Defined.

(** X6: after a TryUpdate that returns a revision, every attribute of the
    request that is not followed in the request by another one for the
    same key is what the namespace holds under its key: same value and
    same frozen flag, where holding nothing counts as the empty,
    non-frozen value. *)
Theorem TryUpdate_stores_request h c r ns (l1 l2 : list rinq.Attr) a diff rv :
  wf_state (h, c) →
  res_out (TryUpdate h c r ns (l1 ++ a :: l2) diff) = Ok rv →
  (∀ b, b ∈ l2 → rinq.Key b ≠ rinq.Key a) →
  let res := TryUpdate h c r ns (l1 ++ a :: l2) diff in
  same_as_stored (table_in (res_heap res) (res_catalog res) ns) a.
Proof.
  intros Hwf Hok Hlast res. subst res.
  destruct (TryUpdate_ok_tables _ _ _ _ _ _ _ Hwf Hok)
    as (st & Hloop & -> & _).
  eapply update_loop_stored; eassumption.
Qed.

Lemma TryUpdate_stores_request_witness :
  let s := samples.frozen_local in
  let res := TryUpdate s.1 s.2 (ident.At samples.sess 1) "ns"
               [rinq.Set_ "b" "y"; rinq.Set_ "n" "1"; rinq.Set_ "b" ""] None in
  table_in (res_heap res) (res_catalog res) "ns" !! "b"
  = Some (mkAttr (rinq.Set_ "b" "") 1 2)
  ∧ same_as_stored (table_in (res_heap res) (res_catalog res) "ns")
      (rinq.Set_ "n" "1").
Proof.
  intros s res. split; [vm_compute; reflexivity |].
  apply (TryUpdate_stores_request s.1 s.2 (ident.At samples.sess 1) "ns"
           [rinq.Set_ "b" "y"] [rinq.Set_ "b" ""] (rinq.Set_ "n" "1") None
           (mkRevision (ident.At samples.sess 2) (attrs (res_catalog res)))).
  - apply (wf_state_run _ samples.fresh_local), wf_state_initial.
  - vm_compute. reflexivity.
  - intros b Hin%list_elem_of_singleton. subst b.
    vm_compute. intros Heq. discriminate Heq.
Defined.

(** X7: a TryUpdate that returns a revision never removes an entry from
    the namespace and never changes the createdAt of a key that had an
    entry; every entry it leaves differs from the one before only if it
    is stamped as updated at the returned revision, and as created at
    that revision if the key had no entry before. *)
Theorem TryUpdate_stamps h c r ns (l : list rinq.Attr) diff rv :
  wf_state (h, c) →
  res_out (TryUpdate h c r ns l diff) = Ok rv →
  let res := TryUpdate h c r ns l diff in
  let t := table_in h c ns in
  let t' := table_in (res_heap res) (res_catalog res) ns in
  updated_at (ident.Rev (rev_ref rv)) t t'
  ∧ (∀ k e, t !! k = Some e →
            ∃ e', t' !! k = Some e' ∧ CreatedAt e' = CreatedAt e).
Proof.
  intros Hwf Hok res t t'. subst res t t'.
  destruct (TryUpdate_ok_tables _ _ _ _ _ _ _ Hwf Hok)
    as (st & Hloop & -> & _).
  destruct (TryUpdate_ok_inv _ _ _ _ _ _ _ Hok) as (_ & -> & _).
  cbn [ident.Rev].
  pose proof (update_loop_updated_at _ _ _ _ _ _ _ Hloop) as Hstamps.
  cbn [loop_heap] in Hstamps. rewrite deref_Clone in Hstamps.
  split; [exact Hstamps |].
  intros k e Hk. unfold table_in in Hk.
  destruct (Hstamps k) as [Hsame | (e' & He' & _ & _ & Hcreated)].
  - exists e. split; [now rewrite Hsame | reflexivity].
  - exists e'. split; [exact He' |]. now rewrite Hcreated, Hk.
Qed.

Lemma TryUpdate_stamps_witness :
  let s := samples.frozen_local in
  let res := TryUpdate s.1 s.2 (ident.At samples.sess 1) "ns"
               [rinq.Set_ "b" "y"; rinq.Set_ "n" "1"] None in
  ∃ e', table_in (res_heap res) (res_catalog res) "ns" !! "b" = Some e'
        ∧ CreatedAt e' = 1.
Proof.
  intros s res.
  destruct (TryUpdate_stamps s.1 s.2 (ident.At samples.sess 1) "ns"
              [rinq.Set_ "b" "y"; rinq.Set_ "n" "1"] None
              (mkRevision (ident.At samples.sess 2) (attrs (res_catalog res))))
    as [_ Hkept].
  - apply (wf_state_run _ samples.fresh_local), wf_state_initial.
  - vm_compute. reflexivity.
  - apply (Hkept "b"%string (mkAttr (rinq.Set_ "b" "x") 1 1)).
    vm_compute. reflexivity.
Defined.

End LocalExtras.

Section LocalInvariants.

Import attrmeta localsession.

Implicit Types (h : gmap loc (gmap string Attr)) (c : catalog)
  (st : loop_state) (a : rinq.Attr) (r : ident.Ref) (s : state).

(** A call that returns no revision leaves the catalog and what every
    namespace reads as they were. *)
Lemma TryUpdate_err_tables h c r ns (l : list rinq.Attr) diff :
  wf_state (h, c) →
  (¬ ∃ rv, res_out (TryUpdate h c r ns l diff) = Ok rv) →
  res_catalog (TryUpdate h c r ns l diff) = c
  ∧ ∀ ns', table_in (res_heap (TryUpdate h c r ns l diff))
                    (res_catalog (TryUpdate h c r ns l diff)) ns'
           = table_in h c ns'.
Proof.
  intros Hwf Hfail.
  destruct (TryUpdate_failure h c r ns l diff Hfail) as [Hcat _].
  split; [exact Hcat |].
  intros ns'. destruct (attrs c !! ns') as [l0 |] eqn:Hl0.
  - apply (TryUpdate_table_old _ _ _ _ _ _ _ l0);
      [assumption | apply (Hwf ns' l0 Hl0) | now rewrite Hcat].
  - unfold table_in. now rewrite Hcat, Hl0.
Qed.

Lemma table_ok_mono (rev rev' : Z) (t : gmap string Attr) :
  rev ≤ rev' → table_ok rev t → table_ok rev' t.
Proof.
  intros Hle Hok k e Hk. destruct (Hok k e Hk) as (? & ? & ?).
  repeat split; try assumption; lia.
Qed.

Lemma table_ok_updated_at (rev : Z) (t t' : gmap string Attr) :
  table_ok rev t → updated_at (rev + 1) t t' → table_ok (rev + 1) t'.
Proof.
  intros Hok Hstamps k e' Hk'.
  destruct (Hstamps k) as [Hsame | (e'' & He'' & Hkey & Hupdated & Hcreated)].
  - rewrite Hsame in Hk'.
    exact (table_ok_mono rev (rev + 1) t ltac:(lia) Hok k e' Hk').
  - assert (e'' = e') as -> by congruence.
    split; [exact Hkey |]. rewrite Hupdated. split; [| lia].
    rewrite Hcreated. destruct (t !! k) as [e |] eqn:Hk; simpl; [| lia].
    destruct (Hok k e Hk) as (_ & ? & ?). lia.
Qed.

Lemma perform_rev (k : call) s :
  ident.Rev (ref (perform k s).2) = ident.Rev (ref s.2)
  ∨ ident.Rev (ref (perform k s).2) = u32 (ident.Rev (ref s.2) + 1).
Proof.
  destruct s as [h c]. destruct k as [| r ns l diff | r |]; simpl;
    try (now left).
  - destruct (res_out (TryUpdate h c r ns l diff)) as [rv | e | msg] eqn:Hout.
    + destruct (TryUpdate_ok_inv _ _ _ _ _ _ _ Hout) as (-> & Hrv & -> & _).
      right. now rewrite Hrv.
    + left. destruct (TryUpdate_failure h c r ns l diff) as [-> _];
        [intros [rv Hok]; congruence | reflexivity].
    + left. destruct (TryUpdate_failure h c r ns l diff) as [-> _];
        [intros [rv Hok]; congruence | reflexivity].
  - left. unfold TryDestroy. now case_bool_decide.
Qed.

Lemma tables_ok_perform (k : call) s :
  wf_state s → tables_ok s →
  0 ≤ ident.Rev (ref s.2) < u32_max →
  tables_ok (perform k s).
Proof.
  destruct s as [h c]. intros Hwf Hok Hrev.
  destruct k as [| r ns l diff | r |]; simpl in *.
  - exact Hok.
  - destruct (res_out (TryUpdate h c r ns l diff)) as [rv | e | msg] eqn:Hout.
    + destruct (TryUpdate_ok_inv _ _ _ _ _ _ _ Hout) as (-> & Hrv & Href & _).
      destruct (TryUpdate_ok_tables _ _ _ _ _ _ _ Hwf Hout)
        as (st & Hloop & Htable & _ & Hothers).
      intros ns'. simpl. rewrite Href, Hrv. cbn [ident.Rev].
      rewrite u32_succ by exact Hrev.
      destruct (decide (ns' = ns)) as [-> | Hne].
      * rewrite Htable. apply (table_ok_updated_at _ (table_in h c ns));
          [apply Hok |].
        pose proof (update_loop_updated_at _ _ _ _ _ _ _ Hloop) as Hstamps.
        cbn [loop_heap] in Hstamps. rewrite deref_Clone in Hstamps.
        rewrite u32_succ in Hstamps by exact Hrev. exact Hstamps.
      * rewrite (Hothers ns' Hne).
        apply (table_ok_mono (ident.Rev (ref c))); [lia | apply Hok].
    + destruct (TryUpdate_err_tables h c r ns l diff Hwf) as [Hcat Htables];
        [intros [rv Hok']; congruence |].
      intros ns'. simpl. rewrite Htables, Hcat. apply Hok.
    + destruct (TryUpdate_err_tables h c r ns l diff Hwf) as [Hcat Htables];
        [intros [rv Hok']; congruence |].
      intros ns'. simpl. rewrite Htables, Hcat. apply Hok.
  - unfold TryDestroy. case_bool_decide; exact Hok.
  - exact Hok.
Qed.

(** X8: as long as the 32-bit revision has not wrapped, every entry of
    every namespace is stored under its own key and has
    createdAt <= updatedAt <= the revision of the catalog.  This holds for
    a new catalog and is kept by every history of calls that cannot take
    the revision past 2^32 - 1. *)
Theorem tables_ok_invariant (ks : list call) s :
  wf_state s → tables_ok s →
  0 ≤ ident.Rev (ref s.2) →
  ident.Rev (ref s.2) + Z.of_nat (length ks) ≤ u32_max →
  tables_ok (run ks s)
  ∧ tables_ok (∅, NewCatalog (ident.ID (ref s.2))).
Proof.
  intros Hwf Hok Hlow Hhigh. split.
  - revert s Hwf Hok Hlow Hhigh.
    induction ks as [| k ks IH]; intros s Hwf Hok Hlow Hhigh; [exact Hok |].
    cbn [length] in Hhigh. simpl. apply IH.
    + now apply wf_state_perform.
    + apply tables_ok_perform; [assumption | assumption | lia].
    + destruct (perform_rev k s) as [-> | ->]; [lia |].
      rewrite u32_succ by lia. lia.
    + destruct (perform_rev k s) as [-> | ->]; [lia |].
      rewrite u32_succ by lia. lia.
  - intros ns k e. unfold table_in, deref. simpl.
    rewrite lookup_empty. simpl. now rewrite lookup_empty.
Qed.

Lemma tables_ok_invariant_witness :
  let s := samples.fresh_local in
  let ks := [CallTryUpdate (ident.At samples.sess 0) "ns"
               [rinq.Freeze "k" "v1"; rinq.Set_ "b" "x"] None;
             CallNextMessageID;
             CallTryUpdate (ident.At samples.sess 1) "ns"
               [rinq.Set_ "b" "y"] None] in
  table_ok 2 (table_in (run ks s).1 (run ks s).2 "ns").
Proof.
  intros s ks.
  assert (tables_ok s) as Hok.
  { intros ns k e. unfold table_in, deref. simpl.
    rewrite lookup_empty. simpl. now rewrite lookup_empty. }
  destruct (tables_ok_invariant ks s) as [Hinv _].
  - apply wf_state_initial.
  - exact Hok.
  - now vm_compute.
  - now vm_compute.
  - exact (Hinv "ns"%string).
Defined.

(** X9: snapshots are immutable.  The attribute table that a catalog hands
    out (with NextMessageID, Head, At or Attrs) reads the same, in every
    namespace, after every history of calls on the catalog. *)
Theorem snapshot_immutable (ks : list call) s (ns : string) :
  wf_state s →
  let snapshot := attrs s.2 in
  deref (run ks s).1 (snapshot !! ns) = deref s.1 (snapshot !! ns).
Proof.
  intros Hwf snapshot. subst snapshot. unfold deref.
  destruct (attrs s.2 !! ns) as [l0 |] eqn:Hl0; [| reflexivity].
  simpl. rewrite snapshot_stable; [reflexivity |].
  apply (Hwf ns l0 Hl0).
Qed.

Lemma snapshot_immutable_witness :
  let s := samples.frozen_local in
  let ks := [CallTryUpdate (ident.At samples.sess 1) "ns"
               [rinq.Set_ "b" "y"] None] in
  table_in (run ks s).1 (run ks s).2 "ns" !! "b"
  = Some (mkAttr (rinq.Set_ "b" "y") 1 2)
  ∧ deref (run ks s).1 ((NextMessageID s.2).2.2 !! "ns") !! "b"
    = Some (mkAttr (rinq.Set_ "b" "x") 1 1).
Proof.
  intros s ks. split; [vm_compute; reflexivity |].
  change ((NextMessageID s.2).2.2) with (attrs s.2).
  rewrite (snapshot_immutable ks s "ns");
    [vm_compute; reflexivity |].
  apply (wf_state_run _ samples.fresh_local), wf_state_initial.
Defined.

(** X10: a revision handle is labelled with the revision asked for but
    reads the current attributes.  After an update, At for the revision
    before it succeeds and returns the previous ref together with the
    updated attribute table; At for the current revision is Head; At for a
    later revision fails. *)
Theorem At_after_update h c r ns (l : list rinq.Attr) diff rv :
  res_out (TryUpdate h c r ns l diff) = Ok rv →
  0 ≤ ident.Rev r < u32_max →
  let c' := res_catalog (TryUpdate h c r ns l diff) in
  At c' (ident.Rev r) = Ok (mkRevision r (rev_attrs rv))
  ∧ At c' (ident.Rev (ref c')) = Ok (Head c')
  ∧ Head c' = rv
  ∧ (∀ rev, ident.Rev (ref c') < rev →
            At c' rev = Err (rinq.OtherError "revision is from the future")).
Proof.
  intros Hok Hrev c'. subst c'.
  destruct (TryUpdate_ok_inv _ _ _ _ _ _ _ Hok) as (Hr & Hrv & Href & _).
  assert (attrs (res_catalog (TryUpdate h c r ns l diff)) = rev_attrs rv)
    as Hattrs.
  { destruct (TryUpdate_cases h c r ns l diff)
      as [[_ Hres] | [(_ & _ & Hres) | [(_ & _ & st & _ & Hres)
                                       | (_ & _ & st & _ & Hres)]]];
      rewrite Hres in Hok |- *; simpl in Hok; try discriminate.
    inversion Hok. reflexivity. }
  unfold At, Head. rewrite Href, Hattrs, Hrv. cbn [ident.Rev ident.ID].
  rewrite u32_succ by exact Hrev.
  repeat split.
  - rewrite (proj2 (Z.ltb_ge _ _)) by lia. destruct r. reflexivity.
  - rewrite Z.ltb_irrefl. reflexivity.
  - destruct rv as [rr ra]. simpl in *.
    rewrite u32_succ in Hrv by exact Hrev. now subst rr.
  - intros rev Hlater. now rewrite (proj2 (Z.ltb_lt _ _) Hlater).
Qed.

Lemma At_after_update_witness :
  let s := samples.frozen_local in
  let res := TryUpdate s.1 s.2 (ident.At samples.sess 1) "ns"
               [rinq.Set_ "b" "y"] None in
  ∃ old,
    At (res_catalog res) 1 = Ok old
    ∧ rev_ref old = ident.At samples.sess 1
    ∧ deref (res_heap res) (rev_attrs old !! "ns") !! "b"
      = Some (mkAttr (rinq.Set_ "b" "y") 1 2).
Proof.
  intros s res.
  destruct (At_after_update s.1 s.2 (ident.At samples.sess 1) "ns"
              [rinq.Set_ "b" "y"] None
              (mkRevision (ident.At samples.sess 2) (attrs (res_catalog res))))
    as (Hold & _); [vm_compute; reflexivity | split; now vm_compute |].
  eexists. split; [exact Hold |]. split; [reflexivity |].
  vm_compute. reflexivity.
Defined.

End LocalInvariants.

Section LocalClosing.

Import attrmeta localsession.

Implicit Types (h : gmap loc (gmap string Attr)) (c : catalog)
  (r : ident.Ref) (s : state).

Lemma perform_closed (k : call) s :
  done s.2 = true →
  (perform k s).1 = s.1
  ∧ done (perform k s).2 = true
  ∧ ref (perform k s).2 = ref s.2
  ∧ attrs (perform k s).2 = attrs s.2.
Proof.
  destruct s as [h c]. simpl. intros Hdone.
  destruct k as [| r ns l diff | r |]; simpl; auto.
  - unfold TryUpdate. rewrite Hdone. simpl. auto.
  - unfold TryDestroy. case_bool_decide; simpl; auto.
Qed.

(** X11: closing is for good.  Once the catalog is closed, whatever is
    called on it afterwards, it stays closed, its ref and its attribute
    tables stay as they are, no table object is written or allocated, and
    every TryUpdate fails with NotFound. *)
Theorem closed_forever (ks : list call) s :
  done s.2 = true →
  (run ks s).1 = s.1
  ∧ done (run ks s).2 = true
  ∧ ref (run ks s).2 = ref s.2
  ∧ attrs (run ks s).2 = attrs s.2
  ∧ (∀ r ns (l : list rinq.Attr) diff,
       res_out (TryUpdate (run ks s).1 (run ks s).2 r ns l diff)
       = Err (rinq.NotFoundError (ident.ID (ref s.2)))).
Proof.
  intros Hdone.
  assert ((run ks s).1 = s.1 ∧ done (run ks s).2 = true
          ∧ ref (run ks s).2 = ref s.2 ∧ attrs (run ks s).2 = attrs s.2)
    as (Hheap & Hclosed & Href & Hattrs).
  { revert s Hdone. induction ks as [| k ks IH]; intros s Hdone; [auto |].
    destruct (perform_closed k s Hdone) as (Hh & Hd & Hr & Ha).
    destruct (IH _ Hd) as (Hh' & Hd' & Hr' & Ha').
    change (run (k :: ks) s) with (run ks (perform k s)).
    rewrite Hh', Hd', Hr', Ha'. auto. }
  repeat split; try assumption.
  intros r ns l diff. unfold TryUpdate. now rewrite Hclosed, Href.
Qed.

Lemma closed_forever_witness :
  let s := samples.frozen_local in
  let closed := perform CallClose s in
  let ks := [CallNextMessageID;
             CallTryUpdate (ident.At samples.sess 1) "ns"
               [rinq.Set_ "b" "y"] None;
             CallTryDestroy (ident.At samples.sess 1)] in
  table_in (run ks closed).1 (run ks closed).2 "ns" = table_in s.1 s.2 "ns"
  ∧ res_out (TryUpdate (run ks closed).1 (run ks closed).2
               (ident.At samples.sess 1) "ns" [] None)
    = Err (rinq.NotFoundError samples.sess).
Proof.
  intros s closed ks.
  destruct (closed_forever ks closed eq_refl)
    as (Hheap & _ & _ & Hattrs & Hnotfound).
  split; [| apply Hnotfound].
  unfold table_in. now rewrite Hheap, Hattrs.
Defined.

(** X12: TryDestroy checks the ref before anything else and never fails
    with NotFound: with the current ref it closes the catalog and returns
    nil, also when the catalog is closed already; with any other ref it
    fails with StaleUpdate and leaves the catalog as it was, also when the
    catalog is closed.  Neither TryDestroy nor Close changes the ref, the
    tables or seq, and doing either twice is the same as doing it once. *)
Theorem TryDestroy_idempotent c r :
  (r = ref c → TryDestroy c r = (Close c, None))
  ∧ (r ≠ ref c → TryDestroy c r = (c, Some (rinq.StaleUpdateError r)))
  ∧ TryDestroy (TryDestroy c r).1 r = TryDestroy c r
  ∧ Close (Close c) = Close c
  ∧ (∀ e, (TryDestroy c r).2 = Some e → e = rinq.StaleUpdateError r)
  ∧ ref (TryDestroy c r).1 = ref c
  ∧ attrs (TryDestroy c r).1 = attrs c
  ∧ seq (TryDestroy c r).1 = seq c.
Proof.
  unfold TryDestroy, Close.
  destruct (decide (r = ref c)) as [Heq | Hne].
  - rewrite bool_decide_eq_false_2 by (intros Hne; now apply Hne).
    simpl. rewrite bool_decide_eq_false_2 by (intros Hne; now apply Hne).
    repeat split; try reflexivity; try congruence;
      intros e Hsome; now inversion Hsome.
  - rewrite bool_decide_eq_true_2 by exact Hne.
    simpl. rewrite bool_decide_eq_true_2 by exact Hne.
    repeat split; try reflexivity; try congruence;
      intros e Hsome; now inversion Hsome.
Qed.

Lemma TryDestroy_idempotent_witness :
  let c := samples.frozen_local.2 in
  done (TryDestroy (TryDestroy c (ident.At samples.sess 1)).1
          (ident.At samples.sess 1)).1 = true
  ∧ TryDestroy (Close c) (ident.At samples.sess 0)
    = (Close c, Some (rinq.StaleUpdateError (ident.At samples.sess 0))).
Proof.
  intros c.
  destruct (TryDestroy_idempotent c (ident.At samples.sess 1))
    as (Hcurrent & _ & Htwice & _).
  destruct (TryDestroy_idempotent (Close c) (ident.At samples.sess 0))
    as (_ & Hstale & _).
  split.
  - rewrite Htwice, Hcurrent; reflexivity.
  - apply Hstale. vm_compute. intros Heq. discriminate Heq.
Defined.

End LocalClosing.

Section LocalDiff.

Import attrmeta localsession.

Implicit Types (h : gmap loc (gmap string Attr)) (c : catalog)
  (st : loop_state) (a : rinq.Attr) (r : ident.Ref).

Lemma concat_snoc (ls : list string) (x : string) :
  String.concat ", " (ls ++ [x])
  = match ls with
    | [] => x
    | _ => String.concat ", " ls +:+ ", " +:+ x
    end.
Proof.
  induction ls as [| s ls IH]; [reflexivity |].
  destruct ls as [| s' ls]; [reflexivity |].
  change (String.concat ", " ((s :: s' :: ls) ++ [x]))
    with (s +:+ ", " +:+ String.concat ", " ((s' :: ls) ++ [x])).
  change (String.concat ", " (s :: s' :: ls))
    with (s +:+ ", " +:+ String.concat ", " (s' :: ls)).
  rewrite IH. now rewrite !append_assoc.
Qed.

(** The diff buffer along the loop: the diff forms of the entries stored
    so far, joined by [", "]. *)
Lemma update_loop_diff r nextRev la (wanted : list rinq.Attr) :
  ∀ (l : list rinq.Attr) st (es : list Attr) st' oe,
    (∀ a, a ∈ l → a ∈ wanted) →
    loop_diff st = Some (String.concat ", " (map (WriteDiff "") es)) →
    (hasChanged st = false ↔ es = []) →
    Forall (λ e, UpdatedAt e = nextRev ∧ attr e ∈ wanted) es →
    update_loop r nextRev la st l = (st', oe) →
    ∃ es',
      loop_diff st' = Some (String.concat ", " (map (WriteDiff "") es'))
      ∧ (hasChanged st' = false ↔ es' = [])
      ∧ Forall (λ e, UpdatedAt e = nextRev ∧ attr e ∈ wanted) es'.
Proof.
  induction l as [| a l IH]; intros st es st' oe Hsub Hdiff Hnone Hall; simpl.
  - intros Heq. inversion Heq; subst. eauto.
  - destruct (update_attr r nextRev la st a) as [e0 | st0] eqn:Hstep.
    + intros Heq. inversion Heq; subst. eauto.
    + assert (∀ b, b ∈ l → b ∈ wanted) as Hsub'
        by (intros b Hin; apply Hsub, elem_of_cons; now right).
      revert Hstep. unfold update_attr.
      destruct (bool_decide (rinq.Value a = _) && bool_decide _);
        [intros Hstep; inversion Hstep; subst; now apply (IH _ es) |].
      case_match; [discriminate |].
      rewrite Hdiff. intros Hstep. inversion Hstep; subst; clear Hstep.
      match goal with
      | |- update_loop _ _ _ (mkLoop _ _ (Some (WriteDiff _ ?entry))) _ = _ → _
        => apply (IH _ (es ++ [entry]))
      end; try assumption.
      * cbn [loop_diff]. f_equal. rewrite map_app. simpl map.
        rewrite concat_snoc. rewrite WriteDiff_prefix. unfold WriteString.
        destruct es as [| e es]; [reflexivity |].
        rewrite bool_decide_eq_true_2; [now rewrite !append_assoc |].
        apply length_nonempty, concat_nonempty; [discriminate |].
        intros s' Hin. apply list_elem_of_fmap in Hin as (e' & -> & _).
        apply WriteDiff_nonempty_output.
      * cbn [hasChanged]. split; [discriminate |].
        intros Hnil. now apply app_nil in Hnil as [_ Hnil].
      * apply Forall_app. split; [exact Hall |].
        apply Forall_singleton. split; [reflexivity |].
        apply Hsub, elem_of_cons. now left.
Qed.

(** X13: given an empty diff buffer, a TryUpdate that returns a revision
    leaves in it what WriteDiffSlice writes for a list of entries, each of
    which carries an attribute of the request and is stamped as updated at
    the returned revision.  When that list is empty, and the buffer with
    it, the catalog has kept the attribute table it had. *)
Theorem TryUpdate_diff h c r ns (l : list rinq.Attr) rv :
  res_out (TryUpdate h c r ns l (Some ""%string)) = Ok rv →
  let res := TryUpdate h c r ns l (Some ""%string) in
  ∃ entries,
    res_diff res = Some (WriteDiffSlice "" entries)
    ∧ Forall (λ e, UpdatedAt e = ident.Rev (rev_ref rv) ∧ attr e ∈ l) entries
    ∧ (entries = [] → attrs (res_catalog res) = attrs c).
Proof.
  intros Hok res. subst res.
  destruct (TryUpdate_ok_inv _ _ _ _ _ _ _ Hok) as (_ & -> & _).
  cbn [ident.Rev].
  revert Hok.
  destruct (TryUpdate_cases h c r ns l (Some ""%string))
    as [[_ Hres] | [(_ & _ & Hres) | [(_ & _ & st & _ & Hres)
                                     | (_ & _ & st & Hloop & Hres)]]];
    rewrite Hres; simpl; try discriminate.
  intros _.
  destruct (update_loop_diff r (u32 (ident.Rev r + 1))
              (Clone h (attrs c !! ns)).2 l l
              (mkLoop (Clone h (attrs c !! ns)).1 false (Some ""%string))
              [] st None
              (λ a Hin, Hin) eq_refl (conj (λ _, eq_refl) (λ _, eq_refl))
              ltac:(constructor) Hloop)
    as (entries & Hdiff & Hnone & Hall).
  exists entries. split; [| split; [exact Hall |]].
  - rewrite Hdiff. f_equal.
    now rewrite WriteDiffSlice_concat.
  - intros Hnil. now rewrite (proj2 Hnone Hnil).
Qed.

Lemma TryUpdate_diff_witness :
  let s := samples.frozen_local in
  let res := TryUpdate s.1 s.2 (ident.At samples.sess 1) "ns"
               [rinq.Set_ "b" "y"; rinq.Freeze "k" "v1"; rinq.Freeze "n" "1"]
               (Some ""%string) in
  res_diff res = Some "b=y, +n@1"%string
  ∧ ∃ entries, res_diff res = Some (WriteDiffSlice "" entries).
Proof.
  intros s res. split; [vm_compute; reflexivity |].
  destruct (TryUpdate_diff s.1 s.2 (ident.At samples.sess 1) "ns"
              [rinq.Set_ "b" "y"; rinq.Freeze "k" "v1"; rinq.Freeze "n" "1"]
              (mkRevision (ident.At samples.sess 2) (attrs (res_catalog res))))
    as (entries & Hdiff & _); [vm_compute; reflexivity |].
  exists entries. exact Hdiff.
Defined.

End LocalDiff.

(* ========================================================================= *)
(** * Sessions *)

Section SessionExtras.

Import localsession.

Context {Constraint : Type}.
Variable Validate : string → option rinq.error.
Variable ValidateSessionID : ident.SessionID → option rinq.error.
Variable SessionIDString : ident.SessionID → string.

Implicit Types (sv : services Constraint) (s : session).

#[local] Abbreviation Call := (Call Constraint Validate).
#[local] Abbreviation CallAsync := (CallAsync Constraint Validate).
#[local] Abbreviation Execute := (Execute Constraint Validate).
#[local] Abbreviation Notify :=
  (Notify Constraint Validate ValidateSessionID SessionIDString).
#[local] Abbreviation NotifyMany := (NotifyMany Constraint Validate).
#[local] Abbreviation Listen := (Listen Constraint Validate).
#[local] Abbreviation Unlisten := (Unlisten Constraint Validate).
#[local] Abbreviation destroy := (@destroy Constraint).
#[local] Abbreviation SetAsyncHandler := (@SetAsyncHandler Constraint).

(** X14: destroying a session closes its catalog, withdraws the async
    handler and every listener, and returns true; destroying it again does
    nothing and returns false.  After that the catalog rejects every
    update with NotFound, and the session is left exactly as the first
    call left it. *)
Theorem destroy_once s :
  sess_done s = false →
  let s' := (destroy s).1.1 in
  destroy s
  = (mkSession (sess_id s) (Close (sess_catalog s)) true,
     [ReqSetAsyncHandler (sess_id s) false; ReqUnlistenAll (sess_id s)],
     true)
  ∧ destroy s' = (s', [], false)
  ∧ CurrentRevision s' = Err (rinq.NotFoundError (sess_id s))
  ∧ (∀ h r ns (l : list rinq.Attr) diff,
       res_out (TryUpdate h (sess_catalog s') r ns l diff)
       = Err (rinq.NotFoundError (ident.ID (ref (sess_catalog s))))).
Proof.
  intros Hlive s'. subst s'. unfold localsession.destroy, CurrentRevision.
  rewrite Hlive. simpl. repeat split.
Qed.

(** X15: a destroyed session does nothing any more.  Every request made
    through it with a valid namespace fails with NotFound, hands nothing
    to the invoker, the notifier or the listener, and allocates no message
    ID; with an invalid namespace the validation error is returned
    instead. *)
Theorem destroyed_session sv s ns (cmd t : string) (con : Constraint)
  (target : ident.SessionID) (p : option string) :
  sess_done s = true →
  let gone := rinq.NotFoundError (sess_id s) in
  (Validate ns = None →
   Call sv s ns cmd p = (s, [], (None, Some gone))
   ∧ CallAsync sv s ns cmd p = (s, [], (zeroMessageID, Some gone))
   ∧ Execute sv s ns cmd p = (s, [], Some gone)
   ∧ NotifyMany sv s ns t con p = (s, [], Some gone)
   ∧ (ValidateSessionID target = None → ident.SessSeq target ≠ 0 →
      Notify sv s ns t target p = (s, [], Some gone))
   ∧ Listen sv s ns true = (s, [], Err gone)
   ∧ Unlisten sv s ns = (s, [], Some gone))
  ∧ SetAsyncHandler s = (s, [], Some gone)
  ∧ (∀ err, Validate ns = Some err →
       Call sv s ns cmd p = (s, [], (None, Some err))
       ∧ CallAsync sv s ns cmd p = (s, [], (zeroMessageID, Some err))
       ∧ Execute sv s ns cmd p = (s, [], Some err)
       ∧ NotifyMany sv s ns t con p = (s, [], Some err)
       ∧ Listen sv s ns true = (s, [], Err err)
       ∧ Unlisten sv s ns = (s, [], Some err)).
Proof.
  intros Hdone gone. subst gone.
  unfold localsession.Call, localsession.CallAsync, localsession.Execute,
    localsession.NotifyMany, localsession.Notify, localsession.Listen,
    localsession.Unlisten, localsession.SetAsyncHandler.
  rewrite Hdone. split; [| split; [reflexivity |]].
  - intros ->. repeat split. intros Htarget Hseq.
    rewrite bool_decide_eq_false_2 by (intros Hne; now apply Hne).
    now rewrite bool_decide_eq_false_2.
  - intros err ->. repeat split.
Qed.

(** The message ID that follows is never the one just allocated. *)
Lemma allocate_fresh s :
  (allocate (allocate s).1).2 ≠ (allocate s).2
  ∧ ident.MsgRef (allocate (allocate s).1).2 = ident.MsgRef (allocate s).2
  ∧ (allocate s).2
    = ident.Message (ref (sess_catalog s)) (u32 (seq (sess_catalog s) + 1)).
Proof.
  unfold allocate, NextMessageID. simpl. repeat split.
  intros Heq. inversion Heq as [Hseq].
  now apply (u32_succ_neq (u32 (seq (sess_catalog s) + 1))).
Qed.

(** X16: every request that a live session sends carries a message ID of
    its own.  With a valid namespace, Call, CallAsync, Execute, Notify and
    NotifyMany each allocate one message ID from the catalog (the current
    ref with the next seq), hand exactly one request with that ID to the
    collaborator and return its answer; the ID allocated next shares the
    ref and differs from it. *)
Theorem live_session_sends sv s ns (cmd t : string) (con : Constraint)
  (target : ident.SessionID) (p : option string) :
  sess_done s = false →
  Validate ns = None →
  let m := (allocate s).2 in
  let s' := (allocate s).1 in
  m = ident.Message (ref (sess_catalog s)) (u32 (seq (sess_catalog s) + 1))
  ∧ (allocate s').2 ≠ m
  ∧ ident.MsgRef (allocate s').2 = ident.MsgRef m
  ∧ Call sv s ns cmd p
    = (s', [ReqCallBalanced m ns cmd p],
       ((CallBalanced _ sv m ns cmd p).1.2, (CallBalanced _ sv m ns cmd p).2))
  ∧ CallAsync sv s ns cmd p
    = (s', [ReqCallBalancedAsync m ns cmd p],
       (m, (CallBalancedAsync _ sv m ns cmd p).2))
  ∧ Execute sv s ns cmd p
    = (s', [ReqExecuteBalanced m ns cmd p],
       (ExecuteBalanced _ sv m ns cmd p).2)
  ∧ NotifyMany sv s ns t con p
    = (s', [ReqNotifyMulticast m con ns t p],
       (NotifyMulticast _ sv m con ns t p).2)
  ∧ (ValidateSessionID target = None → ident.SessSeq target ≠ 0 →
     Notify sv s ns t target p
     = (s', [ReqNotifyUnicast m target ns t p],
        (NotifyUnicast _ sv m target ns t p).2)).
Proof.
  intros Hlive Hvalid m s'. subst m s'.
  destruct (allocate_fresh s) as (Hfresh & Href & Hm).
  split; [exact Hm |]. split; [exact Hfresh |]. split; [exact Href |].
  unfold localsession.Call, localsession.CallAsync, localsession.Execute,
    localsession.NotifyMany, localsession.Notify.
  rewrite Hvalid, Hlive.
  destruct (allocate s) as [s' m] eqn:Halloc. cbn [fst snd].
  split; [now destruct (CallBalanced _ sv m ns cmd p) as [[? ?] ?] |].
  split; [now destruct (CallBalancedAsync _ sv m ns cmd p) as [? ?] |].
  split; [now destruct (ExecuteBalanced _ sv m ns cmd p) as [? ?] |].
  split; [now destruct (NotifyMulticast _ sv m con ns t p) as [? ?] |].
  intros Htarget Hseq.
  rewrite bool_decide_eq_false_2 by (intros Hne; now apply Hne).
  rewrite bool_decide_eq_false_2 by exact Hseq. simpl.
  now destruct (NotifyUnicast _ sv m target ns t p) as [? ?].
Qed.

End SessionExtras.

Section SessionSamples.

Import localsession.

Lemma destroy_once_witness :
  let s := samples.live_session in
  let s' := (destroy unit s).1.1 in
  destroy unit s' = (s', [], false)
  ∧ res_out (TryUpdate samples.frozen_local.1 (sess_catalog s')
               (ident.At samples.sess 1) "ns" [] None)
    = Err (rinq.NotFoundError samples.sess).
Proof.
  intros s s'.
  destruct (destroy_once (Constraint := unit) s eq_refl)
    as (_ & Htwice & _ & Hclosed).
  split; [exact Htwice | apply Hclosed].
Defined.

Lemma destroyed_session_witness :
  let s := (destroy unit samples.live_session).1.1 in
  Call unit samples.validate_namespace samples.accepting s "math" "add"
    (Some "1,2"%string)
  = (s, [], (None, Some (rinq.NotFoundError samples.sess)))
  ∧ Execute unit samples.validate_namespace samples.accepting s "" "add" None
    = (s, [], Some (rinq.OtherError "namespace must not be empty")).
Proof.
  intros s.
  destruct (destroyed_session samples.validate_namespace
              samples.validate_session (λ _, ""%string) samples.accepting s
              "math" "add" "t" tt samples.sess (Some "1,2"%string) eq_refl)
    as (Hgone & _ & _).
  destruct (destroyed_session samples.validate_namespace
              samples.validate_session (λ _, ""%string) samples.accepting s
              "" "add" "t" tt samples.sess None eq_refl)
    as (_ & _ & Hinvalid).
  split.
  - exact (proj1 (Hgone eq_refl)).
  - exact (proj1 (proj2 (proj2 (Hinvalid _ eq_refl)))).
Defined.

Lemma live_session_sends_witness :
  let s := samples.live_session in
  Call unit samples.validate_namespace samples.accepting s "math" "add"
    (Some "1,2"%string)
  = ((allocate s).1,
     [ReqCallBalanced (ident.Message (ident.At samples.sess 1) 1)
        "math" "add" (Some "1,2"%string)],
     (Some "3"%string, None))
  ∧ (allocate (allocate s).1).2 ≠ ident.Message (ident.At samples.sess 1) 1.
Proof.
  intros s.
  destruct (live_session_sends samples.validate_namespace
              samples.validate_session (λ _, ""%string) samples.accepting s
              "math" "add" "t" tt samples.sess (Some "1,2"%string)
              eq_refl eq_refl)
    as (_ & Hfresh & _ & Hcall & _).
  split; [exact Hcall | exact Hfresh].
Defined.

End SessionSamples.

(* ========================================================================= *)
(** * More on the remote catalog *)

Section RemoteState.

Import remotesession.

Implicit Types (c : catalog) (cl : client)
  (nsc : option (gmap string cachedAttr)).

Lemma updateState_spec c rev err :
  id (updateState c rev err) = id c
  ∧ cache (updateState c rev err) = cache c
  ∧ highestRev c ≤ highestRev (updateState c rev err)
  ∧ (isClosed c = true → isClosed (updateState c rev err) = true)
  ∧ (err = None →
     highestRev (updateState c rev err) = Z.max (highestRev c) rev
     ∧ isClosed (updateState c rev err) = isClosed c)
  ∧ (∀ e, err = Some e →
          highestRev (updateState c rev err) = highestRev c
          ∧ isClosed (updateState c rev err)
            = isClosed c || rinq.IsNotFound e).
Proof.
  unfold updateState. destruct err as [e |].
  - destruct (rinq.IsNotFound e) eqn:Hnf; simpl;
      (split; [reflexivity |]); (split; [reflexivity |]);
      (split; [lia |]); (split; [tauto |]); (split; [discriminate |]);
      intros e' Heq; inversion Heq; subst e'; rewrite Hnf;
      (split; [reflexivity |]);
      [now rewrite orb_true_r | now rewrite orb_false_r].
  - destruct (highestRev c <? rev) eqn:Hlt; simpl;
      [apply Z.ltb_lt in Hlt | apply Z.ltb_ge in Hlt];
      (split; [reflexivity |]); (split; [reflexivity |]);
      (split; [lia |]); (split; [tauto |]);
      (split; [intros _; split; [lia | reflexivity] |]);
      intros e' Heq; discriminate.
Qed.

#[local] Ltac scalars :=
  cbn [head_catalog fetch_catalog update_catalog fst snd
       id highestRev isClosed run foldl];
  (split; [first [assumption | reflexivity] |]);
  (split; [first [assumption | lia]
          | first [assumption | tauto | discriminate | intros; congruence]]).

(** What a call does to the scalar state of the catalog. *)
Lemma perform_scalars c (k : client * call) :
  id (perform c k) = id c
  ∧ highestRev c ≤ highestRev (perform c k)
  ∧ (isClosed c = true → isClosed (perform c k) = true).
Proof.
  destruct k as [cl k]. unfold perform. cbn [fst snd].
  destruct k as [| rev | rev ns keys | rev ns l | rev].
  - unfold Head. destruct (isClosed c) eqn:Hclosed; [scalars |].
    destruct (client_Fetch cl (id c) "" []) as [[rev attrs] err].
    destruct (updateState_spec c rev err) as (Hid & _ & Hrev & Hcl & _).
    destruct err; scalars.
  - unfold At. destruct (isClosed c) eqn:Hclosed; [scalars |].
    destruct (updateState_spec c rev None) as (Hid & _ & Hrev & Hcl & _).
    scalars.
  - unfold Fetch.
    destruct (fetchLocal c rev ns keys) as [[solved unsolved] [e |]];
      [scalars |].
    case_bool_decide; [scalars |].
    destruct (client_Fetch cl (id c) ns unsolved)
      as [[fetchedRev fetchedAttrs] err].
    destruct (updateState_spec c fetchedRev err) as (Hid & _ & Hrev & Hcl & _).
    destruct err; [scalars |].
    case_bool_decide; [scalars |].
    destruct (merge_cache _); destruct (isStaleFetch _); scalars.
  - unfold TryUpdate. destruct (isClosed c) eqn:Hclosed; [scalars |].
    destruct (rev <? highestRev c); [scalars |].
    destruct (filter_loop _ _ _ l []) as [e | updateAttrs]; [scalars |].
    destruct (client_Update cl _ ns updateAttrs)
      as [[updatedRev returnedAttrs] err].
    destruct (updateState_spec c updatedRev err) as (Hid & _ & Hrev & Hcl & _).
    destruct err; [scalars |].
    destruct (update_merge_loop _ _ _) as [[m |] |]; scalars.
  - unfold TryDestroy. destruct (isClosed c) eqn:Hclosed; [scalars |].
    destruct (rev <? highestRev c); [scalars |].
    destruct (client_Close cl _); scalars.
Qed.

Lemma run_scalars (ks : list (client * call)) c :
  id (run ks c) = id c
  ∧ highestRev c ≤ highestRev (run ks c)
  ∧ (isClosed c = true → isClosed (run ks c) = true).
Proof.
  revert c. induction ks as [| k ks IH]; intros c; [scalars |].
  change (run (k :: ks) c) with (run ks (perform c k)).
  destruct (IH (perform c k)) as (Hid & Hrev & Hclosed).
  destruct (perform_scalars c k) as (Hid' & Hrev' & Hclosed').
  rewrite Hid, Hid'. repeat split; [lia | auto].
Qed.

(** X17: a remote catalog never reopens and never forgets a revision.
    Through every history of calls, whatever the remote peer answers, the
    session ID stays the same, highestRev never decreases, and a catalog
    that is closed stays closed. *)
Theorem remote_state_monotone (ks : list (client * call)) c :
  id (run ks c) = id c
  ∧ highestRev c ≤ highestRev (run ks c)
  ∧ (isClosed c = true → isClosed (run ks c) = true).
Proof. apply run_scalars. Qed.

Lemma remote_state_monotone_witness :
  let c := samples.cached_remote in
  let ks := [(samples.remote_peer, CallTryDestroy 10);
             (samples.remote_peer, CallFetch 11 "ns" ["k"%string]);
             (samples.remote_peer, CallAt 12)] in
  isClosed (run ks c) = true ∧ highestRev (run ks c) = 10.
Proof.
  intros c ks.
  destruct (remote_state_monotone
              [(samples.remote_peer, CallFetch 11 "ns" ["k"%string]);
               (samples.remote_peer, CallAt 12)]
              (perform c (samples.remote_peer, CallTryDestroy 10)))
    as (_ & _ & Hclosed).
  split; [exact (Hclosed eq_refl) | vm_compute; reflexivity].
Defined.

Lemma fetchLocal_loop_error c rev nsc (keys : list string)
  (solved solved' : list rinq.Attr) (unsolved unsolved' : list string) e :
  fetchLocal_loop c rev nsc keys solved unsolved
  = (solved', unsolved', Some e) →
  e = rinq.StaleFetchError (ident.At (id c) rev).
Proof.
  revert solved unsolved.
  induction keys as [| key keys IH]; intros solved unsolved; simpl;
    [discriminate |].
  repeat case_match; try apply IH. intros Heq. now inversion Heq.
Qed.

Lemma Fetch_closed cl c rev ns (keys : list string) :
  isClosed c = true →
  fetch_catalog (Fetch cl c rev ns keys) = c
  ∧ fetch_rpcs (Fetch cl c rev ns keys) = []
  ∧ (∀ e, fetch_out (Fetch cl c rev ns keys) = Err e →
          e = rinq.NotFoundError (id c)
          ∨ e = rinq.StaleFetchError (ident.At (id c) rev)).
Proof.
  intros Hclosed. unfold Fetch, fetchLocal.
  destruct (fetchLocal_loop c rev (cache c !! ns) keys [] [])
    as [[solved unsolved] [e |]] eqn:Hloop.
  - repeat split. intros e' Heq. inversion Heq; subst e'. right.
    eapply fetchLocal_loop_error; eassumption.
  - rewrite Hclosed. destruct unsolved as [| key unsolved].
    + repeat split. discriminate.
    + repeat split. intros e' Heq. inversion Heq. now left.
Qed.

(** X18: a closed remote catalog stays off the network.  Head, TryUpdate
    and TryDestroy fail with NotFound, At returns the closed sentinel, and
    Fetch answers from the cache alone: it returns what the cache solves,
    or StaleFetch, or NotFound when some key is left unsolved.  None of
    them sends a request or changes the catalog.  A Fetch without keys
    returns no attributes and no error, on a closed catalog too. *)
Theorem closed_remote_catalog cl c rev ns (keys : list string)
  (l : list rinq.Attr) :
  isClosed c = true →
  Head cl c = mkHeadResult c [] (Err (rinq.NotFoundError (id c)))
  ∧ At c rev = (c, ClosedRevision (ident.At (id c) rev))
  ∧ TryUpdate cl c rev ns l
    = mkUpdateResult c [] (Err (rinq.NotFoundError (id c)))
  ∧ TryDestroy cl c rev = (c, [], Some (rinq.NotFoundError (id c)))
  ∧ fetch_catalog (Fetch cl c rev ns keys) = c
  ∧ fetch_rpcs (Fetch cl c rev ns keys) = []
  ∧ (∀ e, fetch_out (Fetch cl c rev ns keys) = Err e →
          e = rinq.NotFoundError (id c)
          ∨ e = rinq.StaleFetchError (ident.At (id c) rev))
  ∧ Fetch cl c rev ns [] = mkFetchResult c [] (Ok []).
Proof.
  intros Hclosed. unfold Head, At, TryUpdate, TryDestroy.
  rewrite Hclosed.
  destruct (Fetch_closed cl c rev ns keys Hclosed) as (Hcat & Hrpcs & Herr).
  repeat split; assumption.
Qed.

Lemma closed_remote_catalog_witness :
  let c := samples.cached_remote in
  let closed := mkCatalog (id c) (highestRev c) (cache c) true in
  fetch_out (Fetch samples.remote_peer closed 11 "ns" ["f"%string])
  = Ok [rinq.Freeze "f" "x"]
  ∧ fetch_out (Fetch samples.remote_peer closed 11 "ns"
                 ["f"%string; "k"%string])
    = Err (rinq.NotFoundError samples.sess)
  ∧ fetch_rpcs (Fetch samples.remote_peer closed 11 "ns"
                  ["f"%string; "k"%string]) = [].
Proof.
  intros c closed.
  destruct (closed_remote_catalog samples.remote_peer closed 11 "ns"
              ["f"%string; "k"%string] [] eq_refl)
    as (_ & _ & _ & _ & _ & Hrpcs & _).
  split; [vm_compute; reflexivity |]. split; [vm_compute; reflexivity |].
  exact Hrpcs.
Defined.

(** ** Answers of the remote peer *)

Lemma Head_ok cl c rv :
  head_out (Head cl c) = Ok rv →
  isClosed c = false
  ∧ rv = mkRevision (ident.At (id c) (highestRev (head_catalog (Head cl c))))
  ∧ highestRev c ≤ highestRev (head_catalog (Head cl c)).
Proof.
  unfold Head. destruct (isClosed c) eqn:Hclosed; [discriminate |].
  destruct (client_Fetch cl (id c) "" []) as [[rev attrs] err].
  destruct (updateState_spec c rev err) as (Hid & _ & Hrev & _).
  destruct err; [discriminate |]. cbn [head_out head_catalog].
  rewrite Hid. intros Heq. inversion Heq. auto.
Qed.

Lemma At_open c rev :
  isClosed (At c rev).1 = false →
  isClosed c = false
  ∧ id (At c rev).1 = id c
  ∧ highestRev (At c rev).1 = Z.max (highestRev c) rev.
Proof.
  unfold At. destruct (isClosed c) eqn:Hc; cbn [fst]; [congruence |].
  destruct (updateState_spec c rev None) as (Hid & _ & _ & _ & Hmax & _).
  destruct (Hmax eq_refl) as [Hmax' _]. auto.
Qed.

(** X19: Head never goes back.  The revision that Head returns is at least
    every revision the catalog has been asked about with At before,
    whatever was called in between and even when the remote peer answers
    with an older revision; it is the revision of the catalog's own
    session. *)
Theorem Head_never_older cl (ks : list (client * call)) c rev rv :
  head_out (Head cl (run ks (At c rev).1)) = Ok rv →
  rev ≤ ident.Rev (rev_ref rv)
  ∧ highestRev c ≤ ident.Rev (rev_ref rv)
  ∧ ident.ID (rev_ref rv) = id c.
Proof.
  intros Hok. destruct (Head_ok _ _ _ Hok) as (Hopen & -> & Hrev).
  destruct (run_scalars ks (At c rev).1) as (Hid & Hrun & Hclosed).
  cbn [rev_ref ident.Rev ident.ID ident.At]. rewrite Hid.
  destruct (At_open c rev) as (_ & Hid' & Hmax).
  { destruct (isClosed (At c rev).1); [| reflexivity].
    rewrite Hclosed in Hopen by reflexivity. discriminate. }
  rewrite Hid'. repeat split; lia.
Qed.

Lemma Head_never_older_witness :
  let c := samples.cached_remote in
  ∃ rv,
    head_out (Head samples.remote_peer (At c 12).1) = Ok rv
    ∧ rev_ref rv = ident.At samples.sess 12.
Proof.
  intros c.
  assert (head_out (Head samples.remote_peer (run [] (At c 12).1))
          = Ok (mkRevision (ident.At samples.sess 12))) as Hok
    by (vm_compute; reflexivity).
  destruct (Head_never_older samples.remote_peer [] c 12 _ Hok)
    as (Hrev & _ & _).
  eexists. split; [exact Hok | reflexivity].
Defined.

(** X20: an answer that the session is not found closes the catalog when
    it answers Head, Fetch or TryUpdate, and the error is passed on.
    TryDestroy passes every error on but leaves the catalog as it was,
    open, on a not-found answer as on any other; it closes the catalog
    when the remote peer accepts. *)
Theorem not_found_answers cl c rev ns (keys : list string)
  (l : list rinq.Attr) :
  isClosed c = false →
  (∀ e, head_out (Head cl c) = Err e → rinq.IsNotFound e = true →
        isClosed (head_catalog (Head cl c)) = true)
  ∧ (∀ e, fetch_out (Fetch cl c rev ns keys) = Err e →
          rinq.IsNotFound e = true →
          isClosed (fetch_catalog (Fetch cl c rev ns keys)) = true)
  ∧ (∀ e, update_out (TryUpdate cl c rev ns l) = Err e →
          rinq.IsNotFound e = true →
          isClosed (update_catalog (TryUpdate cl c rev ns l)) = true)
  ∧ (highestRev c ≤ rev →
     TryDestroy cl c rev
     = match client_Close cl (ident.At (id c) rev) with
       | Some e => (c, [RpcClose (ident.At (id c) rev)], Some e)
       | None =>
           (mkCatalog (id c) (highestRev c) (cache c) true,
            [RpcClose (ident.At (id c) rev)], None)
       end).
Proof.
  intros Hopen. split; [| split; [| split]].
  - unfold Head. rewrite Hopen.
    destruct (client_Fetch cl (id c) "" []) as [[rev0 attrs] [e0 |]];
      [| discriminate].
    simpl. intros e Heq Hnf. inversion Heq; subst. now rewrite Hnf.
  - unfold Fetch, fetchLocal.
    destruct (fetchLocal_loop c rev (cache c !! ns) keys [] [])
      as [[solved unsolved] [e0 |]] eqn:Hloop.
    + intros e Heq Hnf. inversion Heq; subst.
      rewrite (fetchLocal_loop_error _ _ _ _ _ _ _ _ _ Hloop) in Hnf.
      discriminate.
    + rewrite Hopen, andb_false_r.
      case_bool_decide; [discriminate |].
      destruct (client_Fetch cl (id c) ns unsolved)
        as [[fetchedRev fetchedAttrs] [e0 |]].
      * simpl. intros e Heq Hnf. inversion Heq; subst. now rewrite Hnf.
      * case_bool_decide; [discriminate |].
        destruct (isStaleFetch _); [| discriminate].
        intros e Heq Hnf. inversion Heq; subst. discriminate.
  - unfold TryUpdate. rewrite Hopen.
    destruct (rev <? highestRev c);
      [intros e Heq Hnf; inversion Heq; subst; discriminate |].
    destruct (filter_loop _ _ _ l []) as [e0 | updateAttrs] eqn:Hfilter.
    + intros e Heq Hnf. inversion Heq; subst.
      rewrite (filter_loop_error _ _ _ _ _ _ Hfilter) in Hnf. discriminate.
    + destruct (client_Update cl _ ns updateAttrs)
        as [[updatedRev returnedAttrs] [e0 |]].
      * simpl. intros e Heq Hnf. inversion Heq; subst. now rewrite Hnf.
      * destruct (update_merge_loop _ _ _) as [[m |] |]; discriminate.
  - intros Hfresh. unfold TryDestroy. rewrite Hopen.
    now rewrite (proj2 (Z.ltb_ge _ _) Hfresh).
Qed.

Lemma not_found_answers_witness :
  let c := samples.cached_remote in
  isClosed (head_catalog (Head samples.gone_peer c)) = true
  ∧ TryDestroy samples.gone_peer c 10
    = (c, [RpcClose (ident.At samples.sess 10)],
       Some (rinq.NotFoundError samples.sess)).
Proof.
  intros c.
  destruct (not_found_answers samples.gone_peer c 10 "ns" ["k"%string] []
              eq_refl) as (Hhead & _ & _ & Hdestroy).
  split.
  - exact (Hhead (rinq.NotFoundError samples.sess) eq_refl eq_refl).
  - exact (Hdestroy ltac:(simpl; lia)).
Defined.

End RemoteState.

(* ------------------------------------------------------------------------- *)
(** * The cache of the remote catalog *)

Section RemoteCache.

Import remotesession.

Lemma merge_attr_cache rev fetchedRev st a :
  merge_cache (merge_attr rev fetchedRev st a)
  = if FetchedAt (default zeroCached
                    (lookup_ns (merge_cache st) (attrmeta.Key a)))
       <? fetchedRev
    then Some (<[attrmeta.Key a := mkCachedAttr a fetchedRev]>
                 (default ∅ (merge_cache st)))
    else merge_cache st.
Proof.
  unfold merge_attr.
  destruct (isStaleFetch st); [reflexivity |].
  destruct (rev <? attrmeta.CreatedAt a); [reflexivity |].
  destruct (rev <? attrmeta.UpdatedAt a); reflexivity.
Qed.

Lemma merge_attr_keeps rev fetchedRev st a key entry :
  lookup_ns (merge_cache st) key = Some entry →
  ∃ entry',
    lookup_ns (merge_cache (merge_attr rev fetchedRev st a)) key = Some entry'
    ∧ (entry' = entry ∨ FetchedAt entry < FetchedAt entry').
Proof.
  intros Hkey. rewrite merge_attr_cache.
  destruct (merge_cache st) as [m |] eqn:Hm; [| discriminate].
  cbn in Hkey. cbn [default lookup_ns mbind option_bind].
  destruct (FetchedAt (default zeroCached (m !! attrmeta.Key a)) <? fetchedRev)
    eqn:Hnew; [| eauto].
  apply Z.ltb_lt in Hnew. cbn.
  destruct (decide (attrmeta.Key a = key)) as [<- | Hne].
  - rewrite lookup_insert_eq. rewrite Hkey in Hnew. cbn in Hnew.
    eexists. split; [reflexivity |]. right. exact Hnew.
  - rewrite lookup_insert_ne by assumption. eauto.
Qed.

Lemma merge_loop_keeps rev fetchedRev st l key entry :
  lookup_ns (merge_cache st) key = Some entry →
  ∃ entry',
    lookup_ns (merge_cache (merge_loop rev fetchedRev st l)) key = Some entry'
    ∧ (entry' = entry ∨ FetchedAt entry < FetchedAt entry').
Proof.
  revert st entry. induction l as [| a l IH]; intros st entry Hkey;
    [cbn; eauto |].
  destruct (merge_attr_keeps rev fetchedRev st a key entry Hkey)
    as (e1 & H1 & Hle1).
  destruct (IH _ _ H1) as (e2 & H2 & Hle2).
  exists e2. split; [exact H2 |].
  destruct Hle1 as [-> | Hlt1]; [exact Hle2 |].
  destruct Hle2 as [-> | Hlt2]; right; lia.
Qed.

Lemma update_merge_loop_keeps updatedRev nsc l out key entry :
  update_merge_loop updatedRev nsc l = Some out →
  lookup_ns nsc key = Some entry →
  ∃ entry',
    lookup_ns out key = Some entry'
    ∧ (entry' = entry ∨ FetchedAt entry < FetchedAt entry').
Proof.
  revert nsc entry. induction l as [| a l IH]; intros nsc entry Hout Hkey.
  - cbn in Hout. inversion Hout; subst. eauto.
  - cbn [update_merge_loop] in Hout.
    destruct nsc as [m |]; [| discriminate]. cbn in Hkey.
    cbn [lookup_ns mbind option_bind] in Hout.
    destruct (FetchedAt (default zeroCached (m !! attrmeta.Key a))
              <? updatedRev) eqn:Hnew; [| eauto].
    apply Z.ltb_lt in Hnew.
    destruct (decide (attrmeta.Key a = key)) as [<- | Hne].
    + rewrite Hkey in Hnew. cbn in Hnew.
      destruct (IH _ (mkCachedAttr a updatedRev) Hout) as (e2 & H2 & Hle2).
      { cbn. apply lookup_insert_eq. }
      exists e2. split; [exact H2 |]. cbn in Hle2.
      destruct Hle2 as [-> | Hlt2]; right; cbn; lia.
    + apply (IH _ entry Hout). cbn. now rewrite lookup_insert_ne.
Qed.

Lemma cache_grows_refl c : cache_grows c c.
Proof. intros ns key entry Hkey. eauto. Qed.

Lemma cache_grows_same c c' : cache c' = cache c → cache_grows c c'.
Proof. intros Heq ns key entry Hkey. rewrite Heq. eauto. Qed.

Lemma cache_grows_trans c1 c2 c3 :
  cache_grows c1 c2 → cache_grows c2 c3 → cache_grows c1 c3.
Proof.
  intros H12 H23 ns key entry Hkey.
  destruct (H12 _ _ _ Hkey) as (e2 & H2 & Hle2).
  destruct (H23 _ _ _ H2) as (e3 & H3 & Hle3).
  exists e3. split; [exact H3 |].
  destruct Hle2 as [-> | Hlt2]; [exact Hle3 |].
  destruct Hle3 as [-> | Hlt3]; right; lia.
Qed.

(** Installing, for one namespace, a map that keeps the entries of the
    present one. *)
Lemma cache_grows_install c i h closed ns nsc :
  (∀ key entry,
     lookup_ns (cache c !! ns) key = Some entry →
     ∃ entry',
       lookup_ns (Some nsc) key = Some entry'
       ∧ (entry' = entry ∨ FetchedAt entry < FetchedAt entry')) →
  cache_grows c (mkCatalog i h (<[ns := nsc]> (cache c)) closed).
Proof.
  intros Hkeeps ns' key entry Hkey. cbn [cache].
  destruct (decide (ns = ns')) as [<- | Hne].
  - rewrite lookup_insert_eq. auto.
  - rewrite lookup_insert_ne by assumption. eauto.
Qed.

Lemma Fetch_cache_grows cl c rev ns (keys : list string) :
  cache_grows c (fetch_catalog (Fetch cl c rev ns keys)).
Proof.
  unfold Fetch.
  destruct (fetchLocal c rev ns keys) as [[solved unsolved] [e |]];
    [apply cache_grows_refl |].
  case_bool_decide; [apply cache_grows_refl |].
  destruct (client_Fetch cl (id c) ns unsolved)
    as [[fetchedRev fetchedAttrs] err].
  destruct (updateState_spec c fetchedRev err) as (_ & Hcache & _).
  destruct err as [e |]; [now apply cache_grows_same |].
  case_bool_decide; [now apply cache_grows_same |].
  set (st := merge_loop _ _ _ _).
  assert (cache_grows c
            match merge_cache st with
            | Some nsc =>
                mkCatalog (id (updateState c fetchedRev None))
                  (highestRev (updateState c fetchedRev None))
                  (<[ns := nsc]> (cache (updateState c fetchedRev None)))
                  (isClosed (updateState c fetchedRev None))
            | None => updateState c fetchedRev None
            end) as Hgrows.
  { destruct (merge_cache st) as [nsc |] eqn:Hst;
      [| now apply cache_grows_same].
    rewrite Hcache. apply cache_grows_install. intros key entry Hkey.
    rewrite <- Hst. subst st. apply merge_loop_keeps. cbn [merge_cache].
    now rewrite Hcache. }
  destruct (isStaleFetch st); exact Hgrows.
Qed.

Lemma TryUpdate_cache_grows cl c rev ns (l : list rinq.Attr) :
  cache_grows c (update_catalog (TryUpdate cl c rev ns l)).
Proof.
  unfold TryUpdate.
  destruct (isClosed c); [apply cache_grows_refl |].
  destruct (rev <? highestRev c); [apply cache_grows_refl |].
  destruct (filter_loop _ _ _ l []) as [e | updateAttrs];
    [apply cache_grows_refl |].
  destruct (client_Update cl _ ns updateAttrs)
    as [[updatedRev returnedAttrs] err].
  destruct (updateState_spec c updatedRev err) as (_ & Hcache & _).
  destruct err as [e |]; [now apply cache_grows_same |].
  destruct (update_merge_loop _ _ _) as [[m |] |] eqn:Hmerge;
    [| now apply cache_grows_same | now apply cache_grows_same].
  cbn [update_catalog]. rewrite Hcache. apply cache_grows_install.
  intros key entry Hkey.
  exact (update_merge_loop_keeps _ _ _ _ _ _ Hmerge Hkey).
Qed.

Lemma perform_cache_grows c (k : client * call) :
  cache_grows c (perform c k).
Proof.
  destruct k as [cl []]; unfold perform; cbn [fst snd].
  - unfold Head. destruct (isClosed c); [apply cache_grows_refl |].
    destruct (client_Fetch cl (id c) "" []) as [[rev attrs] err].
    destruct (updateState_spec c rev err) as (_ & Hcache & _).
    destruct err; now apply cache_grows_same.
  - unfold At. destruct (isClosed c); [apply cache_grows_refl |].
    destruct (updateState_spec c rev None) as (_ & Hcache & _).
    now apply cache_grows_same.
  - apply Fetch_cache_grows.
  - apply TryUpdate_cache_grows.
  - unfold TryDestroy. destruct (isClosed c); [apply cache_grows_refl |].
    destruct (rev <? highestRev c); [apply cache_grows_refl |].
    destruct (client_Close cl _); now apply cache_grows_same.
Qed.

Lemma run_cache_grows (ks : list (client * call)) c :
  cache_grows c (run ks c).
Proof.
  revert c. induction ks as [| k ks IH]; intros c;
    [apply cache_grows_refl |].
  change (run (k :: ks) c) with (run ks (perform c k)).
  exact (cache_grows_trans _ _ _ (perform_cache_grows c k) (IH _)).
Qed.

(** X21: the cache of a remote catalog only grows.  Whatever calls are
    made and whatever the remote peer answers, an attribute that is cached
    stays cached, and its entry is replaced only by one fetched at a
    strictly later revision. *)
Theorem cache_only_grows (ks : list (client * call)) c ns key entry :
  lookup_ns (cache c !! ns) key = Some entry →
  ∃ entry',
    lookup_ns (cache (run ks c) !! ns) key = Some entry'
    ∧ (entry' = entry ∨ FetchedAt entry < FetchedAt entry').
Proof. apply run_cache_grows. Qed.

Lemma cache_only_grows_witness :
  let c := samples.cached_remote in
  let ks := [(samples.remote_peer, CallTryUpdate 10 "ns" [rinq.Set_ "k" "w"]);
             (samples.gone_peer, CallFetch 11 "ns" ["n"%string])] in
  ∃ entry',
    lookup_ns (cache (run ks c) !! "ns") "k" = Some entry'
    ∧ (entry' = mkCachedAttr (attrmeta.mkAttr (rinq.Set_ "k" "v") 3 10) 10
       ∨ 10 < FetchedAt entry').
Proof.
  intros c ks.
  exact (cache_only_grows ks c "ns" "k"
           (mkCachedAttr (attrmeta.mkAttr (rinq.Set_ "k" "v") 3 10) 10)
           eq_refl).
Defined.

(** ** Answers are cached *)

Lemma merge_attr_caches rev fetchedRev st a :
  0 < fetchedRev →
  ∃ entry,
    lookup_ns (merge_cache (merge_attr rev fetchedRev st a)) (attrmeta.Key a)
    = Some entry
    ∧ fetchedRev ≤ FetchedAt entry.
Proof.
  intros Hpos. rewrite merge_attr_cache.
  destruct (FetchedAt (default zeroCached
                         (lookup_ns (merge_cache st) (attrmeta.Key a)))
            <? fetchedRev) eqn:Hnew.
  - cbn. rewrite lookup_insert_eq. eexists. split; [reflexivity |]. cbn. lia.
  - apply Z.ltb_ge in Hnew.
    destruct (lookup_ns (merge_cache st) (attrmeta.Key a)) as [entry |];
      cbn in Hnew; [eauto | lia].
Qed.

Lemma merge_loop_caches rev fetchedRev st l a :
  0 < fetchedRev → a ∈ l →
  ∃ entry,
    lookup_ns (merge_cache (merge_loop rev fetchedRev st l)) (attrmeta.Key a)
    = Some entry
    ∧ fetchedRev ≤ FetchedAt entry.
Proof.
  intros Hpos. revert st. induction l as [| b l IH]; intros st Hin.
  - inversion Hin.
  - apply elem_of_cons in Hin as [-> | Hin]; [| exact (IH _ Hin)].
    destruct (merge_attr_caches rev fetchedRev st b Hpos) as (e1 & H1 & Hle1).
    destruct (merge_loop_keeps rev fetchedRev _ l _ _ H1) as (e2 & H2 & Hle2).
    exists e2. split; [exact H2 |]. destruct Hle2 as [-> | Hlt]; lia.
Qed.

Lemma update_merge_loop_caches updatedRev nsc l out a :
  0 < updatedRev → a ∈ l →
  update_merge_loop updatedRev nsc l = Some out →
  ∃ entry,
    lookup_ns out (attrmeta.Key a) = Some entry
    ∧ updatedRev ≤ FetchedAt entry.
Proof.
  intros Hpos. revert nsc. induction l as [| b l IH]; intros nsc Hin Hout.
  - inversion Hin.
  - cbn [update_merge_loop] in Hout.
    apply elem_of_cons in Hin as [-> | Hin].
    + destruct (FetchedAt (default zeroCached
                             (lookup_ns nsc (attrmeta.Key b)))
                <? updatedRev) eqn:Hnew.
      * destruct nsc as [m |]; [| discriminate].
        destruct (update_merge_loop_keeps _ _ _ _ (attrmeta.Key b)
                    (mkCachedAttr b updatedRev) Hout) as (e2 & H2 & Hle2).
        { cbn. apply lookup_insert_eq. }
        exists e2. split; [exact H2 |]. cbn in Hle2.
        destruct Hle2 as [-> | Hlt]; cbn; lia.
      * apply Z.ltb_ge in Hnew.
        destruct (lookup_ns nsc (attrmeta.Key b)) as [entry |] eqn:Hkey;
          cbn in Hnew; [| lia].
        destruct (update_merge_loop_keeps _ _ _ _ _ _ Hout Hkey)
          as (e2 & H2 & Hle2).
        exists e2. split; [exact H2 |]. destruct Hle2 as [-> | Hlt]; lia.
    + destruct (FetchedAt _ <? updatedRev).
      * destruct nsc as [m |]; [| discriminate]. exact (IH _ Hin Hout).
      * exact (IH _ Hin Hout).
Qed.

(** Keys whose entries were fetched at [rev] or later are answered from
    the cache: none is left to ask for. *)
Lemma fetchLocal_loop_hit c rev nsc (keys : list string) solved unsolved :
  (∀ key, key ∈ keys →
          ∃ entry, lookup_ns nsc key = Some entry ∧ rev ≤ FetchedAt entry) →
  ∃ solved' oe,
    fetchLocal_loop c rev nsc keys solved unsolved = (solved', unsolved, oe).
Proof.
  revert solved. induction keys as [| key keys IH]; intros solved Hkeys;
    [cbn; eauto |].
  destruct (Hkeys key) as (entry & Hkey & Hle); [left |].
  assert (∀ k, k ∈ keys →
               ∃ e, lookup_ns nsc k = Some e ∧ rev ≤ FetchedAt e) as Hrest
    by (intros k Hk; apply Hkeys; now right).
  cbn [fetchLocal_loop]. rewrite Hkey.
  destruct (rev <? attrmeta.CreatedAt (Attr entry)); [exact (IH _ Hrest) |].
  destruct (rev <? attrmeta.UpdatedAt (Attr entry)); [eauto |].
  rewrite (proj2 (Z.leb_le _ _) Hle), orb_true_r. exact (IH _ Hrest).
Qed.

Lemma Fetch_hit cl c rev ns (keys : list string) :
  (∀ key, key ∈ keys →
          ∃ entry,
            lookup_ns (cache c !! ns) key = Some entry
            ∧ rev ≤ FetchedAt entry) →
  fetch_rpcs (Fetch cl c rev ns keys) = []
  ∧ fetch_catalog (Fetch cl c rev ns keys) = c.
Proof.
  intros Hkeys. unfold Fetch, fetchLocal.
  destruct (fetchLocal_loop_hit c rev (cache c !! ns) keys [] [] Hkeys)
    as (solved & oe & ->).
  destruct oe; cbn; auto.
Qed.

(** What [Fetch] leaves in the cache once the remote peer has answered. *)
Lemma Fetch_sent_cache cl c rev ns (keys sent : list string) fetchedRev
  fetchedAttrs :
  fetch_rpcs (Fetch cl c rev ns keys) = [RpcFetch (id c) ns sent] →
  client_Fetch cl (id c) ns sent = (fetchedRev, fetchedAttrs, None) →
  0 < fetchedRev →
  ∃ solved,
    cache (fetch_catalog (Fetch cl c rev ns keys)) !! ns
    = merge_cache (merge_loop rev fetchedRev
                     (mkMerge (cache c !! ns) false solved) fetchedAttrs).
Proof.
  unfold Fetch.
  destruct (fetchLocal c rev ns keys) as [[solved unsolved] [e |]];
    [discriminate |].
  case_bool_decide; [discriminate |].
  destruct (client_Fetch cl (id c) ns unsolved)
    as [[fetchedRev' fetchedAttrs'] err] eqn:Hanswer.
  destruct (updateState_spec c fetchedRev' err) as (_ & Hcache & _).
  intros Hrpcs Hsent Hpos. exists solved.
  assert (unsolved = sent) as ->
    by (destruct err; [| repeat case_match]; cbn in Hrpcs; congruence).
  rewrite Hsent in Hanswer. inversion Hanswer; subst. clear Hrpcs.
  case_bool_decide as Hempty.
  - destruct fetchedAttrs'; [| discriminate].
    cbn [fetch_catalog merge_loop foldl merge_cache]. now rewrite Hcache.
  - destruct fetchedAttrs' as [| a l]; [done |].
    rewrite Hcache.
    destruct (merge_loop_caches rev fetchedRev'
                (mkMerge (cache c !! ns) false solved) (a :: l) a Hpos)
      as (entry & Hentry & _); [left |].
    destruct (merge_cache _) as [nsc |] eqn:Hst; [| discriminate].
    destruct (isStaleFetch _); cbn; now rewrite lookup_insert_eq.
Qed.

(** X22: what the remote peer has answered is not asked for again.  After
    a Fetch that went to the remote peer and was answered at revision
    [fetchedRev], a Fetch of any of the returned attributes, in the same
    namespace and at a revision up to [fetchedRev], is answered from the
    cache: no request is sent and the catalog is left as it is. *)
Theorem Fetch_then_cached cl c rev ns (keys sent : list string) fetchedRev
  fetchedAttrs cl' rev' (keys' : list string) :
  fetch_rpcs (Fetch cl c rev ns keys) = [RpcFetch (id c) ns sent] →
  client_Fetch cl (id c) ns sent = (fetchedRev, fetchedAttrs, None) →
  0 < fetchedRev →
  rev' ≤ fetchedRev →
  (∀ key, key ∈ keys' → ∃ a, a ∈ fetchedAttrs ∧ attrmeta.Key a = key) →
  let c' := fetch_catalog (Fetch cl c rev ns keys) in
  fetch_rpcs (Fetch cl' c' rev' ns keys') = []
  ∧ fetch_catalog (Fetch cl' c' rev' ns keys') = c'.
Proof.
  intros Hrpcs Hanswer Hpos Hrev Hkeys c'. apply Fetch_hit.
  intros key Hkey. destruct (Hkeys key Hkey) as (a & Ha & <-).
  destruct (Fetch_sent_cache _ _ _ _ _ _ _ _ Hrpcs Hanswer Hpos)
    as (solved & Hcache).
  subst c'. rewrite Hcache.
  destruct (merge_loop_caches rev fetchedRev
              (mkMerge (cache c !! ns) false solved) fetchedAttrs a Hpos Ha)
    as (entry & Hentry & Hle).
  exists entry. split; [exact Hentry | lia].
Qed.

Lemma Fetch_then_cached_witness :
  let c := newCatalog samples.sess in
  let c' := fetch_catalog (Fetch samples.remote_peer c 1 "ns" ["k"%string]) in
  fetch_rpcs (Fetch samples.remote_peer c 1 "ns" ["k"%string])
  = [RpcFetch samples.sess "ns" ["k"%string]]
  ∧ fetch_rpcs (Fetch samples.gone_peer c' 1 "ns" ["k"%string]) = [].
Proof.
  intros c c'. split; [reflexivity |].
  refine (proj1 (Fetch_then_cached samples.remote_peer c 1 "ns" ["k"%string]
                   ["k"%string] 1
                   [attrmeta.mkAttr (rinq.Set_ "k" "v") 1 1]
                   samples.gone_peer 1 ["k"%string]
                   eq_refl eq_refl ltac:(lia) ltac:(lia) _)).
  intros key Hkey. apply list_elem_of_singleton in Hkey as ->.
  eexists. split; [left | reflexivity].
Defined.

(** ** Accepted updates *)

Lemma filter_loop_subset r rev nsc (l acc out : list rinq.Attr) a :
  filter_loop r rev nsc l acc = inr out → a ∈ out → a ∈ acc ∨ a ∈ l.
Proof.
  revert acc. induction l as [| b l IH]; intros acc Hout Ha.
  - cbn in Hout. inversion Hout; subst. now left.
  - cbn [filter_loop] in Hout.
    assert (∀ acc', filter_loop r rev nsc l acc' = inr out →
                    (∀ x, x ∈ acc' → x ∈ acc ∨ x = b) →
                    a ∈ acc ∨ a ∈ b :: l) as Hstep.
    { intros acc' Hout' Hacc'.
      destruct (IH _ Hout' Ha) as [Hin | Hin]; [| right; now right].
      destruct (Hacc' _ Hin) as [Hin' | ->]; [now left | right; left]. }
    assert (∀ x, x ∈ acc ++ [b] → x ∈ acc ∨ x = b) as Happ.
    { intros x Hx. apply elem_of_app in Hx as [Hx | Hx]; [now left |].
      apply list_elem_of_singleton in Hx. now right. }
    destruct (lookup_ns nsc (rinq.Key b)) as [entry |];
      [| exact (Hstep _ Hout Happ)].
    destruct (attrmeta.IsFrozen (Attr entry)).
    + case_bool_decide; [| discriminate]. apply (Hstep _ Hout). auto.
    + destruct (_ && _); [apply (Hstep _ Hout); auto |].
      exact (Hstep _ Hout Happ).
Qed.

(** X23: an update that the remote catalog reports as accepted.  Exactly
    one update request went out, for the given revision and with
    attributes of the request only; the remote peer accepted it; the
    catalog stays open and now stands at the larger of its former revision
    and the one the peer reported, which is the revision returned; and
    every attribute the peer sent back is cached as of the reported
    revision. *)
Theorem TryUpdate_accepted cl c rev ns (l : list rinq.Attr) rv :
  update_out (TryUpdate cl c rev ns l) = Ok rv →
  let c' := update_catalog (TryUpdate cl c rev ns l) in
  ∃ sent updatedRev returnedAttrs,
    update_rpcs (TryUpdate cl c rev ns l)
    = [RpcUpdate (ident.At (id c) rev) ns sent]
    ∧ (∀ a, a ∈ sent → a ∈ l)
    ∧ client_Update cl (ident.At (id c) rev) ns sent
      = (updatedRev, returnedAttrs, None)
    ∧ isClosed c = false ∧ isClosed c' = false
    ∧ highestRev c ≤ rev
    ∧ highestRev c' = Z.max (highestRev c) updatedRev
    ∧ rv = mkRevision (ident.At (id c) (highestRev c'))
    ∧ (0 < updatedRev →
       ∀ a, a ∈ returnedAttrs →
            ∃ entry,
              lookup_ns (cache c' !! ns) (attrmeta.Key a) = Some entry
              ∧ updatedRev ≤ FetchedAt entry).
Proof.
  unfold TryUpdate.
  destruct (isClosed c) eqn:Hopen; [discriminate |].
  destruct (rev <? highestRev c) eqn:Hstale; [discriminate |].
  apply Z.ltb_ge in Hstale.
  destruct (filter_loop _ _ _ l []) as [e | sent] eqn:Hfilter;
    [discriminate |].
  destruct (client_Update cl _ ns sent)
    as [[updatedRev returnedAttrs] err] eqn:Hanswer.
  destruct (updateState_spec c updatedRev err)
    as (Hid & Hcache & _ & _ & Hok & _).
  destruct err as [e |]; [discriminate |].
  destruct (Hok eq_refl) as [Hrev Hclosed].
  assert (∀ a, a ∈ sent → a ∈ l) as Hsent.
  { intros a Ha.
    destruct (filter_loop_subset _ _ _ _ _ _ _ Hfilter Ha) as [Hin | Hin];
      [inversion Hin | exact Hin]. }
  destruct (update_merge_loop _ _ _) as [[m |] |] eqn:Hmerge;
    [| | discriminate];
    cbn [update_out update_catalog update_rpcs isClosed highestRev id cache];
    rewrite ?Hid, ?Hclosed, ?Hrev, ?Hcache; intros [= <-];
    exists sent, updatedRev, returnedAttrs;
    repeat (split; [first [reflexivity | assumption] |]);
    intros Hpos a Ha;
    destruct (update_merge_loop_caches _ _ _ _ a Hpos Ha Hmerge)
      as (entry & Hentry & Hle); [| discriminate].
  rewrite lookup_insert_eq. eauto.
Qed.

Lemma TryUpdate_accepted_witness :
  let c := samples.cached_remote in
  ∃ entry,
    lookup_ns (cache (update_catalog
                        (TryUpdate samples.remote_peer c 10 "ns"
                           [rinq.Set_ "k" "w"])) !! "ns") "k"
    = Some entry
    ∧ 11 ≤ FetchedAt entry.
Proof.
  intros c.
  destruct (TryUpdate_accepted samples.remote_peer c 10 "ns"
              [rinq.Set_ "k" "w"]
              (mkRevision (ident.At samples.sess 11)) eq_refl)
    as (sent & updatedRev & returnedAttrs & Hrpcs & _ & Hanswer & _ & _ & _
        & _ & _ & Hcached).
  inversion Hrpcs; subst sent. inversion Hanswer; subst.
  exact (Hcached ltac:(lia) (attrmeta.mkAttr (rinq.Set_ "k" "w") 11 11)
           ltac:(left)).
Defined.

End RemoteCache.

(* ------------------------------------------------------------------------- *)
(** * The close command of the session server *)

Section SessionServer.

Import remotesession.

(** X24: what the session server answers to a close request for a session
    it has.  The session is destroyed and the response closed exactly when
    the request names the catalog's current revision; otherwise the catalog
    is left as it is and the request fails as a stale update.  A session
    that is found is never reported as not found, not even when its catalog
    has been closed before. *)
Theorem server_close_answers notFoundFailure staleUpdateFailure peerID
  sessions (args : closeRequest) cat :
  sessions (ident.mkSessionID peerID (close_Seq args)) = Some cat →
  ident.ID (localsession.ref cat) = ident.mkSessionID peerID (close_Seq args) →
  server_close notFoundFailure staleUpdateFailure peerID sessions (inr args)
  = if bool_decide (close_Rev args = ident.Rev (localsession.ref cat))
    then (Some (localsession.Close cat), ResClose)
    else (Some cat, ResFail staleUpdateFailure "").
Proof.
  intros Hfound Hid. unfold server_close, localsession.TryDestroy.
  rewrite Hfound. destruct cat as [[i rv] attrs seq done].
  cbn [localsession.ref ident.ID ident.Rev] in *. subst i.
  unfold ident.At, localsession.Close. cbn [localsession.ref
    localsession.attrs localsession.seq].
  repeat case_bool_decide; try reflexivity; congruence.
Qed.

Lemma server_close_answers_witness :
  let cat := samples.frozen_local.2 in
  let sessions i := if decide (i = samples.sess) then Some cat else None in
  server_close "not-found" "stale" samples.peer sessions
    (inr (mkCloseRequest 123 1))
  = (Some (localsession.Close cat), ResClose)
  ∧ server_close "not-found" "stale" samples.peer sessions
      (inr (mkCloseRequest 123 0))
    = (Some cat, ResFail "stale" "").
Proof.
  intros cat sessions. split.
  - exact (server_close_answers "not-found" "stale" samples.peer sessions
             (mkCloseRequest 123 1) cat eq_refl eq_refl).
  - exact (server_close_answers "not-found" "stale" samples.peer sessions
             (mkCloseRequest 123 0) cat eq_refl eq_refl).
Defined.

End SessionServer.

(* ------------------------------------------------------------------------- *)
(** * Verdicts and listening of the command server *)

Section CommandVerdicts.

Import commandamqp.

Context {Revision : Type}.
Variable ParseMessageID : string → option ident.MessageID.
Variable GetRevision : ident.Ref → rinq.error + Revision.
Variables balancedExchange multicastExchange unicastExchange : string.
Variable requestQueue : ident.PeerID → string.
Variable balancedRequestQueue : string → string.

Implicit Types (handlers : gmap string (CommandHandler Revision))
  (msg : Delivery).

#[local] Abbreviation dispatch :=
  (dispatch ParseMessageID GetRevision balancedExchange multicastExchange
     unicastExchange).
#[local] Abbreviation resolve :=
  (resolve balancedExchange multicastExchange unicastExchange).
#[local] Abbreviation Listen := (Listen requestQueue multicastExchange).
#[local] Abbreviation Unlisten :=
  (Unlisten requestQueue balancedRequestQueue multicastExchange).

(** The command and the responder flag the handler is run with. *)
#[local] Abbreviation command_of source msg :=
  (mkCommand Revision source (RoutingKey msg) (Type_ msg) (Body msg)
     (bool_decide (Exchange msg = multicastExchange))).
#[local] Abbreviation reply_required msg := (bool_decide (ReplyTo msg ≠ "")).

Lemma dispatch_cases handlers msg :
  dispatch handlers msg
  = match ParseMessageID (MessageId msg) with
    | None => [Reject false]
    | Some msgID =>
        match resolve msg with
        | None => [Reject false]
        | Some ns =>
            match (handlers !! ns : option (CommandHandler Revision)) with
            | None => [Reject true]
            | Some handler =>
                match GetRevision (ident.MsgRef msgID) with
                | inl _ => [Reject false]
                | inr source =>
                    if handler (command_of source msg) (reply_required msg)
                    then [Ack true]
                    else if bool_decide (Exchange msg = balancedExchange)
                    then [Reject true]
                    else [Reject false]
                end
            end
        end
    end.
Proof.
  assert (∀ msgID ns,
            match handle GetRevision balancedExchange multicastExchange
                    handlers msgID ns msg with
            | (verdicts, Some _) => verdicts ++ [Reject false]
            | (verdicts, None) => verdicts
            end
            = match (handlers !! ns : option (CommandHandler Revision)) with
              | None => [Reject true]
              | Some handler =>
                  match GetRevision (ident.MsgRef msgID) with
                  | inl _ => [Reject false]
                  | inr source =>
                      if handler (command_of source msg) (reply_required msg)
                      then [Ack true]
                      else if bool_decide (Exchange msg = balancedExchange)
                      then [Reject true]
                      else [Reject false]
                  end
              end) as Hhandle.
  { intros msgID ns. unfold handle.
    destruct (handlers !! ns) as [handler |]; [| reflexivity].
    destruct (GetRevision (ident.MsgRef msgID)) as [err | source];
      [reflexivity |].
    destruct (handler _ _); [reflexivity |].
    now case_bool_decide. }
  unfold commandamqp.dispatch, commandamqp.resolve.
  destruct (ParseMessageID (MessageId msg)) as [msgID |]; [| reflexivity].
  destruct (bool_decide (Exchange msg = balancedExchange
                         ∨ Exchange msg = multicastExchange));
    [apply Hhandle |].
  destruct (bool_decide (Exchange msg = unicastExchange)); [| reflexivity].
  destruct (NamespaceHeader msg) as [ns |]; [apply Hhandle | reflexivity].
Qed.

(** X25: every delivery gets exactly one verdict: it is acknowledged or
    rejected once, never both and never left without an answer. *)
Theorem dispatch_one_verdict handlers msg :
  dispatch handlers msg = [Ack true]
  ∨ dispatch handlers msg = [Reject true]
  ∨ dispatch handlers msg = [Reject false].
Proof.
  rewrite dispatch_cases.
  destruct (ParseMessageID (MessageId msg)); [| auto].
  destruct (resolve msg) as [ns |]; [| auto].
  destruct (handlers !! ns) as [handler |]; [| auto].
  destruct (GetRevision _); [auto |].
  destruct (handler _ _); [auto |]. case_bool_decide; auto.
Qed.

#[local] Ltac unpack :=
  repeat match goal with
         | H : ∃ _, _ |- _ => destruct H
         | H : _ ∧ _ |- _ => destruct H
         | H : _ ∨ _ |- _ => destruct H
         end.

#[local] Ltac settle :=
  split; split; intros Hgiven; try discriminate Hgiven; unpack;
  simplify_eq;
  repeat match goal with
         | H : ?a = _, H' : ?a = _ |- _ => rewrite H in H'; simplify_eq
         end;
  try congruence; eauto 12.

(** X26: when a delivery is acknowledged and when it is handed back to the
    broker.  It is acknowledged exactly when its message ID parses, it
    resolves to a namespace with a handler, the sender's revision is found
    and the handler closes the response.  It is rejected with requeue
    exactly when its message ID parses, it resolves to a namespace, and
    either there is no handler for it, or it came through the balanced
    exchange and the handler left the response open. *)
Theorem dispatch_verdicts handlers msg :
  (dispatch handlers msg = [Ack true]
   ↔ ∃ msgID ns (handler : CommandHandler Revision) source,
       ParseMessageID (MessageId msg) = Some msgID
       ∧ resolve msg = Some ns
       ∧ handlers !! ns = Some handler
       ∧ GetRevision (ident.MsgRef msgID) = inr source
       ∧ handler (command_of source msg) (reply_required msg) = true)
  ∧ (dispatch handlers msg = [Reject true]
     ↔ ∃ msgID ns,
         ParseMessageID (MessageId msg) = Some msgID
         ∧ resolve msg = Some ns
         ∧ (handlers !! ns = None
            ∨ ∃ (handler : CommandHandler Revision) source,
                handlers !! ns = Some handler
                ∧ GetRevision (ident.MsgRef msgID) = inr source
                ∧ handler (command_of source msg) (reply_required msg) = false
                ∧ Exchange msg = balancedExchange)).
Proof.
  rewrite dispatch_cases.
  destruct (ParseMessageID (MessageId msg)) as [msgID |]; [| settle].
  destruct (resolve msg) as [ns |]; [| settle].
  destruct (handlers !! ns) as [handler |] eqn:Hhandler; [| settle].
  destruct (GetRevision (ident.MsgRef msgID)) as [err | source] eqn:Hrev;
    [settle |].
  destruct (handler _ _) eqn:Hrun; [settle |].
  destruct (decide (Exchange msg = balancedExchange)) as [Hbalanced | Hother];
    [rewrite (bool_decide_eq_true_2 _ Hbalanced)
    | rewrite (bool_decide_eq_false_2 _ Hother)]; settle.
Qed.

(** X27: a failed Listen or Unlisten changes no handler.  When either
    returns an error, the handler map is as before and the call reports no
    change; Listen fails only for a namespace that had no handler and
    Unlisten only for one that had. *)
Theorem listening_failures ch peerID handlers ns handler e :
  ((Listen ch peerID handlers ns handler).2.2 = Some e →
   (Listen ch peerID handlers ns handler).1.1 = handlers
   ∧ (Listen ch peerID handlers ns handler).2.1 = false
   ∧ handlers !! ns = None)
  ∧ ((Unlisten ch peerID handlers ns).2.2 = Some e →
     (Unlisten ch peerID handlers ns).1.1 = handlers
     ∧ (Unlisten ch peerID handlers ns).2.1 = false
     ∧ is_Some (handlers !! ns)).
Proof.
  split.
  - unfold commandamqp.Listen.
    destruct (handlers !! ns); [discriminate |].
    destruct (QueueBind ch _ _ _); [auto |].
    destruct (QueuesGet ch ns) as [err | queue]; [auto |].
    destruct (Consume ch queue queue); [auto | discriminate].
  - unfold commandamqp.Unlisten.
    destruct (handlers !! ns); [| discriminate].
    destruct (QueueUnbind ch _ _ _); [auto |].
    destruct (Cancel ch _); [auto | discriminate].
Qed.

Lemma Listen_ok ch peerID handlers ns handler :
  (Listen ch peerID handlers ns handler).2.2 = None →
  (Listen ch peerID handlers ns handler).1.1 = <[ns := handler]> handlers
  ∧ ((Listen ch peerID handlers ns handler).2.1 = true
     ↔ handlers !! ns = None)
  ∧ (is_Some (handlers !! ns) →
     (Listen ch peerID handlers ns handler).1.2 = []).
Proof.
  unfold commandamqp.Listen.
  destruct (handlers !! ns) eqn:Hns.
  - intros _. cbn. repeat split; discriminate.
  - destruct (QueueBind ch _ _ _); [discriminate |].
    destruct (QueuesGet ch ns) as [err | queue]; [discriminate |].
    destruct (Consume ch queue queue); [discriminate |].
    intros _. cbn. repeat split. intros [? ?]. discriminate.
Qed.

Lemma Unlisten_ok ch peerID handlers ns :
  (Unlisten ch peerID handlers ns).2.2 = None →
  (Unlisten ch peerID handlers ns).1.1 = delete ns handlers
  ∧ ((Unlisten ch peerID handlers ns).2.1 = true
     ↔ is_Some (handlers !! ns)).
Proof.
  unfold commandamqp.Unlisten.
  destruct (handlers !! ns) eqn:Hns.
  - destruct (QueueUnbind ch _ _ _); [discriminate |].
    destruct (Cancel ch _); [discriminate |].
    intros _. cbn. split; [reflexivity |]. split; eauto.
  - intros _. cbn. split; [now rewrite delete_id |].
    split; [discriminate | intros [? ?]; discriminate].
Qed.

(** X28: after Listen has returned without an error, the handler given is
    the one that gets the namespace's requests, also when it replaced an
    earlier one, in which case nothing was asked of the broker.  A request
    for the namespace with a valid message ID and a known sender is then
    never handed back for want of a handler: it is acknowledged when the
    handler closes the response, and otherwise requeued on the balanced
    exchange and dropped on the others.  Requests for other namespaces are
    dispatched as before. *)
Theorem Listen_then_dispatch ch peerID handlers ns handler msg msgID source :
  (Listen ch peerID handlers ns handler).2.2 = None →
  ParseMessageID (MessageId msg) = Some msgID →
  GetRevision (ident.MsgRef msgID) = inr source →
  let handlers' := (Listen ch peerID handlers ns handler).1.1 in
  (resolve msg = Some ns →
   dispatch handlers' msg
   = if handler (command_of source msg) (reply_required msg)
     then [Ack true]
     else if bool_decide (Exchange msg = balancedExchange)
     then [Reject true]
     else [Reject false])
  ∧ (resolve msg ≠ Some ns → dispatch handlers' msg = dispatch handlers msg)
  ∧ (is_Some (handlers !! ns) →
     (Listen ch peerID handlers ns handler).1.2 = []
     ∧ (Listen ch peerID handlers ns handler).2.1 = false).
Proof.
  intros Hok Hparse Hsource handlers'.
  destruct (Listen_ok ch peerID handlers ns handler Hok)
    as (Hmap & Hchanged & Hops).
  subst handlers'. rewrite Hmap. split; [| split].
  - intros Hns. rewrite dispatch_cases, Hparse, Hns, lookup_insert_eq.
    now rewrite Hsource.
  - intros Hns. rewrite !dispatch_cases, Hparse.
    destruct (resolve msg) as [ns' |]; [| reflexivity].
    rewrite lookup_insert_ne by congruence. reflexivity.
  - intros Hsome. split; [auto |].
    destruct ((Listen ch peerID handlers ns handler).2.1); [| reflexivity].
    destruct Hsome as [h Hh]. rewrite (proj1 Hchanged eq_refl) in Hh.
    discriminate.
Qed.

(** X29: after Unlisten has returned without an error, a request with a
    valid message ID that resolves to the namespace is handed back to the
    broker with requeue, whichever exchange it came through, and requests
    for other namespaces are dispatched as before.  Unlisten after a
    Listen for a namespace that had no handler restores the handler map. *)
Theorem Unlisten_then_dispatch ch peerID handlers ns msg msgID :
  (Unlisten ch peerID handlers ns).2.2 = None →
  ParseMessageID (MessageId msg) = Some msgID →
  let handlers' := (Unlisten ch peerID handlers ns).1.1 in
  (resolve msg = Some ns → dispatch handlers' msg = [Reject true])
  ∧ (resolve msg ≠ Some ns → dispatch handlers' msg = dispatch handlers msg)
  ∧ (∀ ch0 handlers0 handler,
       handlers0 !! ns = None →
       (Listen ch0 peerID handlers0 ns handler).2.2 = None →
       handlers = (Listen ch0 peerID handlers0 ns handler).1.1 →
       handlers' = handlers0).
Proof.
  intros Hok Hparse handlers'.
  destruct (Unlisten_ok ch peerID handlers ns Hok) as (Hmap & _).
  subst handlers'. rewrite Hmap. split; [| split].
  - intros Hns. rewrite dispatch_cases, Hparse, Hns.
    now rewrite lookup_delete_eq.
  - intros Hns. rewrite !dispatch_cases, Hparse.
    destruct (resolve msg) as [ns' |]; [| reflexivity].
    rewrite lookup_delete_ne by congruence. reflexivity.
  - intros ch0 handlers0 handler Hnone Hlisten ->.
    destruct (Listen_ok ch0 peerID handlers0 ns handler Hlisten)
      as (-> & _).
    now rewrite delete_insert_eq, delete_id.
Qed.

End CommandVerdicts.

Section CommandVerdictsSamples.

Import commandamqp.

Lemma dispatch_verdicts_witness :
  samples.server_dispatch {[ "math"%string := samples.answering ]}
    (samples.request samples.balancedExchange)
  = [Ack true].
Proof.
  destruct (dispatch_verdicts samples.ParseMessageID samples.GetRevision
              samples.balancedExchange samples.multicastExchange
              samples.unicastExchange
              {[ "math"%string := samples.answering ]}
              (samples.request samples.balancedExchange)) as [[_ Hack] _].
  apply Hack.
  exists samples.message_id, "math"%string, samples.answering,
    (ident.At samples.sess 456).
  repeat split.
Defined.

Lemma listening_failures_witness :
  let refusing :=
    mkChannel (λ _ _ _, Some (rinq.OtherError "channel closed"))
      (λ _ _ _, None) (λ ns, inr ns) (λ _ _, None) (λ _, None) in
  (Listen samples.requestQueue samples.multicastExchange refusing samples.peer
     (∅ : gmap string (CommandHandler ident.Ref)) "math"
     samples.answering).1.1 = ∅.
Proof.
  intros refusing.
  destruct (listening_failures (Revision := ident.Ref) samples.multicastExchange
              samples.requestQueue samples.balancedRequestQueue
              refusing samples.peer ∅ "math" samples.answering
              (rinq.OtherError "channel closed")) as [Hlisten _].
  destruct (Hlisten eq_refl) as (Hmap & _). exact Hmap.
Defined.

Lemma Listen_then_dispatch_witness :
  let handlers' :=
    (Listen samples.requestQueue samples.multicastExchange samples.broker
       samples.peer (∅ : gmap string (CommandHandler ident.Ref)) "math"
       samples.answering).1.1 in
  samples.server_dispatch handlers' (samples.request samples.unicastExchange)
  = [Ack true].
Proof.
  intros handlers'.
  assert ((Listen samples.requestQueue samples.multicastExchange
             samples.broker samples.peer
             (∅ : gmap string (CommandHandler ident.Ref)) "math"
             samples.answering).2.2 = None) as Hok
    by (vm_compute; reflexivity).
  destruct (Listen_then_dispatch samples.ParseMessageID samples.GetRevision
              samples.balancedExchange samples.multicastExchange
              samples.unicastExchange samples.requestQueue
              samples.broker samples.peer ∅ "math" samples.answering
              (samples.request samples.unicastExchange) samples.message_id
              (ident.At samples.sess 456) Hok eq_refl eq_refl)
    as (Hns & _).
  apply Hns. vm_compute. reflexivity.
Defined.

Lemma Unlisten_then_dispatch_witness :
  let handlers : gmap string (CommandHandler ident.Ref) :=
    {[ "math"%string := samples.answering ]} in
  let handlers' :=
    (Unlisten samples.requestQueue samples.balancedRequestQueue
       samples.multicastExchange samples.broker samples.peer handlers
       "math").1.1 in
  samples.server_dispatch handlers' (samples.request samples.balancedExchange)
  = [Reject true].
Proof.
  intros handlers handlers'.
  assert ((Unlisten samples.requestQueue samples.balancedRequestQueue
             samples.multicastExchange samples.broker samples.peer handlers
             "math").2.2 = None) as Hok
    by (vm_compute; reflexivity).
  destruct (Unlisten_then_dispatch samples.ParseMessageID samples.GetRevision
              samples.balancedExchange samples.multicastExchange
              samples.unicastExchange samples.requestQueue
              samples.balancedRequestQueue
              samples.broker samples.peer handlers "math"
              (samples.request samples.balancedExchange) samples.message_id
              Hok eq_refl)
    as (Hns & _).
  apply Hns. vm_compute. reflexivity.
Defined.

End CommandVerdictsSamples.
